(** * opencode-gui: the session/event synchronisation engine

    A shallow embedding of the client-side stores of the opencode GUI and the
    properties of its specification that concern them.

    Sources embedded here:
    - [stores/opencode-store] (the zustand store; it is the second document of
      [src/components/chat/chat-timeline.tsx]): module [Store];
    - [src/state/opencode-store.tsx] (the React-context provider, a parallel
      implementation of the same store): module [Provider];
    - [src/context/local.tsx] (the file/workspace store, [file.close]): module
      [Local];
    - [src/services/opencode-client.ts] ([readConfig]): module [Client];
    - [types/opencode] (second document of [src/context/local.tsx]): the
      record modules [SessionInfo], [MessageInfo], [MessagePart],
      [MessageWithParts] and [ServerEvent].

    Numbers are timestamps in milliseconds and are modelled by [Z]; strings by
    [string]; [T | undefined] by [option T]; a JS object used as a dictionary
    by [gmap string _]; a [Set<string>] by [gset string]. *)

From Stdlib Require Import ZArith Lia.
From stdpp Require Import base option list sorting strings gmap fin_maps.

Local Open Scope Z_scope.

(** ** JavaScript built-ins used by the stores *)

Module Js.

(** Truthiness of a [string | undefined] value: [undefined] and the empty
    string are falsy, every other string is truthy. *)
Definition truthy_string (s : string) : bool := bool_decide (s ≠ "").

Definition truthy (o : option string) : bool :=
  match o with
  | Some s => truthy_string s
  | None => false
  end.

(** [Array.prototype.findIndex]: index of the first element satisfying the
    predicate, [-1] when there is none. *)
Definition findIndex {A} (P : A → Prop) `{∀ x, Decision (P x)}
    (l : list A) : Z :=
  match list_find P l with
  | Some (i, _) => Z.of_nat i
  | None => -1
  end.

(** [copy[index] = next] for an index returned by [findIndex]. *)
Definition assign_at {A} (index : Z) (next : A) (copy : list A) : list A :=
  <[Z.to_nat index := next]> copy.

(** [list[index]] for a non-negative integer index. *)
Definition at_index {A} (l : list A) (index : Z) : option A :=
  if bool_decide (0 ≤ index) then l !! Z.to_nat index else None.

(** [Array.prototype.sort] with a comparator.  The sort is stable
    (ECMAScript 2019): for a comparator that is a consistent order the
    result is the unique stable ordering of the input, which the insertion
    sort below computes.  An element [x] goes after [y] exactly when
    [cmp x y > 0]. *)
Fixpoint sort_insert {A} (cmp : A → A → Z) (x : A) (l : list A) : list A :=
  match l with
  | [] => [x]
  | y :: l' =>
      if bool_decide (cmp x y ≤ 0) then x :: y :: l'
      else y :: sort_insert cmp x l'
  end.

Definition Array_sort {A} (cmp : A → A → Z) (l : list A) : list A :=
  foldr (sort_insert cmp) [] l.

(** [a] may stand before [b] in the result of a sort by [cmp]. *)
Definition before {A} (cmp : A → A → Z) (a b : A) : Prop := cmp a b ≤ 0.

(** [Array.prototype.find] and [Array.prototype.some]. *)
Definition find {A} (P : A → Prop) `{∀ x, Decision (P x)}
    (l : list A) : option A :=
  snd <$> list_find P l.

Definition some {A} (P : A → Prop) `{∀ x, Decision (P x)}
    (l : list A) : bool :=
  bool_decide (Exists P l).

(** [id ? f(id) : d] on a [string | undefined]. *)
Definition if_truthy {A} (o : option string) (f : string → A) (d : A) : A :=
  match o with
  | Some s => if truthy_string s then f s else d
  | None => d
  end.

(** The values [JSON.parse] returns. *)
#[local] Set Warnings "-register-all".
Inductive Json :=
| JNull
| JBool (b : bool)
| JNumber (n : Z)
| JString (s : string)
| JArray (items : list Json)
| JObject (fields : list (string * Json)).
#[local] Set Warnings "register-all".

(** Built-ins whose result depends on the host (ICU collation, the Unicode
    white-space table, the JSON grammar): they are parameters of the
    development. *)
Class Host := {
  localeCompare : string → string → Z;
  trim : string → string;
  (** [JSON.parse]: [None] when it throws a [SyntaxError]; the empty text
      is not a JSON text. *)
  JSON_parse : string → option Json;
  JSON_parse_empty : JSON_parse "" = None;
}.

(** [typeof] on a parsed JSON value; [typeof null] is ["object"], and so is
    the type of an array. *)
Definition typeof (v : Json) : string :=
  match v with
  | JNull => "object"
  | JBool _ => "boolean"
  | JNumber _ => "number"
  | JString _ => "string"
  | JArray _ => "object"
  | JObject _ => "object"
  end.

(** [parsed === null] *)
Definition is_null (v : Json) : bool :=
  match v with
  | JNull => true
  | _ => false
  end.

(** [typeof] of a member that may be missing. *)
Definition typeof_member (v : option Json) : string :=
  match v with
  | Some v => typeof v
  | None => "undefined"
  end.

Fixpoint assoc (key : string) (fields : list (string * Json))
    : option Json :=
  match fields with
  | [] => None
  | (k, v) :: rest => if bool_decide (k = key) then Some v else assoc key rest
  end.

(** [parsed.key] for a key that is neither an array index nor ["length"]:
    an own member of an object, [undefined] on an array.  (On [null] the
    access throws; [readConfig] excludes [null] first.) *)
Definition member (parsed : Json) (key : string) : option Json :=
  match parsed with
  | JObject fields => assoc key fields
  | _ => None
  end.

(** What [try]/[catch] can see of a thrown value. *)
Inductive Thrown :=
| ErrorObject (message : string)      (* [error instanceof Error] *)
| ThrownString (s : string)           (* [typeof error === "string"] *)
| ThrownValue (shown : string).       (* anything else; [String(error)] *)

(** [String(error)]. *)
Definition String_of (e : Thrown) : string :=
  match e with
  | ErrorObject m => "Error: " +:+ m
  | ThrownString s => s
  | ThrownValue shown => shown
  end.

(** How a promise settles. *)
Inductive Settled (A : Type) :=
| Fulfilled (a : A)
| Rejected (e : Thrown).
Global Arguments Fulfilled {A} a.
Global Arguments Rejected {A} e.

(** How a synchronous block ends. *)
Inductive Completion (A : Type) :=
| Normal (a : A)
| Throw (e : Thrown).
Global Arguments Normal {A} a.
Global Arguments Throw {A} e.

Definition try_ {A} (body : Completion A) (handler : Thrown → Completion A)
    : Completion A :=
  match body with
  | Throw e => handler e
  | Normal a => Normal a
  end.

(** An [async] function over a store of type [S] is a state transformer
    that ends fulfilled or rejected; the outcome of the request it awaits
    is an argument.  The function runs to its end without another action
    of the store in between. *)
Definition Async (S A : Type) : Type := S → Settled A * S.

Definition resolve {S A} (a : A) : Async S A := λ st, (Fulfilled a, st).

Definition then_ {S A B} (m : Async S A) (k : A → Async S B) : Async S B :=
  λ st,
    match m st with
    | (Fulfilled a, st') => k a st'
    | (Rejected e, st') => (Rejected e, st')
    end.

(** One state update ([set(...)] of zustand, [setState] of React). *)
Definition set {S} (f : S → S) : Async S unit := λ st, (Fulfilled tt, f st).

Definition await {S A} (request : Settled A) : Async S A :=
  λ st, (request, st).

Definition try_catch {S A} (body : Async S A) (handler : Thrown → Async S A)
    : Async S A :=
  λ st,
    match body st with
    | (Rejected e, st') => handler e st'
    | done => done
    end.

Definition finally {S A} (body : Async S A) (cleanup : Async S unit)
    : Async S A :=
  λ st,
    let '(outcome, st') := body st in
    match cleanup st' with
    | (Fulfilled _, st'') => (outcome, st'')
    | (Rejected e, st'') => (Rejected e, st'')
    end.

Global Instance Async_ret {S} : MRet (Async S) := @resolve S.
Global Instance Async_bind {S} : MBind (Async S) := λ A B k m, then_ m k.

(** The state an action leaves behind, and how it settles. *)
Definition state_after {S A} (m : Async S A) (st : S) : S := snd (m st).
Definition outcome_of {S A} (m : Async S A) (st : S) : Settled A :=
  fst (m st).

End Js.

(** ** The records of [types/opencode] *)

Module SessionInfo.
Record SessionTime := {
  created : Z;
  updated : Z;
  compacting : option Z;
}.
(** The optional [share] and [revert] members are never read by the
    stores; they are carried as opaque strings. *)
Record t := {
  id : string;
  projectID : string;
  directory : string;
  parentID : option string;
  share : option string;
  title : string;
  version : string;
  time : SessionTime;
  revert : option string;
}.
End SessionInfo.
Abbreviation SessionInfo := SessionInfo.t.

Module MessageInfo.
Inductive MessageRole := assistant | user.
(** [AssistantMessageInfo | UserMessageInfo]: both carry [id],
    [sessionID], [role] and [time.created]; the assistant-only members are
    kept as one optional payload. *)
Record t := {
  id : string;
  sessionID : string;
  role : MessageRole;
  created : Z;            (* [time.created] *)
  completed : option Z;   (* [time.completed], assistant only *)
  detail : option string; (* cost, tokens, model, error ... *)
}.
End MessageInfo.
Abbreviation MessageInfo := MessageInfo.t.

Module MessagePart.
Inductive ToolState :=
| pending
| running (input : string)
| completed (input output title : string)
| error (input message : string).

Inductive Body :=
| text (value : string)
| reasoning (value : string)
| file (mime url : string)
| tool (callID name : string) (state : ToolState)
| patch (hash : string) (files : list string)
| snapshot (value : string).

Record t := {
  id : string;
  messageID : string;
  sessionID : string;
  body : Body;            (* the [type] tag with its own members *)
}.
End MessagePart.
Abbreviation MessagePart := MessagePart.t.

Module MessageWithParts.
Record t := {
  info : MessageInfo;
  parts : list MessagePart;
}.
End MessageWithParts.
Abbreviation MessageWithParts := MessageWithParts.t.

(** [ServerEvent] of [types/opencode]. *)
Module ServerEvent.
Inductive t :=
| server_connected
| message_created (info : MessageInfo) (parts : list MessagePart)
| message_updated (info : MessageInfo)
| message_removed (sessionID messageID : string)
| message_part_updated (part : MessagePart)
| message_part_removed (sessionID messageID partID : string)
| session_updated (info : SessionInfo)
| session_deleted (info : SessionInfo)
(** [error.data.message ?? error.message], already read off the payload:
    [None] when both are null or undefined, otherwise the value, as a
    string ([inl]) or as its [JSON.stringify] rendering ([inr]). *)
| session_error (sessionID : option string) (rawMessage : option (string + string))
| session_idle (sessionID : string).
End ServerEvent.
Abbreviation ServerEvent := ServerEvent.t.

Module OpencodeConfig.
Record t := {
  baseUrl : string;
  directory : option string;
}.
End OpencodeConfig.
Abbreviation OpencodeConfig := OpencodeConfig.t.

(** ** The zustand store ([stores/opencode-store]) *)

Module Store.
Import Js.

Record OpencodeStoreState := {
  config : OpencodeConfig;
  sessions : list SessionInfo;
  messages : gmap string (list MessageWithParts);
  activeSessionID : option string;
  activeSession : option SessionInfo;
  activeMessages : list MessageWithParts;
  isLoadingSessions : bool;
  isLoadingMessages : bool;
  busySessionIDs : gset string;
  lastError : option string;
}.

(** [set({ field: value })]: zustand merges the partial object into the
    state, the other members are kept. *)
Definition with_config v st :=
  {| config := v; sessions := sessions st; messages := messages st;
     activeSessionID := activeSessionID st; activeSession := activeSession st;
     activeMessages := activeMessages st;
     isLoadingSessions := isLoadingSessions st;
     isLoadingMessages := isLoadingMessages st;
     busySessionIDs := busySessionIDs st; lastError := lastError st |}.
Definition with_sessions v st :=
  {| config := config st; sessions := v; messages := messages st;
     activeSessionID := activeSessionID st; activeSession := activeSession st;
     activeMessages := activeMessages st;
     isLoadingSessions := isLoadingSessions st;
     isLoadingMessages := isLoadingMessages st;
     busySessionIDs := busySessionIDs st; lastError := lastError st |}.
Definition with_messages v st :=
  {| config := config st; sessions := sessions st; messages := v;
     activeSessionID := activeSessionID st; activeSession := activeSession st;
     activeMessages := activeMessages st;
     isLoadingSessions := isLoadingSessions st;
     isLoadingMessages := isLoadingMessages st;
     busySessionIDs := busySessionIDs st; lastError := lastError st |}.
Definition with_activeSessionID v st :=
  {| config := config st; sessions := sessions st; messages := messages st;
     activeSessionID := v; activeSession := activeSession st;
     activeMessages := activeMessages st;
     isLoadingSessions := isLoadingSessions st;
     isLoadingMessages := isLoadingMessages st;
     busySessionIDs := busySessionIDs st; lastError := lastError st |}.
Definition with_activeSession v st :=
  {| config := config st; sessions := sessions st; messages := messages st;
     activeSessionID := activeSessionID st; activeSession := v;
     activeMessages := activeMessages st;
     isLoadingSessions := isLoadingSessions st;
     isLoadingMessages := isLoadingMessages st;
     busySessionIDs := busySessionIDs st; lastError := lastError st |}.
Definition with_activeMessages v st :=
  {| config := config st; sessions := sessions st; messages := messages st;
     activeSessionID := activeSessionID st; activeSession := activeSession st;
     activeMessages := v;
     isLoadingSessions := isLoadingSessions st;
     isLoadingMessages := isLoadingMessages st;
     busySessionIDs := busySessionIDs st; lastError := lastError st |}.
Definition with_isLoadingSessions v st :=
  {| config := config st; sessions := sessions st; messages := messages st;
     activeSessionID := activeSessionID st; activeSession := activeSession st;
     activeMessages := activeMessages st;
     isLoadingSessions := v;
     isLoadingMessages := isLoadingMessages st;
     busySessionIDs := busySessionIDs st; lastError := lastError st |}.
Definition with_isLoadingMessages v st :=
  {| config := config st; sessions := sessions st; messages := messages st;
     activeSessionID := activeSessionID st; activeSession := activeSession st;
     activeMessages := activeMessages st;
     isLoadingSessions := isLoadingSessions st;
     isLoadingMessages := v;
     busySessionIDs := busySessionIDs st; lastError := lastError st |}.
Definition with_busySessionIDs v st :=
  {| config := config st; sessions := sessions st; messages := messages st;
     activeSessionID := activeSessionID st; activeSession := activeSession st;
     activeMessages := activeMessages st;
     isLoadingSessions := isLoadingSessions st;
     isLoadingMessages := isLoadingMessages st;
     busySessionIDs := v; lastError := lastError st |}.
Definition with_lastError v st :=
  {| config := config st; sessions := sessions st; messages := messages st;
     activeSessionID := activeSessionID st; activeSession := activeSession st;
     activeMessages := activeMessages st;
     isLoadingSessions := isLoadingSessions st;
     isLoadingMessages := isLoadingMessages st;
     busySessionIDs := busySessionIDs st; lastError := v |}.

(** The state [create] starts from; [readConfig()] is the argument. *)
Definition initial (cfg : OpencodeConfig) : OpencodeStoreState :=
  {| config := cfg; sessions := []; messages := ∅;
     activeSessionID := None; activeSession := None; activeMessages := [];
     isLoadingSessions := false; isLoadingMessages := false;
     busySessionIDs := ∅; lastError := None |}.

(** *** The list functions ([list] is spelled [lst]) *)

(** [(a, b) => b.time.updated - a.time.updated] *)
Definition by_updated_desc (a b : SessionInfo) : Z :=
  SessionInfo.updated (SessionInfo.time b)
  - SessionInfo.updated (SessionInfo.time a).

(** [(a, b) => (a.info.time.created ?? 0) - (b.info.time.created ?? 0)];
    [time.created] is a [number] in both message types, on which [?? 0] is
    the identity. *)
Definition by_created_asc (a b : MessageWithParts) : Z :=
  MessageInfo.created (MessageWithParts.info a)
  - MessageInfo.created (MessageWithParts.info b).

Definition mergeSessions (lst : list SessionInfo) (next : SessionInfo)
    : list SessionInfo :=
  let index :=
    findIndex (λ item, SessionInfo.id item = SessionInfo.id next) lst in
  if bool_decide (0 ≤ index) then
    let copy := assign_at index next lst in
    Array_sort by_updated_desc copy
  else
    let copy := lst ++ [next] in
    Array_sort by_updated_desc copy.

Definition removeSession (lst : list SessionInfo) (id : string)
    : list SessionInfo :=
  filter (λ item, SessionInfo.id item ≠ id) lst.

Definition message_id (item : MessageWithParts) : string :=
  MessageInfo.id (MessageWithParts.info item).

Definition mergeMessageList (lst : list MessageWithParts)
    (next : MessageWithParts) : list MessageWithParts :=
  let index := findIndex (λ item, message_id item = message_id next) lst in
  if bool_decide (0 ≤ index) then
    let copy := assign_at index next lst in
    Array_sort by_created_asc copy
  else
    let copy := lst ++ [next] in
    Array_sort by_created_asc copy.

Definition mergeMessageInfoList (lst : list MessageWithParts)
    (info : MessageInfo) : list MessageWithParts :=
  let index :=
    findIndex (λ item, message_id item = MessageInfo.id info) lst in
  if bool_decide (0 ≤ index) then
    match at_index lst index with
    | Some old =>
        assign_at index
          {| MessageWithParts.info := info;
             MessageWithParts.parts := MessageWithParts.parts old |} lst
    | None => lst (* not reached: [index] comes from [findIndex] *)
    end
  else lst.

Definition mergeMessagePartList `{Host} (lst : list MessageWithParts)
    (part : MessagePart) : list MessageWithParts :=
  let index :=
    findIndex (λ item, message_id item = MessagePart.messageID part) lst in
  if bool_decide (index < 0) then lst
  else
    match at_index lst index with
    | Some target =>
        let partIndex :=
          findIndex (λ item, MessagePart.id item = MessagePart.id part)
            (MessageWithParts.parts target) in
        let nextParts :=
          if bool_decide (0 ≤ partIndex) then
            assign_at partIndex part (MessageWithParts.parts target)
          else
            Array_sort
              (λ a b, localeCompare (MessagePart.id a) (MessagePart.id b))
              (MessageWithParts.parts target ++ [part]) in
        assign_at index
          {| MessageWithParts.info := MessageWithParts.info target;
             MessageWithParts.parts := nextParts |} lst
    | None => lst (* not reached: [index] comes from [findIndex] *)
    end.

Definition removeMessagePartFromList (lst : list MessageWithParts)
    (messageID partID : string) : list MessageWithParts :=
  let index := findIndex (λ item, message_id item = messageID) lst in
  if bool_decide (index < 0) then lst
  else
    match at_index lst index with
    | Some target =>
        let nextParts :=
          filter (λ item, MessagePart.id item ≠ partID)
            (MessageWithParts.parts target) in
        assign_at index
          {| MessageWithParts.info := MessageWithParts.info target;
             MessageWithParts.parts := nextParts |} lst
    | None => lst (* not reached: [index] comes from [findIndex] *)
    end.

Definition removeMessageFromList (lst : list MessageWithParts)
    (messageID : string) : list MessageWithParts :=
  filter (λ item, message_id item ≠ messageID) lst.

(** *** Synchronous actions: one [set] each *)

Definition selectSession (sessionID : string) (state : OpencodeStoreState)
    : OpencodeStoreState :=
  let session :=
    find (λ item, SessionInfo.id item = sessionID) (sessions state) in
  let activeMessages' := default [] (messages state !! sessionID) in
  with_activeMessages activeMessages'
    (with_activeSession session
       (with_activeSessionID (Some sessionID) state)).

Definition mergeSession (session : SessionInfo) (state : OpencodeStoreState)
    : OpencodeStoreState :=
  let sessions' := mergeSessions (sessions state) session in
  let isActive :=
    bool_decide (activeSessionID state = Some (SessionInfo.id session)) in
  with_activeSession
    (if isActive then Some session else activeSession state)
    (with_sessions sessions' state).

(** The body shared, word for word, by [removeSessionState] and by the
    [set] of [deleteSession]. *)
Definition removeSessionState (sessionID : string)
    (state : OpencodeStoreState) : OpencodeStoreState :=
  let sessions' := removeSession (sessions state) sessionID in
  let messages' := delete sessionID (messages state) in
  let nextActiveID :=
    if bool_decide (activeSessionID state = Some sessionID)
    then SessionInfo.id <$> head sessions'
    else activeSessionID state in
  {| config := config state;
     sessions := sessions';
     messages := messages';
     activeSessionID := nextActiveID;
     activeSession :=
       if_truthy nextActiveID
         (λ nid, find (λ item, SessionInfo.id item = nid) sessions') None;
     activeMessages :=
       if_truthy nextActiveID (λ nid, default [] (messages' !! nid)) [];
     isLoadingSessions := isLoadingSessions state;
     isLoadingMessages := isLoadingMessages state;
     busySessionIDs := busySessionIDs state ∖ {[sessionID]};
     lastError := lastError state |}.

(** The tail shared by every message action: store the new list of the
    session and re-read [activeMessages] when that session is active. *)
Definition put_messages (sessionID : string)
    (lst : list MessageWithParts) (state : OpencodeStoreState)
    : OpencodeStoreState :=
  let messages' := <[sessionID := lst]> (messages state) in
  let activeMessages' :=
    if bool_decide (activeSessionID state = Some sessionID)
    then lst else activeMessages state in
  with_activeMessages activeMessages' (with_messages messages' state).

Definition mergeMessage (message : MessageWithParts)
    (state : OpencodeStoreState) : OpencodeStoreState :=
  let sessionID := MessageInfo.sessionID (MessageWithParts.info message) in
  put_messages sessionID
    (mergeMessageList (default [] (messages state !! sessionID)) message)
    state.

Definition updateMessageInfo (info : MessageInfo)
    (state : OpencodeStoreState) : OpencodeStoreState :=
  let sessionID := MessageInfo.sessionID info in
  match messages state !! sessionID with
  | None => state                                   (* [return {}] *)
  | Some existing =>
      put_messages sessionID (mergeMessageInfoList existing info) state
  end.

Definition updateMessagePart `{Host} (part : MessagePart)
    (state : OpencodeStoreState) : OpencodeStoreState :=
  let sessionID := MessagePart.sessionID part in
  match messages state !! sessionID with
  | None => state                                   (* [return {}] *)
  | Some existing =>
      put_messages sessionID (mergeMessagePartList existing part) state
  end.

Definition removeMessagePart (sessionID messageID partID : string)
    (state : OpencodeStoreState) : OpencodeStoreState :=
  match messages state !! sessionID with
  | None => state
  | Some existing =>
      put_messages sessionID
        (removeMessagePartFromList existing messageID partID) state
  end.

Definition removeMessage (sessionID messageID : string)
    (state : OpencodeStoreState) : OpencodeStoreState :=
  match messages state !! sessionID with
  | None => state
  | Some existing =>
      put_messages sessionID (removeMessageFromList existing messageID) state
  end.

Definition setBusy (sessionID : string) (busy : bool)
    (state : OpencodeStoreState) : OpencodeStoreState :=
  if negb (truthy_string sessionID) then state
  else
    let next :=
      if busy then busySessionIDs state ∪ {[sessionID]}
      else busySessionIDs state ∖ {[sessionID]} in
    with_busySessionIDs next state.

Definition setLastError (message : option string)
    (state : OpencodeStoreState) : OpencodeStoreState :=
  with_lastError message state.

Definition clearError (state : OpencodeStoreState) : OpencodeStoreState :=
  with_lastError None state.

(** *** The [set] calls of the asynchronous actions *)

Definition refreshSessions_fulfilled (result : list SessionInfo)
    (state : OpencodeStoreState) : OpencodeStoreState :=
  let sorted := Array_sort by_updated_desc result in
  let nextActiveID :=
    if truthy (activeSessionID state)
       && some (λ item, Some (SessionInfo.id item) = activeSessionID state)
            sorted
    then activeSessionID state
    else SessionInfo.id <$> head sorted in
  {| config := config state;
     sessions := sorted;
     messages := messages state;
     activeSessionID := nextActiveID;
     activeSession :=
       if_truthy nextActiveID
         (λ nid, find (λ item, SessionInfo.id item = nid) sorted) None;
     activeMessages :=
       if_truthy nextActiveID
         (λ nid, default [] (messages state !! nid)) [];
     isLoadingSessions := false;
     isLoadingMessages := isLoadingMessages state;
     busySessionIDs := busySessionIDs state;
     lastError := lastError state |}.

(** [error instanceof Error ? error.message : String(error)] *)
Definition error_text (error : Thrown) : string :=
  match error with
  | ErrorObject message => message
  | _ => String_of error
  end.

Definition refreshSessions_rejected (error : Thrown)
    (state : OpencodeStoreState) : OpencodeStoreState :=
  with_lastError (Some (error_text error))
    (with_isLoadingSessions false state).

Definition loadMessages_fulfilled (sessionID : string)
    (result : list MessageWithParts) (state : OpencodeStoreState)
    : OpencodeStoreState :=
  with_isLoadingMessages false (put_messages sessionID result state).

Definition loadMessages_rejected (error : Thrown)
    (state : OpencodeStoreState) : OpencodeStoreState :=
  with_lastError (Some (error_text error))
    (with_isLoadingMessages false state).

Definition createSession_fulfilled (session : SessionInfo)
    (state : OpencodeStoreState) : OpencodeStoreState :=
  let sessions' := mergeSessions (sessions state) session in
  with_activeMessages
    (default [] (messages state !! SessionInfo.id session))
    (with_activeSession (Some session)
       (with_activeSessionID (Some (SessionInfo.id session))
          (with_sessions sessions' state))).

Definition prompt_fulfilled (sessionID : string)
    (response : MessageWithParts) (state : OpencodeStoreState)
    : OpencodeStoreState :=
  put_messages sessionID
    (mergeMessageList (default [] (messages state !! sessionID)) response)
    state.

(** [error instanceof Error ? error.message
     : typeof error === "string" ? error : "Failed to send prompt"] *)
Definition prompt_error_text (error : Thrown) : string :=
  match error with
  | ErrorObject message => message
  | ThrownString s => s
  | ThrownValue _ => "Failed to send prompt"
  end.

Definition prompt_rejected (error : Thrown) (state : OpencodeStoreState)
    : OpencodeStoreState :=
  with_lastError (Some (prompt_error_text error)) state.

(** *** Asynchronous actions *)

Abbreviation Async := (Js.Async OpencodeStoreState).

Definition refreshSessions (fetched : Settled (list SessionInfo))
    : Async unit :=
  set (with_isLoadingSessions true) ;;
  try_catch
    (result ← await fetched; set (refreshSessions_fulfilled result))
    (λ error, set (refreshSessions_rejected error)).

Definition loadMessages (sessionID : string)
    (fetched : Settled (list MessageWithParts)) : Async unit :=
  set (with_isLoadingMessages true) ;;
  try_catch
    (result ← await fetched;
     set (loadMessages_fulfilled sessionID result))
    (λ error, set (loadMessages_rejected error)).

Definition createSession (created : Settled SessionInfo)
    : Async SessionInfo :=
  session ← await created;
  set (createSession_fulfilled session) ;;
  resolve session.

Definition deleteSession (sessionID : string) (deleted : Settled unit)
    : Async unit :=
  await deleted ;;
  set (removeSessionState sessionID).

Definition prompt `{Host} (sessionID : string) (input_text : string)
    (sent : Settled MessageWithParts) : Async unit :=
  let text := trim input_text in
  if negb (truthy_string text) then resolve tt
  else
    set (setBusy sessionID true) ;;
    finally
      (try_catch
         (response ← await sent;
          set (prompt_fulfilled sessionID response))
         (λ error, set (prompt_rejected error)))
      (set (setBusy sessionID false)).

(** *** The event subscription of [OpencodeProvider] *)

(** [typeof rawMessage === "string" ? rawMessage
     : rawMessage != null ? JSON.stringify(rawMessage) : "Session error"] *)
Definition session_error_text (rawMessage : option (string + string))
    : string :=
  match rawMessage with
  | Some (inl s) => s
  | Some (inr rendered) => rendered
  | None => "Session error"
  end.

(** The callback given to [subscribeEvents].  [fetched] is the outcome of
    the session request that [server.connected] starts. *)
Definition onEvent `{Host} (event : ServerEvent)
    (fetched : Settled (list SessionInfo)) : Async unit :=
  match event with
  | ServerEvent.server_connected => refreshSessions fetched
  | ServerEvent.session_updated info => set (mergeSession info)
  | ServerEvent.session_deleted info =>
      set (removeSessionState (SessionInfo.id info))
  | ServerEvent.session_idle sessionID => set (setBusy sessionID false)
  | ServerEvent.session_error sessionID rawMessage =>
      set (if_truthy sessionID (λ sid, setBusy sid false) (λ st, st)) ;;
      set (setLastError (Some (session_error_text rawMessage)))
  | ServerEvent.message_created info parts =>
      set (mergeMessage
             {| MessageWithParts.info := info;
                MessageWithParts.parts := parts |})
  | ServerEvent.message_updated info => set (updateMessageInfo info)
  | ServerEvent.message_removed sessionID messageID =>
      set (removeMessage sessionID messageID)
  | ServerEvent.message_part_updated part => set (updateMessagePart part)
  | ServerEvent.message_part_removed sessionID messageID partID =>
      set (removeMessagePart sessionID messageID partID)
  end.

End Store.

(** ** The React-context provider ([src/state/opencode-store.tsx]) *)

Module Provider.
Import Js.

(** The [useState] cells of [OpencodeProvider].  [activeSession] and
    [activeMessages] are [useMemo] values, computed from the cells.
    [console.error] leaves no trace in the state. *)
Record ProviderState := {
  config : OpencodeConfig;
  sessions : list SessionInfo;
  activeSessionID : option string;
  messages : gmap string (list MessageWithParts);
  isLoadingSessions : bool;
  isLoadingMessages : bool;
  busySessionIDs : gset string;
}.

Definition initial (cfg : OpencodeConfig) : ProviderState :=
  {| config := cfg; sessions := []; activeSessionID := None; messages := ∅;
     isLoadingSessions := false; isLoadingMessages := false;
     busySessionIDs := ∅ |}.

Definition setSessions (f : list SessionInfo → list SessionInfo) st :=
  {| config := config st; sessions := f (sessions st);
     activeSessionID := activeSessionID st; messages := messages st;
     isLoadingSessions := isLoadingSessions st;
     isLoadingMessages := isLoadingMessages st;
     busySessionIDs := busySessionIDs st |}.
Definition setActiveSessionID (f : option string → option string) st :=
  {| config := config st; sessions := sessions st;
     activeSessionID := f (activeSessionID st); messages := messages st;
     isLoadingSessions := isLoadingSessions st;
     isLoadingMessages := isLoadingMessages st;
     busySessionIDs := busySessionIDs st |}.
Definition setMessages
    (f : gmap string (list MessageWithParts)
         → gmap string (list MessageWithParts)) st :=
  {| config := config st; sessions := sessions st;
     activeSessionID := activeSessionID st; messages := f (messages st);
     isLoadingSessions := isLoadingSessions st;
     isLoadingMessages := isLoadingMessages st;
     busySessionIDs := busySessionIDs st |}.
Definition setIsLoadingSessions (v : bool) st :=
  {| config := config st; sessions := sessions st;
     activeSessionID := activeSessionID st; messages := messages st;
     isLoadingSessions := v;
     isLoadingMessages := isLoadingMessages st;
     busySessionIDs := busySessionIDs st |}.
Definition setIsLoadingMessages (v : bool) st :=
  {| config := config st; sessions := sessions st;
     activeSessionID := activeSessionID st; messages := messages st;
     isLoadingSessions := isLoadingSessions st;
     isLoadingMessages := v;
     busySessionIDs := busySessionIDs st |}.
Definition setBusySessionIDs (f : gset string → gset string) st :=
  {| config := config st; sessions := sessions st;
     activeSessionID := activeSessionID st; messages := messages st;
     isLoadingSessions := isLoadingSessions st;
     isLoadingMessages := isLoadingMessages st;
     busySessionIDs := f (busySessionIDs st) |}.

(** *** The list functions ([list] is spelled [lst]) *)

Definition by_updated_desc (a b : SessionInfo) : Z :=
  SessionInfo.updated (SessionInfo.time b)
  - SessionInfo.updated (SessionInfo.time a).

Definition by_created_asc (a b : MessageWithParts) : Z :=
  MessageInfo.created (MessageWithParts.info a)
  - MessageInfo.created (MessageWithParts.info b).

Definition message_id (item : MessageWithParts) : string :=
  MessageInfo.id (MessageWithParts.info item).

Definition mergeOrInsert (lst : list SessionInfo) (next : SessionInfo)
    : list SessionInfo :=
  let index :=
    findIndex (λ item, SessionInfo.id item = SessionInfo.id next) lst in
  if bool_decide (0 ≤ index) then
    let copy := assign_at index next lst in
    Array_sort by_updated_desc copy
  else
    let copy := lst ++ [next] in
    Array_sort by_updated_desc copy.

Definition removeSession (lst : list SessionInfo) (id : string)
    : list SessionInfo :=
  filter (λ item, SessionInfo.id item ≠ id) lst.

Definition mergeMessage (lst : list MessageWithParts)
    (next : MessageWithParts) : list MessageWithParts :=
  let index := findIndex (λ item, message_id item = message_id next) lst in
  if bool_decide (0 ≤ index) then
    let copy :=
      assign_at index
        {| MessageWithParts.info := MessageWithParts.info next;
           MessageWithParts.parts := MessageWithParts.parts next |} lst in
    Array_sort by_created_asc copy
  else
    let copy := lst ++ [next] in
    Array_sort by_created_asc copy.

Definition mergeMessageInfo (lst : list MessageWithParts)
    (info : MessageInfo) : list MessageWithParts :=
  let index :=
    findIndex (λ item, message_id item = MessageInfo.id info) lst in
  if bool_decide (0 ≤ index) then
    match at_index lst index with
    | Some old =>
        assign_at index
          {| MessageWithParts.info := info;
             MessageWithParts.parts := MessageWithParts.parts old |} lst
    | None => lst (* not reached: [index] comes from [findIndex] *)
    end
  else lst.

Definition mergeMessagePart `{Host} (lst : list MessageWithParts)
    (part : MessagePart) : list MessageWithParts :=
  let index :=
    findIndex (λ item, message_id item = MessagePart.messageID part) lst in
  if bool_decide (index < 0) then lst
  else
    match at_index lst index with
    | Some target =>
        let partIndex :=
          findIndex (λ item, MessagePart.id item = MessagePart.id part)
            (MessageWithParts.parts target) in
        let nextParts :=
          if bool_decide (0 ≤ partIndex) then
            assign_at partIndex part (MessageWithParts.parts target)
          else
            Array_sort
              (λ a b, localeCompare (MessagePart.id a) (MessagePart.id b))
              (MessageWithParts.parts target ++ [part]) in
        assign_at index
          {| MessageWithParts.info := MessageWithParts.info target;
             MessageWithParts.parts := nextParts |} lst
    | None => lst (* not reached: [index] comes from [findIndex] *)
    end.

Definition removeMessagePart (lst : list MessageWithParts)
    (messageID partID : string) : list MessageWithParts :=
  let index := findIndex (λ item, message_id item = messageID) lst in
  if bool_decide (index < 0) then lst
  else
    match at_index lst index with
    | Some target =>
        let nextParts :=
          filter (λ item, MessagePart.id item ≠ partID)
            (MessageWithParts.parts target) in
        assign_at index
          {| MessageWithParts.info := MessageWithParts.info target;
             MessageWithParts.parts := nextParts |} lst
    | None => lst (* not reached: [index] comes from [findIndex] *)
    end.

Definition removeMessage (lst : list MessageWithParts)
    (messageID : string) : list MessageWithParts :=
  filter (λ item, message_id item ≠ messageID) lst.

(** *** The memoised views *)

Definition activeSession (st : ProviderState) : option SessionInfo :=
  find (λ session, Some (SessionInfo.id session) = activeSessionID st)
    (sessions st).

Definition activeMessages (st : ProviderState) : list MessageWithParts :=
  if negb (truthy (activeSessionID st)) then []
  else
    match activeSessionID st with
    | Some sid => default [] (messages st !! sid)
    | None => []
    end.

(** *** The callbacks *)

Abbreviation Async := (Js.Async ProviderState).

Definition refreshSessions (fetched : Settled (list SessionInfo))
    : Async unit :=
  set (setIsLoadingSessions true) ;;
  finally
    (try_catch
       (result ← await fetched;
        let sorted := Array_sort by_updated_desc result in
        set (setSessions (λ _, sorted)) ;;
        set (λ st,
               if negb (truthy (activeSessionID st))
                  && bool_decide (0 < Z.of_nat (length sorted))
               then setActiveSessionID
                      (λ _, SessionInfo.id <$> head sorted) st
               else st))
       (λ error, resolve tt))          (* [console.error] only *)
    (set (setIsLoadingSessions false)).

(** The effect that loads the messages of the active session. *)
Definition loadActiveMessages (fetched : Settled (list MessageWithParts))
    : Async unit :=
  λ st,
    match activeSessionID st with
    | Some sid =>
        if negb (truthy_string sid) then (Fulfilled tt, st)
        else
          (set (setIsLoadingMessages true) ;;
           finally
             (try_catch
                (result ← await fetched;
                 set (setMessages (λ prev, <[sid := result]> prev)))
                (λ error, resolve tt))  (* [console.error] only *)
             (set (setIsLoadingMessages false))) st
    | None => (Fulfilled tt, st)
    end.

(** After a deletion: [setActiveSessionID(prev => ...)], with [sessions]
    the list the callback closed over. *)
Definition next_active (sessions_seen : list SessionInfo) (id : string)
    (prev : option string) : option string :=
  if bool_decide (prev ≠ Some id) then prev
  else
    let remaining :=
      filter (λ session, SessionInfo.id session ≠ id) sessions_seen in
    if bool_decide (0 < Z.of_nat (length remaining))
    then SessionInfo.id <$> head remaining
    else None.

Definition handleEvent `{Host} (event : ServerEvent)
    (fetched : Settled (list SessionInfo)) : Async unit :=
  match event with
  | ServerEvent.server_connected => refreshSessions fetched
  | ServerEvent.session_updated info =>
      set (setSessions (λ prev, mergeOrInsert prev info))
  | ServerEvent.session_deleted info =>
      λ st,
        (set (setSessions (λ prev, removeSession prev (SessionInfo.id info))) ;;
         set (setMessages (λ prev, delete (SessionInfo.id info) prev)) ;;
         if bool_decide (activeSessionID st = Some (SessionInfo.id info))
         then set (setActiveSessionID
                     (next_active (sessions st) (SessionInfo.id info)))
         else resolve tt) st
  | ServerEvent.session_idle sessionID =>
      set (setBusySessionIDs (λ prev, prev ∖ {[sessionID]}))
  | ServerEvent.session_error sessionID _ =>
      set (setBusySessionIDs
             (λ prev, if_truthy sessionID (λ sid, prev ∖ {[sid]}) prev))
  | ServerEvent.message_updated info =>
      set (setMessages (λ prev,
             <[MessageInfo.sessionID info :=
                 mergeMessageInfo
                   (default [] (prev !! MessageInfo.sessionID info)) info]>
               prev))
  | ServerEvent.message_removed sessionID messageID =>
      set (setMessages (λ prev,
             <[sessionID :=
                 removeMessage (default [] (prev !! sessionID)) messageID]>
               prev))
  | ServerEvent.message_part_updated part =>
      set (setMessages (λ prev,
             <[MessagePart.sessionID part :=
                 mergeMessagePart
                   (default [] (prev !! MessagePart.sessionID part)) part]>
               prev))
  | ServerEvent.message_part_removed sessionID messageID partID =>
      set (setMessages (λ prev,
             <[sessionID :=
                 removeMessagePart (default [] (prev !! sessionID))
                   messageID partID]>
               prev))
  (** No branch of [handleEvent] tests for ["message.created"]: the
      function falls off its end. *)
  | ServerEvent.message_created _ _ => resolve tt
  end.

Definition selectSession (sessionID : string) : Async unit :=
  set (setActiveSessionID (λ _, Some sessionID)).

Definition createSessionAction (created : Settled SessionInfo)
    : Async SessionInfo :=
  result ← await created;
  set (setSessions (λ prev, mergeOrInsert prev result)) ;;
  set (setActiveSessionID (λ _, Some (SessionInfo.id result))) ;;
  resolve result.

Definition deleteSessionAction (sessionID : string)
    (deleted : Settled unit) : Async unit :=
  λ st,
    (await deleted ;;
     set (setSessions (λ prev, removeSession prev sessionID)) ;;
     set (setMessages (λ prev, delete sessionID prev)) ;;
     set (setActiveSessionID (next_active (sessions st) sessionID))) st.

Definition prompt `{Host} (sessionID : string) (input_text : string)
    (sent : Settled MessageWithParts) : Async unit :=
  if negb (truthy_string (trim input_text)) then resolve tt
  else
    set (setBusySessionIDs (λ prev, prev ∪ {[sessionID]})) ;;
    finally
      (try_catch
         (response ← await sent;
          set (setMessages (λ prev,
                 <[sessionID :=
                     mergeMessage (default [] (prev !! sessionID)) response]>
                   prev)))
         (λ error, resolve tt))        (* [console.error] only *)
      (set (setBusySessionIDs (λ prev, prev ∖ {[sessionID]}))).

End Provider.

(** ** The file store of [src/context/local.tsx] *)

Module Local.
Import Js.

Inductive View := raw | diff_unified | diff_split.

(** [LocalFile]: a [FileNode] of the SDK (its [path] is the key of the
    store) with the optional members the store adds. *)
Record LocalFile := {
  path : string;
  loaded : option bool;
  pinned : option bool;
  expanded : option bool;
  content : option string;
  scrollTop : option Z;
  view : option View;
  folded : option (list string);
  selectedChange : option Z;
  status : option string;
}.

(** The store created in [file]. *)
Record FileStore := {
  node : gmap string LocalFile;
  opened : list string;
  active : option string;
}.

(** [setStore("node", path, undefined!)]: the entry is deleted. *)
Definition resetNode (path : string) (store : FileStore) : FileStore :=
  {| node := delete path (node store);
     opened := opened store;
     active := active store |}.

Definition close (path : string) (store : FileStore) : FileStore :=
  (* [setStore("opened", (opened) => opened.filter((x) => x !== path))] *)
  let store1 :=
    {| node := node store;
       opened := filter (λ x, x ≠ path) (opened store);
       active := active store |} in
  let store2 :=
    if bool_decide (active store1 = Some path) then
      let index := findIndex (λ f, f = path) (opened store1) in
      let previous := at_index (opened store1) (Z.max 0 (index - 1)) in
      (* [setStore("active", previous)] *)
      {| node := node store1; opened := opened store1; active := previous |}
    else store1 in
  resetNode path store2.

(** [open] requests the content again when the node is unknown or its
    [loaded] flag is not set. *)
Definition must_load (path : string) (store : FileStore) : bool :=
  match node store !! path with
  | Some n => negb (bool_decide (loaded n = Some true))
  | None => true
  end.

End Local.

(** ** [readConfig] of [src/services/opencode-client.ts] *)

Module Client.
Import Js.

(** What [window.localStorage.getItem(CONFIG_STORAGE_KEY)] does. *)
Inductive Slot :=
| item (raw : option string)     (* the stored text, [null] when absent *)
| getItem_throws (e : Thrown).

Record Environment := {
  window : option Slot;               (* [None]: no [window] *)
  VITE_OPENCODE_URL : option string;  (* [import.meta.env] *)
}.

Definition DEFAULT_BASE_URL (env : Environment) : string :=
  default "http://127.0.0.1:4096" (VITE_OPENCODE_URL env).

Definition default_config (env : Environment) : OpencodeConfig :=
  {| OpencodeConfig.baseUrl := DEFAULT_BASE_URL env;
     OpencodeConfig.directory := None |}.

Definition getItem (slot : Slot) : Completion (option string) :=
  match slot with
  | item raw => Normal raw
  | getItem_throws e => Throw e
  end.

Definition string_member (parsed : Json) (key : string) : option string :=
  match member parsed key with
  | Some (JString s) => Some s
  | _ => None
  end.

(** The [try] block. *)
Definition readConfig_try `{Host} (env : Environment) (slot : Slot)
    : Completion OpencodeConfig :=
  match getItem slot with
  | Throw e => Throw e
  | Normal raw =>
      if negb (truthy raw) then Normal (default_config env)
      else
        match raw ≫= JSON_parse with
        | None => Throw (ErrorObject "SyntaxError")
        | Some parsed =>
            if bool_decide (typeof parsed ≠ "object")
               || is_null parsed
            then Throw (ErrorObject "invalid config")
            else
              Normal
                {| OpencodeConfig.baseUrl :=
                     if bool_decide
                          (typeof_member (member parsed "baseUrl") = "string")
                     then default (DEFAULT_BASE_URL env)
                            (string_member parsed "baseUrl")
                     else DEFAULT_BASE_URL env;
                   OpencodeConfig.directory :=
                     if bool_decide
                          (typeof_member (member parsed "directory")
                           = "string")
                     then string_member parsed "directory"
                     else None |}
        end
  end.

Definition readConfig `{Host} (env : Environment)
    : Completion OpencodeConfig :=
  match window env with
  | None => Normal (default_config env)
  | Some slot =>
      try_ (readConfig_try env slot)
        (λ error, Normal (default_config env))    (* [console.warn] *)
  end.

End Client.

(** ** The vocabulary of the specification *)

Definition created_of (m : MessageWithParts) : Z :=
  MessageInfo.created (MessageWithParts.info m).

Definition updated_of (s : SessionInfo) : Z :=
  SessionInfo.updated (SessionInfo.time s).

(** Ascending by [time.created]. *)
Definition ascending_by_created : list MessageWithParts → Prop :=
  StronglySorted (λ a b, created_of a ≤ created_of b).

(** Descending by [time.updated]. *)
Definition descending_by_updated : list SessionInfo → Prop :=
  StronglySorted (λ a b, updated_of b ≤ updated_of a).

(** Folding a sequence of [message.created] payloads, in their order of
    arrival, into the message list of a session. *)
Definition fold_created (events : list MessageWithParts)
    (start : list MessageWithParts) : list MessageWithParts :=
  foldl Store.mergeMessageList start events.

(** The ids of the sessions the store knows. *)
Definition known_ids (sessions : list SessionInfo) : gset string :=
  list_to_set (SessionInfo.id <$> sessions).

(** [messageID] matches no message of any cached message list. *)
Definition unknown_message (messages : gmap string (list MessageWithParts))
    (messageID : string) : Prop :=
  ∀ sid l, messages !! sid = Some l →
    Forall (λ m, Store.message_id m ≠ messageID) l.

(** The snapshot the event reducer folds into: sessions, messages by
    session and the busy set (section 2 of the specification), with the
    pointer to the active session. *)
Definition snapshot (st : Store.OpencodeStoreState) :=
  (Store.sessions st, Store.messages st, Store.busySessionIDs st,
   Store.activeSessionID st).

(** [messages[activeSessionID]], the empty list when there is no such
    entry or no active session. *)
Definition messages_of_active (st : Store.OpencodeStoreState)
    : list MessageWithParts :=
  match Store.activeSessionID st with
  | Some sid => default [] (Store.messages st !! sid)
  | None => []
  end.

(** [activeMessages] is [messages[activeSessionID]], or it is empty and
    [activeSessionID] is unset in the sense of the code
    ([!activeSessionID]: undefined or the empty string). *)
Definition view_consistent (st : Store.OpencodeStoreState) : Prop :=
  Store.activeMessages st = messages_of_active st
  ∨ (Js.truthy (Store.activeSessionID st) = false
     ∧ Store.activeMessages st = []).

(** The operations of the zustand store, each with the outcome of the
    request it awaits. *)
Inductive Operation :=
| op_selectSession (sessionID : string)
| op_refreshSessions (fetched : Js.Settled (list SessionInfo))
| op_loadMessages (sessionID : string)
    (fetched : Js.Settled (list MessageWithParts))
| op_createSession (created : Js.Settled SessionInfo)
| op_deleteSession (sessionID : string) (deleted : Js.Settled unit)
| op_prompt (sessionID text : string) (sent : Js.Settled MessageWithParts)
| op_event (event : ServerEvent) (fetched : Js.Settled (list SessionInfo)).

Definition run `{Js.Host} (op : Operation) (st : Store.OpencodeStoreState)
    : Store.OpencodeStoreState :=
  match op with
  | op_selectSession sessionID => Store.selectSession sessionID st
  | op_refreshSessions fetched =>
      Js.state_after (Store.refreshSessions fetched) st
  | op_loadMessages sessionID fetched =>
      Js.state_after (Store.loadMessages sessionID fetched) st
  | op_createSession created =>
      Js.state_after (Store.createSession created) st
  | op_deleteSession sessionID deleted =>
      Js.state_after (Store.deleteSession sessionID deleted) st
  | op_prompt sessionID text sent =>
      Js.state_after (Store.prompt sessionID text sent) st
  | op_event event fetched => Js.state_after (Store.onEvent event fetched) st
  end.

(** The state after a sequence of operations. *)
Definition run_all `{Js.Host} (ops : list Operation)
    (st : Store.OpencodeStoreState) : Store.OpencodeStoreState :=
  foldl (λ st op, run op st) st ops.

(** Every single state update ([set]) the zustand store can make.  An
    asynchronous action is a sequence of them, and other updates may come
    between two of them while the action awaits its request. *)
Inductive Update :=
| u_selectSession (sessionID : string)
| u_isLoadingSessions (flag : bool)
| u_refreshSessions_fulfilled (result : list SessionInfo)
| u_refreshSessions_rejected (error : Js.Thrown)
| u_isLoadingMessages (flag : bool)
| u_loadMessages_fulfilled (sessionID : string)
    (result : list MessageWithParts)
| u_loadMessages_rejected (error : Js.Thrown)
| u_createSession_fulfilled (session : SessionInfo)
| u_removeSessionState (sessionID : string)
| u_prompt_fulfilled (sessionID : string) (response : MessageWithParts)
| u_prompt_rejected (error : Js.Thrown)
| u_mergeSession (session : SessionInfo)
| u_mergeMessage (message : MessageWithParts)
| u_updateMessageInfo (info : MessageInfo)
| u_updateMessagePart (part : MessagePart)
| u_removeMessagePart (sessionID messageID partID : string)
| u_removeMessage (sessionID messageID : string)
| u_setBusy (sessionID : string) (busy : bool)
| u_setLastError (message : option string)
| u_clearError.

Definition update `{Js.Host} (u : Update) (st : Store.OpencodeStoreState)
    : Store.OpencodeStoreState :=
  match u with
  | u_selectSession sessionID => Store.selectSession sessionID st
  | u_isLoadingSessions flag => Store.with_isLoadingSessions flag st
  | u_refreshSessions_fulfilled result =>
      Store.refreshSessions_fulfilled result st
  | u_refreshSessions_rejected error =>
      Store.refreshSessions_rejected error st
  | u_isLoadingMessages flag => Store.with_isLoadingMessages flag st
  | u_loadMessages_fulfilled sessionID result =>
      Store.loadMessages_fulfilled sessionID result st
  | u_loadMessages_rejected error => Store.loadMessages_rejected error st
  | u_createSession_fulfilled session =>
      Store.createSession_fulfilled session st
  | u_removeSessionState sessionID => Store.removeSessionState sessionID st
  | u_prompt_fulfilled sessionID response =>
      Store.prompt_fulfilled sessionID response st
  | u_prompt_rejected error => Store.prompt_rejected error st
  | u_mergeSession session => Store.mergeSession session st
  | u_mergeMessage message => Store.mergeMessage message st
  | u_updateMessageInfo info => Store.updateMessageInfo info st
  | u_updateMessagePart part => Store.updateMessagePart part st
  | u_removeMessagePart sessionID messageID partID =>
      Store.removeMessagePart sessionID messageID partID st
  | u_removeMessage sessionID messageID =>
      Store.removeMessage sessionID messageID st
  | u_setBusy sessionID busy => Store.setBusy sessionID busy st
  | u_setLastError message => Store.setLastError message st
  | u_clearError => Store.clearError st
  end.

(** An action keeps a property of the state, however it settles. *)
Definition preserves {S A} (I : S → Prop) (m : Js.Async S A) : Prop :=
  ∀ st, I st → I (Js.state_after m st).

(** What the configuration slot stores under [key], when the slot holds the
    text of a JSON object whose member [key] is a string. *)
Definition stored_string `{Js.Host} (env : Client.Environment)
    (key : string) : option string :=
  match Client.window env with
  | Some (Client.item (Some raw)) =>
      match Js.JSON_parse raw with
      | Some (Js.JObject fields) =>
          match Js.assoc key fields with
          | Some (Js.JString s) => Some s
          | _ => None
          end
      | _ => None
      end
  | _ => None
  end.

(** ** A host to run the model on

    Byte-wise comparison for [localeCompare], blanks (space, tab, line feed,
    carriage return) stripped by [trim], and a [JSON.parse] that knows two
    texts, which is all the worked examples need. *)

Module SampleHost.
Import Js.

Definition is_blank (c : Ascii.ascii) : bool :=
  bool_decide (Ascii.nat_of_ascii c = 32%nat)
  || bool_decide (Ascii.nat_of_ascii c = 9%nat)
  || bool_decide (Ascii.nat_of_ascii c = 10%nat)
  || bool_decide (Ascii.nat_of_ascii c = 13%nat).

Fixpoint trim_start (s : string) : string :=
  match s with
  | String c rest => if is_blank c then trim_start rest else s
  | EmptyString => EmptyString
  end.

Definition trim_both (s : string) : string :=
  String.rev (trim_start (String.rev (trim_start s))).

Definition compare_bytes (a b : string) : Z :=
  match String.compare a b with
  | Lt => -1
  | Eq => 0
  | Gt => 1
  end.

Definition parse_known (s : string) : option Json :=
  if bool_decide (s = "{}") then Some (JObject [])
  else if bool_decide (s = "null") then Some JNull
  else None.

Definition host : Host :=
  {| localeCompare := compare_bytes;
     trim := trim_both;
     JSON_parse := parse_known;
     JSON_parse_empty := eq_refl |}.
End SampleHost.

(** ** Data for the worked examples *)

Module Sample.
Definition session (id : string) (updated : Z) : SessionInfo :=
  {| SessionInfo.id := id; SessionInfo.projectID := "p";
     SessionInfo.directory := "/w"; SessionInfo.parentID := None;
     SessionInfo.share := None; SessionInfo.title := id;
     SessionInfo.version := "1";
     SessionInfo.time :=
       {| SessionInfo.created := 0; SessionInfo.updated := updated;
          SessionInfo.compacting := None |};
     SessionInfo.revert := None |}.

Definition message (id sessionID : string) (created : Z)
    : MessageWithParts :=
  {| MessageWithParts.info :=
       {| MessageInfo.id := id; MessageInfo.sessionID := sessionID;
          MessageInfo.role := MessageInfo.user;
          MessageInfo.created := created; MessageInfo.completed := None;
          MessageInfo.detail := None |};
     MessageWithParts.parts := [] |}.

Definition part (id messageID sessionID : string) : MessagePart :=
  {| MessagePart.id := id; MessagePart.messageID := messageID;
     MessagePart.sessionID := sessionID;
     MessagePart.body := MessagePart.text "x" |}.

Definition file (path : string) : Local.LocalFile :=
  {| Local.path := path; Local.loaded := Some true; Local.pinned := None;
     Local.expanded := None; Local.content := Some "text";
     Local.scrollTop := Some 40; Local.view := Some Local.diff_unified;
     Local.folded := None; Local.selectedChange := None;
     Local.status := None |}.

(** Three tabs [a], [b], [c], the last one active. *)
Definition tabs : Local.FileStore :=
  {| Local.node :=
       {[ "a" := file "a"; "b" := file "b"; "c" := file "c" ]};
     Local.opened := ["a"; "b"; "c"];
     Local.active := Some "c" |}.

Definition cfg : OpencodeConfig :=
  {| OpencodeConfig.baseUrl := "http://127.0.0.1:4096";
     OpencodeConfig.directory := None |}.
End Sample.

(** ** More of [src/context/local.tsx] *)

(** *** The [layout] store *)

Module Layout.
Import Js.

(** The widths are pixel counts, integers here; [NaN] is not a width. *)
Record LayoutStore := {
  rightPane : bool;
  leftWidth : Z;
  rightWidth : Z;
}.

Definition initial : LayoutStore :=
  {| rightPane := false; leftWidth := 200; rightWidth := 320 |}.

Definition setLeftWidth (width : Z) (store : LayoutStore) : LayoutStore :=
  {| rightPane := rightPane store;
     leftWidth := Z.max 150 (Z.min 400 width);
     rightWidth := rightWidth store |}.

Definition setRightWidth (width : Z) (store : LayoutStore) : LayoutStore :=
  {| rightPane := rightPane store;
     leftWidth := leftWidth store;
     rightWidth := Z.max 200 (Z.min 500 width) |}.

Definition setRightPane (f : bool → bool) (store : LayoutStore)
    : LayoutStore :=
  {| rightPane := f (rightPane store);
     leftWidth := leftWidth store;
     rightWidth := rightWidth store |}.

Definition toggleRightPane := setRightPane negb.
Definition openRightPane := setRightPane (λ _, true).
Definition closeRightPane := setRightPane (λ _, false).

(** The three [if (typeof v?.member === ...)] lines that follow
    [JSON.parse(value)]. *)
Definition restore_members (v : Json) (store : LayoutStore) : LayoutStore :=
  let store1 :=
    match member v "rightPane" with
    | Some (JBool b) => setRightPane (λ _, b) store
    | _ => store
    end in
  let store2 :=
    match member v "leftWidth" with
    | Some (JNumber n) => setLeftWidth n store1
    | _ => store1
    end in
  match member v "rightWidth" with
  | Some (JNumber n) => setRightWidth n store2
  | _ => store2
  end.

(** Reading [localStorage.getItem("layout")] when the store is created;
    [JSON.parse] is not guarded here. *)
Definition restore `{Host} (value : option string) (store : LayoutStore)
    : Completion LayoutStore :=
  match value with
  | Some raw =>
      if truthy_string raw then
        match JSON_parse raw with
        | Some v => Normal (restore_members v store)
        | None => Throw (ErrorObject "SyntaxError")
        end
      else Normal store
  | None => Normal store
  end.

(** What the user can do to the layout. *)
Inductive Action :=
| a_setLeftWidth (width : Z)
| a_setRightWidth (width : Z)
| a_toggleRightPane
| a_openRightPane
| a_closeRightPane.

Definition act (a : Action) (store : LayoutStore) : LayoutStore :=
  match a with
  | a_setLeftWidth width => setLeftWidth width store
  | a_setRightWidth width => setRightWidth width store
  | a_toggleRightPane => toggleRightPane store
  | a_openRightPane => openRightPane store
  | a_closeRightPane => closeRightPane store
  end.

End Layout.

(** *** The [model] store: the list of recent models *)

Module Model.
Import Js.

Record ModelKey := {
  providerID : string;
  modelID : string;
}.

Global Instance ModelKey_eq_dec : EqDecision ModelKey.
Proof. solve_decision. Defined.

(** [(x) => x.providerID + x.modelID] *)
Definition key (x : ModelKey) : string := providerID x +:+ modelID x.

(** [uniqueBy] of remeda: the first element of each key is kept, in the
    order of the input. *)
Fixpoint uniqueBy_from {A} (f : A → string) (seen : list string)
    (l : list A) : list A :=
  match l with
  | [] => []
  | x :: rest =>
      if bool_decide (f x ∈ seen) then uniqueBy_from f seen rest
      else x :: uniqueBy_from f (f x :: seen) rest
  end.

Definition uniqueBy {A} (f : A → string) (l : list A) : list A :=
  uniqueBy_from f [] l.

(** [const uniq = uniqueBy([model, ...store.recent], key);
     if (uniq.length > 5) uniq.pop()] *)
Definition push_recent (model : ModelKey) (recent : list ModelKey)
    : list ModelKey :=
  let uniq := uniqueBy key (model :: recent) in
  if bool_decide (5 < Z.of_nat (length uniq)) then removelast uniq else uniq.

Record ModelStore := {
  model : gmap string ModelKey;   (* by agent name *)
  recent : list ModelKey;
}.

(** [set(model, options)]; [agent] is [agent.current().name] and [fallback]
    is what [fallback()] returns. *)
Definition set (agent : string) (fallback : ModelKey)
    (chosen : option ModelKey) (option_recent : bool) (store : ModelStore)
    : ModelStore :=
  let store1 :=
    {| model := <[agent := default fallback chosen]> (model store);
       recent := recent store |} in
  match chosen with
  | Some m =>
      if option_recent then
        {| model := model store1; recent := push_recent m (recent store1) |}
      else store1
  | None => store1
  end.

End Model.

(** *** The [agent] store *)

Module Agent.
Import Js.

Record AgentInfo := {
  name : string;
  mode : string;
  model : option Model.ModelKey;
}.

(** [sync.data.agent.filter((x) => x.mode !== "subagent")] *)
Definition list_ (agents : list AgentInfo) : list AgentInfo :=
  filter (λ x, mode x ≠ "subagent") agents.

(** The agent store with the part of the model store that [move] writes. *)
Record AgentStore := {
  current : string;
  models : gmap string Model.ModelKey;
}.

(** The index [move] goes to. *)
Definition next_index (lst : list AgentInfo) (current : string)
    (direction : Z) : Z :=
  let next := findIndex (λ x, name x = current) lst + direction in
  let next := if bool_decide (next < 0) then Z.of_nat (length lst) - 1
              else next in
  if bool_decide (Z.of_nat (length lst) ≤ next) then 0 else next.

Definition move (lst : list AgentInfo) (direction : Z) (store : AgentStore)
    : Completion AgentStore :=
  match at_index lst (next_index lst (current store) direction) with
  | None => Throw (ErrorObject "TypeError")        (* [value.name] *)
  | Some value =>
      Normal
        {| current := name value;
           models :=
             match model value with
             | Some m =>
                 <[name value :=
                     {| Model.providerID := Model.providerID m;
                        Model.modelID := Model.modelID m |}]> (models store)
             | None => models store
             end |}
  end.

End Agent.

(** *** More of the [file] store *)

Module File.
Import Js.

(** [setStore("node", path, member, value)]: the node must exist, the
    store of solid-js reads [store.node[path][member]] on the way, which
    is a [TypeError] on a missing node; nothing is written then. *)
Definition update_node (path : string)
    (f : Local.LocalFile → Local.LocalFile) : Async Local.FileStore unit :=
  λ store,
    match Local.node store !! path with
    | Some n =>
        (Fulfilled tt,
         {| Local.node := <[path := f n]> (Local.node store);
            Local.opened := Local.opened store;
            Local.active := Local.active store |})
    | None => (Rejected (ErrorObject "TypeError"), store)
    end.

Definition with_folded (v : option (list string)) (n : Local.LocalFile)
    : Local.LocalFile :=
  {| Local.path := Local.path n; Local.loaded := Local.loaded n;
     Local.pinned := Local.pinned n; Local.expanded := Local.expanded n;
     Local.content := Local.content n; Local.scrollTop := Local.scrollTop n;
     Local.view := Local.view n; Local.folded := v;
     Local.selectedChange := Local.selectedChange n;
     Local.status := Local.status n |}.

Definition with_pinned (v : option bool) (n : Local.LocalFile)
    : Local.LocalFile :=
  {| Local.path := Local.path n; Local.loaded := Local.loaded n;
     Local.pinned := v; Local.expanded := Local.expanded n;
     Local.content := Local.content n; Local.scrollTop := Local.scrollTop n;
     Local.view := Local.view n; Local.folded := Local.folded n;
     Local.selectedChange := Local.selectedChange n;
     Local.status := Local.status n |}.

Definition unfold (path key : string) : Async Local.FileStore unit :=
  update_node path
    (λ n,
       let a := default [] (Local.folded n) in
       with_folded (Some (if bool_decide (key ∈ a) then a else a ++ [key])) n).

Definition fold (path key : string) : Async Local.FileStore unit :=
  update_node path
    (λ n,
       with_folded
         (Some (filter (λ k, k ≠ key) (default [] (Local.folded n)))) n).

Definition folded (path : string) (store : Local.FileStore) : list string :=
  match Local.node store !! path with
  | Some n => default [] (Local.folded n)
  | None => []
  end.

(** Where [splice(start, ...)] starts in an array of length [len]. *)
Definition splice_start (len start : Z) : Z :=
  if bool_decide (start < 0) then Z.max (len + start) 0 else Z.min start len.

(** [opened.splice(to, 0, opened.splice(index, 1)[0])] *)
Definition splice_move (index to : Z) (opened : list string) : list string :=
  match at_index opened index with
  | Some moved =>
      let rest := delete (Z.to_nat index) opened in
      let start := Z.to_nat (splice_start (Z.of_nat (length rest)) to) in
      take start rest ++ moved :: drop start rest
  | None => opened
  end.

Definition move (path : string) (to : Z) : Async Local.FileStore unit :=
  λ store,
    let index := findIndex (λ f, f = path) (Local.opened store) in
    if bool_decide (index = -1) then (Fulfilled tt, store)
    else
      (set (λ st, {| Local.node := Local.node st;
                     Local.opened := splice_move index to (Local.opened st);
                     Local.active := Local.active st |}) ;;
       update_node path (with_pinned (Some true))) store.

(** The two updates of [open] that concern the tabs:
    [setStore("opened", ...)] and [setStore("active", relativePath)].  The
    memo [opened()] maps every open path to its node; reading [pinned] off
    a missing node throws. *)
Definition opened_nodes (store : Local.FileStore)
    : option (list Local.LocalFile) :=
  mapM (λ x, Local.node store !! x) (Local.opened store).

Definition open_tab (relativePath : string) : Async Local.FileStore unit :=
  λ store,
    if bool_decide (relativePath ∈ Local.opened store) then
      (Fulfilled tt,
       {| Local.node := Local.node store; Local.opened := Local.opened store;
          Local.active := Some relativePath |})
    else
      match opened_nodes store with
      | Some nodes =>
          (Fulfilled tt,
           {| Local.node := Local.node store;
              Local.opened :=
                (Local.path
                   <$> filter (λ x, Local.pinned x = Some true) nodes)
                ++ [relativePath];
              Local.active := Some relativePath |})
      | None => (Rejected (ErrorObject "TypeError"), store)
      end.

(** [String.prototype.startsWith] *)
Fixpoint startsWith (s searchString : string) : bool :=
  match searchString, s with
  | EmptyString, _ => true
  | String c p, String d r => bool_decide (d = c) && startsWith r p
  | String _ _, EmptyString => false
  end.

(** [changed(path)], with [changes] the paths of [sync.data.changes]. *)
Definition changed (changes : list string) (path : string)
    (store : Local.FileStore) : bool :=
  match Local.node store !! path ≫= Local.status with
  | Some _ => true
  | None =>
      bool_decide (path ∈ changes)
      || bool_decide
           (Exists
              (λ p, startsWith p
                      (if truthy_string path then path +:+ "/" else "")
                    = true)
              changes)
  end.

(** [String.prototype.replace] with a string pattern and the empty
    replacement: the first occurrence of the pattern is taken out. *)
Fixpoint remove_first (pattern s : string) : string :=
  if startsWith s pattern then
    String.substring (String.length pattern)
      (String.length s - String.length pattern) s
  else
    match s with
    | EmptyString => EmptyString
    | String c r => String c (remove_first pattern r)
    end.

(** [relative(path)], with [directory] for [sync.data.path.directory]. *)
Definition relative (directory path : string) : string :=
  remove_first (directory +:+ "/") path.

End File.

(** ** More of [src/services/opencode-client.ts] *)

Module ConfigStore.
Import Js.

(** [JSON.stringify] is a built-in of the host as well. *)
Class Serializer := {
  JSON_stringify : Json → string;
}.

(** An [OpencodeConfig] as [JSON.stringify] sees it: a member that is
    [undefined] is left out. *)
Definition config_json (cfg : OpencodeConfig) : Json :=
  JObject
    (("baseUrl", JString (OpencodeConfig.baseUrl cfg))
     :: match OpencodeConfig.directory cfg with
        | Some d => [("directory", JString d)]
        | None => []
        end).

(** The browser: whether there is a [window], and what its
    [localStorage] holds under [CONFIG_STORAGE_KEY]. *)
Record Browser := {
  has_window : bool;
  stored : option string;
  VITE_OPENCODE_URL : option string;
}.

Definition env_of (b : Browser) : Client.Environment :=
  {| Client.window :=
       if has_window b then Some (Client.item (stored b)) else None;
     Client.VITE_OPENCODE_URL := VITE_OPENCODE_URL b |}.

Definition writeConfig `{Serializer} (next : OpencodeConfig) (b : Browser)
    : Browser :=
  if negb (has_window b) then b
  else
    {| has_window := has_window b;
       stored := Some (JSON_stringify (config_json next));
       VITE_OPENCODE_URL := VITE_OPENCODE_URL b |}.

Definition current_config `{Host} (b : Browser) : OpencodeConfig :=
  match Client.readConfig (env_of b) with
  | Normal cfg => cfg
  | Throw _ => Client.default_config (env_of b)
  end.

Definition updateBaseUrl `{Host} `{Serializer} (baseUrl : string)
    (b : Browser) : Browser :=
  let current := current_config b in
  writeConfig
    {| OpencodeConfig.baseUrl := baseUrl;
       OpencodeConfig.directory := OpencodeConfig.directory current |} b.

Definition updateDirectory `{Host} `{Serializer} (directory : option string)
    (b : Browser) : Browser :=
  let current := current_config b in
  writeConfig
    {| OpencodeConfig.baseUrl := OpencodeConfig.baseUrl current;
       OpencodeConfig.directory := directory |} b.

End ConfigStore.

(** [source.onmessage] of [subscribeEvents]; the handler may write to
    some state before it throws. *)
Module Events.
Import Js.

(** Whether [!v] is [false] for a parsed value [v]. *)
Definition json_truthy (v : Json) : bool :=
  match v with
  | JNull => false
  | JBool b => b
  | JNumber n => negb (bool_decide (n = 0))
  | JString s => truthy_string s
  | JArray _ => true
  | JObject _ => true
  end.

(** [!parsed?.type] *)
Definition has_type (parsed : Json) : bool :=
  match member parsed "type" with
  | Some v => json_truthy v
  | None => false
  end.

Definition onmessage `{Host} {S} (onEvent : Json → S → Completion unit * S)
    (data : string) (st : S) : Completion unit * S :=
  match JSON_parse data with
  | None => (Normal tt, st)                       (* [console.warn] *)
  | Some parsed =>
      if negb (has_type parsed) then (Normal tt, st)
      else
        match onEvent parsed st with
        | (Throw _, st') => (Normal tt, st')      (* [console.warn] *)
        | (Normal _, st') => (Normal tt, st')
        end
  end.

End Events.

(** ** The components of the application *)

(** [updateConfig] of the zustand store, next to the browser it writes
    to, and the call of it in [SettingsDialogTrigger]. *)
Module Settings.
Import Js.

(** The [Partial<OpencodeConfig>] given to [updateConfig]: [None] is a
    key that is not there; a [directory] key can be there with the value
    [undefined]. *)
Record ConfigInput := {
  in_baseUrl : option string;
  in_directory : option (option string);
}.

(** [{ ...state.config, ...input }] *)
Definition spread (config : OpencodeConfig) (input : ConfigInput)
    : OpencodeConfig :=
  {| OpencodeConfig.baseUrl :=
       default (OpencodeConfig.baseUrl config) (in_baseUrl input);
     OpencodeConfig.directory :=
       default (OpencodeConfig.directory config) (in_directory input) |}.

Definition updateConfig `{ConfigStore.Serializer} (input : ConfigInput)
    (page : Store.OpencodeStoreState * ConfigStore.Browser)
    : Store.OpencodeStoreState * ConfigStore.Browser :=
  let nextConfig := spread (Store.config page.1) input in
  (Store.with_config nextConfig page.1,
   ConfigStore.writeConfig nextConfig page.2).

(** [{ baseUrl: baseUrl.trim() || config.baseUrl,
       directory: directory.trim() || undefined }] *)
Definition handleSave_input `{Host} (baseUrl directory : string)
    (config : OpencodeConfig) : ConfigInput :=
  {| in_baseUrl :=
       Some (if truthy_string (trim baseUrl) then trim baseUrl
             else OpencodeConfig.baseUrl config);
     in_directory :=
       Some (if truthy_string (trim directory) then Some (trim directory)
             else None) |}.

End Settings.

(** [ChatComposer]: the text box, its [sending] flag, and the store. *)
Module Composer.
Import Js.

Record ComposerState := {
  value : string;
  sending : bool;
}.

Record Page := {
  store : Store.OpencodeStoreState;
  composer : ComposerState;
}.

(** An action of the store, run on the page. *)
Definition in_store {A} (m : Store.Async A) : Async Page A :=
  λ pg,
    let '(outcome, st) := m (store pg) in
    (outcome, {| store := st; composer := composer pg |}).

Definition setValue (v : string) (pg : Page) : Page :=
  {| store := store pg;
     composer := {| value := v; sending := sending (composer pg) |} |}.

Definition setSending (b : bool) (pg : Page) : Page :=
  {| store := store pg;
     composer := {| value := value (composer pg); sending := b |} |}.

Definition handleSubmit `{Host} (sent : Settled MessageWithParts)
    : Async Page unit :=
  λ pg,
    match Store.activeSessionID (store pg) with
    | None => (Fulfilled tt, pg)
    | Some activeSessionID =>
        if negb (truthy_string activeSessionID) then (Fulfilled tt, pg)
        else
          let text := trim (value (composer pg)) in
          if negb (truthy_string text) then (Fulfilled tt, pg)
          else
            (set (setSending true) ;;
             finally
               (try_catch
                  (in_store (Store.prompt activeSessionID text sent) ;;
                   set (setValue ""))
                  (λ error, resolve tt))       (* [console.error] *)
               (set (setSending false))) pg
    end.

End Composer.

(** ** More vocabulary *)

(** Folding [event] a second time changes nothing. *)
Definition redelivery_is_noop `{Js.Host} (event : ServerEvent)
    (fetched : Js.Settled (list SessionInfo))
    (st : Store.OpencodeStoreState) : Prop :=
  Js.state_after (Store.onEvent event fetched)
    (Js.state_after (Store.onEvent event fetched) st)
  = Js.state_after (Store.onEvent event fetched) st.

(** The widths the layout allows. *)
Definition widths_in_range (store : Layout.LayoutStore) : Prop :=
  150 ≤ Layout.leftWidth store ≤ 400 ∧ 200 ≤ Layout.rightWidth store ≤ 500.

(** The layout after a series of user actions. *)
Definition layout_after (actions : list Layout.Action)
    (store : Layout.LayoutStore) : Layout.LayoutStore :=
  foldl (λ st a, Layout.act a st) store actions.

(** What holds of the tabs at any time: no path is open twice, the active
    path (if any) is one of the open ones, and every node is stored under
    its own path. *)
Definition tabs_ok (store : Local.FileStore) : Prop :=
  NoDup (Local.opened store)
  ∧ from_option (λ a, a ∈ Local.opened store) True (Local.active store)
  ∧ map_Forall (λ k n, Local.path n = k) (Local.node store).

Global Instance tabs_ok_dec (store : Local.FileStore) :
  Decision (tabs_ok store).
Proof. unfold tabs_ok. destruct (Local.active store); simpl; apply _. Defined.

(** The calls on the file store that touch the tabs or the folds. *)
Inductive FileAction :=
| do_close (path : string)
| do_open_tab (relativePath : string)
| do_move (path : string) (to : Z)
| do_unfold (path key : string)
| do_fold (path key : string).

Definition file_act (a : FileAction) : Js.Async Local.FileStore unit :=
  match a with
  | do_close path => Js.set (Local.close path)
  | do_open_tab relativePath => File.open_tab relativePath
  | do_move path to => File.move path to
  | do_unfold path key => File.unfold path key
  | do_fold path key => File.fold path key
  end.

(** One call after the other; a call that throws leaves what it had
    written so far, and the next call starts from there. *)
Definition file_after (actions : list FileAction) (store : Local.FileStore)
    : Local.FileStore :=
  foldl (λ st a, Js.state_after (file_act a) st) store actions.

(** Whether the node of a tab is pinned. *)
Definition pinned_tab (store : Local.FileStore) (x : string) : Prop :=
  Local.node store !! x ≫= Local.pinned = Some true.

Global Instance pinned_tab_dec (store : Local.FileStore) (x : string) :
  Decision (pinned_tab store x).
Proof. unfold pinned_tab. apply _. Defined.

(** More data for the worked examples. *)
Module SampleLocal.
Definition agent (name : string) : Agent.AgentInfo :=
  {| Agent.name := name; Agent.mode := "primary"; Agent.model := None |}.

Definition agents : list Agent.AgentInfo :=
  [agent "build"; agent "plan"; agent "review"].

(** The agent store on the last agent of the list. *)
Definition on_review : Agent.AgentStore :=
  {| Agent.current := "review"; Agent.models := ∅ |}.
End SampleLocal.

(** A configuration survives [JSON.stringify] followed by [JSON.parse]. *)
Definition round_trips `{Js.Host} `{ConfigStore.Serializer}
    (cfg : OpencodeConfig) : Prop :=
  Js.JSON_parse (ConfigStore.JSON_stringify (ConfigStore.config_json cfg))
  = Some (ConfigStore.config_json cfg).

(** A serializer for the worked examples (it escapes nothing), and a
    parser that reads back the texts of a few configurations. *)
Module SampleCodec.
Import Js.

Definition quote : string := String (Ascii.ascii_of_nat 34) EmptyString.

Definition show_string (s : string) : string := quote +:+ s +:+ quote.

Definition show_field (f : string * Json) : string :=
  show_string f.1 +:+ ":"
  +:+ match f.2 with
      | JString s => show_string s
      | _ => "null"
      end.

Definition show (v : Json) : string :=
  match v with
  | JObject fields => "{" +:+ String.concat "," (show_field <$> fields) +:+ "}"
  | _ => "null"
  end.

Definition serializer : ConfigStore.Serializer :=
  {| ConfigStore.JSON_stringify := show |}.

Definition config (baseUrl : string) (directory : option string)
    : OpencodeConfig :=
  {| OpencodeConfig.baseUrl := baseUrl;
     OpencodeConfig.directory := directory |}.

Definition known : list Json :=
  ConfigStore.config_json
    <$> [config "http://127.0.0.1:4096" None;
         config "http://127.0.0.1:4096" (Some "/w");
         config "http://host:1" None;
         config "http://host:1" (Some "/w")].

Definition parse (s : string) : option Json :=
  if bool_decide (s = "") then None
  else snd <$> list_find (λ v, show v = s) known.

Definition host : Host :=
  {| localeCompare := SampleHost.compare_bytes;
     trim := SampleHost.trim_both;
     JSON_parse := parse;
     JSON_parse_empty := eq_refl |}.

(** A browser with nothing stored. *)
Definition browser : ConfigStore.Browser :=
  {| ConfigStore.has_window := true;
     ConfigStore.stored := None;
     ConfigStore.VITE_OPENCODE_URL := None |}.
End SampleCodec.

(** A page for the worked examples: session [s] is active and the text
    box holds [hi]. *)
Module SamplePage.
Definition page : Composer.Page :=
  {| Composer.store :=
       Store.with_activeSessionID (Some "s") (Store.initial Sample.cfg);
     Composer.composer :=
       {| Composer.value := "hi"; Composer.sending := false |} |}.
End SamplePage.

(** * Properties *)

(** ** [findIndex] *)

Section findIndex_facts.
Import Js.
Context {A : Type} (P : A → Prop) `{∀ x, Decision (P x)}.

Lemma findIndex_found (l : list A) :
  0 ≤ findIndex P l →
  ∃ (i : nat) (x : A),
    findIndex P l = Z.of_nat i ∧ l !! i = Some x ∧ P x
    ∧ ∀ (j : nat) (y : A), l !! j = Some y → (j < i)%nat → ¬ P y.
Proof.
  unfold findIndex. destruct (list_find P l) as [[i x]|] eqn:E; [|lia].
  intros _. apply list_find_Some in E as (Hi & HP & Hmin).
  exists i, x. eauto.
Qed.

Lemma findIndex_missing (l : list A) :
  findIndex P l < 0 ↔ Forall (λ x, ¬ P x) l.
Proof.
  unfold findIndex. destruct (list_find P l) as [[i x]|] eqn:E.
  - split; [lia|]. intros HF.
    pose proof (proj2 (list_find_None P l) HF). congruence.
  - apply list_find_None in E. split; [done|lia].
Qed.

Lemma findIndex_range (l : list A) :
  findIndex P l = -1 ∨ 0 ≤ findIndex P l.
Proof. unfold findIndex. destruct (list_find P l) as [[i x]|]; lia. Qed.

Lemma findIndex_nonneg_iff (l : list A) :
  0 ≤ findIndex P l ↔ Exists P l.
Proof.
  split.
  - intros (i & x & _ & Hi & HP & _)%findIndex_found.
    apply Exists_exists. exists x. split; [|done].
    by eapply list_elem_of_lookup_2.
  - intros HE. destruct (findIndex_range l) as [Hm|]; [|done].
    assert (findIndex P l < 0) as HF%findIndex_missing by lia.
    apply Exists_exists in HE as (x & Hx & HP).
    rewrite Forall_forall in HF. by destruct (HF x Hx).
Qed.

(** The index found splits the list around the first match. *)
Lemma findIndex_split (l : list A) :
  0 ≤ findIndex P l →
  ∃ l1 x l2,
    l = l1 ++ x :: l2 ∧ findIndex P l = Z.of_nat (length l1)
    ∧ P x ∧ Forall (λ y, ¬ P y) l1.
Proof.
  intros (i & x & Hidx & Hi & HP & Hmin)%findIndex_found.
  exists (take i l), x, (drop (S i) l).
  assert (i < length l)%nat as Hlt by (by eapply lookup_lt_Some).
  split_and!.
  - by rewrite <-(take_drop_middle l i x) at 1.
  - rewrite length_take. rewrite Hidx. f_equal. lia.
  - done.
  - apply Forall_forall. intros y Hy.
    apply list_elem_of_lookup in Hy as [j Hj].
    pose proof (lookup_lt_Some _ _ _ Hj) as Hjlt.
    rewrite length_take in Hjlt.
    rewrite lookup_take_lt in Hj by lia.
    apply (Hmin j y Hj). lia.
Qed.
End findIndex_facts.

(** ** [Array.prototype.sort] *)

Section sort_facts.
Import Js.
Context {A : Type} (cmp : A → A → Z).

Local Abbreviation before := (Js.before cmp).

Lemma sort_insert_perm (x : A) (l : list A) : sort_insert cmp x l ≡ₚ x :: l.
Proof.
  induction l as [|y l IH]; simpl; [done|].
  case_bool_decide; [done|]. rewrite IH. apply Permutation_swap.
Qed.

Lemma Array_sort_perm (l : list A) : Array_sort cmp l ≡ₚ l.
Proof.
  induction l as [|x l IH]; simpl; [done|].
  rewrite sort_insert_perm. by f_equiv.
Qed.

Lemma Array_sort_length (l : list A) :
  length (Array_sort cmp l) = length l.
Proof. by rewrite Array_sort_perm. Qed.

Lemma Array_sort_elem_of (x : A) (l : list A) :
  x ∈ Array_sort cmp l ↔ x ∈ l.
Proof. by rewrite Array_sort_perm. Qed.

(** A list that is already in order is returned as it is: the sort is
    stable and moves nothing that need not move. *)
Lemma sort_insert_head (x : A) (l : list A) :
  HdRel before x l → sort_insert cmp x l = x :: l.
Proof.
  destruct 1 as [|y l Hxy]; simpl; [done|].
  unfold before in Hxy. by rewrite bool_decide_eq_true_2.
Qed.

Lemma Array_sort_sorted_id (l : list A) :
  Sorted before l → Array_sort cmp l = l.
Proof.
  induction 1 as [|x l Hl IH Hx]; simpl; [done|].
  fold (Array_sort cmp l). rewrite IH. by apply sort_insert_head.
Qed.

Section total.
Hypothesis cmp_total : ∀ a b, cmp a b ≤ 0 ∨ cmp b a ≤ 0.

Lemma sort_insert_Sorted (x : A) (l : list A) :
  Sorted before l → Sorted before (sort_insert cmp x l).
Proof.
  induction 1 as [|y l Hl IH Hy]; simpl.
  - repeat constructor.
  - case_bool_decide as Hxy.
    + constructor; [by constructor|]. by constructor.
    + constructor; [done|].
      assert (before y x) as Hyx.
      { unfold before. destruct (cmp_total x y); [done|lia]. }
      destruct Hy as [|z l Hyz]; simpl; [by constructor|].
      case_bool_decide; by constructor.
Qed.

Lemma Array_sort_Sorted (l : list A) : Sorted before (Array_sort cmp l).
Proof.
  induction l as [|x l IH]; simpl; [constructor|].
  by apply sort_insert_Sorted.
Qed.

Lemma Array_sort_idemp (l : list A) :
  Array_sort cmp (Array_sort cmp l) = Array_sort cmp l.
Proof. apply Array_sort_sorted_id, Array_sort_Sorted. Qed.

Lemma Array_sort_StronglySorted (l : list A) :
  (∀ a b c, cmp a b ≤ 0 → cmp b c ≤ 0 → cmp a c ≤ 0) →
  StronglySorted before (Array_sort cmp l).
Proof.
  intros Htrans. apply Sorted_StronglySorted, Array_sort_Sorted.
  intros a b c. apply Htrans.
Qed.
End total.
End sort_facts.

(** The two comparators of the stores are differences of keys: they are
    total and transitive. *)

Lemma StronglySorted_weaken {A} (R R' : relation A) (l : list A) :
  (∀ a b, R a b → R' a b) → StronglySorted R l → StronglySorted R' l.
Proof.
  intros HR. induction 1 as [|x l Hl IH Hx]; constructor; [done|].
  eapply Forall_impl; [done|]. intros; by apply HR.
Qed.

Lemma sort_by_created_ascending (l : list MessageWithParts) :
  ascending_by_created (Js.Array_sort Store.by_created_asc l).
Proof.
  eapply StronglySorted_weaken; last first.
  - apply (Array_sort_StronglySorted Store.by_created_asc);
      unfold Store.by_created_asc; intros; lia.
  - intros a b. unfold Js.before, Store.by_created_asc, created_of. lia.
Qed.

Lemma sort_by_updated_descending (l : list SessionInfo) :
  descending_by_updated (Js.Array_sort Store.by_updated_desc l).
Proof.
  eapply StronglySorted_weaken; last first.
  - apply (Array_sort_StronglySorted Store.by_updated_desc);
      unfold Store.by_updated_desc; intros; lia.
  - intros a b. unfold Js.before, Store.by_updated_desc, updated_of. lia.
Qed.

(** ** Merging a session into the session list *)

Lemma assign_at_middle {A} (l1 l2 : list A) (x y : A) :
  Js.assign_at (Z.of_nat (length l1)) y (l1 ++ x :: l2) = l1 ++ y :: l2.
Proof.
  unfold Js.assign_at. rewrite Nat2Z.id.
  rewrite <-(Nat.add_0_r (length l1)). by rewrite insert_app_r.
Qed.

Lemma mergeOrInsert_is_mergeSessions (l : list SessionInfo) (s : SessionInfo) :
  Provider.mergeOrInsert l s = Store.mergeSessions l s.
Proof. reflexivity. Qed.

Lemma mergeSessions_descending (l : list SessionInfo) (s : SessionInfo) :
  descending_by_updated (Store.mergeSessions l s).
Proof.
  unfold Store.mergeSessions. case_bool_decide; apply sort_by_updated_descending.
Qed.

Lemma mergeSessions_Sorted (l : list SessionInfo) (s : SessionInfo) :
  Sorted (Js.before Store.by_updated_desc) (Store.mergeSessions l s).
Proof.
  unfold Store.mergeSessions.
  case_bool_decide; apply Array_sort_Sorted;
    unfold Store.by_updated_desc; intros; lia.
Qed.

Lemma mergeSessions_elem_of (l : list SessionInfo) (s : SessionInfo) :
  s ∈ Store.mergeSessions l s.
Proof.
  unfold Store.mergeSessions. case_bool_decide as Hi.
  - apply findIndex_split in Hi as (l1 & x & l2 & -> & -> & _ & _).
    apply Array_sort_elem_of. rewrite assign_at_middle. set_solver.
  - apply Array_sort_elem_of. set_solver.
Qed.

(** When at most one entry of the list has the id of [s], the only entry
    with that id after the merge is [s] itself. *)
Lemma mergeSessions_only (l : list SessionInfo) (s y : SessionInfo) :
  NoDup (SessionInfo.id <$> l) →
  y ∈ Store.mergeSessions l s → SessionInfo.id y = SessionInfo.id s → y = s.
Proof.
  intros Hnd. unfold Store.mergeSessions. case_bool_decide as Hi.
  - apply findIndex_split in Hi as (l1 & x & l2 & -> & -> & Hx & Hl1).
    rewrite Array_sort_elem_of, assign_at_middle.
    rewrite fmap_app, fmap_cons in Hnd.
    apply NoDup_app in Hnd as (_ & Hdisj & Hnd2).
    apply NoDup_cons in Hnd2 as [Hx2 _].
    rewrite elem_of_app, elem_of_cons. intros [Hy|[->|Hy]] Hid; [|done|].
    + rewrite Forall_forall in Hl1. by destruct (Hl1 y Hy).
    + destruct Hx2. rewrite Hx, <-Hid. by apply list_elem_of_fmap_2.
  - rewrite Array_sort_elem_of, elem_of_app, list_elem_of_singleton.
    intros [Hy| ->] Hid; [|done].
    assert (Js.findIndex (λ item, SessionInfo.id item = SessionInfo.id s) l < 0)
      as HF%findIndex_missing by lia.
    rewrite Forall_forall in HF. by destruct (HF y Hy).
Qed.

(** Merging [s] into a sorted list whose only entry with the id of [s] is
    [s] changes nothing. *)
Lemma mergeSessions_fixed (l : list SessionInfo) (s : SessionInfo) :
  Sorted (Js.before Store.by_updated_desc) l →
  s ∈ l →
  (∀ y, y ∈ l → SessionInfo.id y = SessionInfo.id s → y = s) →
  Store.mergeSessions l s = l.
Proof.
  intros Hsorted Hin Honly. unfold Store.mergeSessions.
  rewrite bool_decide_eq_true_2; last first.
  { apply findIndex_nonneg_iff, Exists_exists. by exists s. }
  assert (0 ≤ Js.findIndex (λ item, SessionInfo.id item = SessionInfo.id s) l)
    as Hi.
  { apply findIndex_nonneg_iff, Exists_exists. by exists s. }
  apply findIndex_found in Hi as (i & x & -> & Hx & Hid & _).
  assert (x = s) as -> by (apply Honly; [by eapply list_elem_of_lookup_2|done]).
  unfold Js.assign_at. rewrite Nat2Z.id, list_insert_id by done.
  by apply Array_sort_sorted_id.
Qed.

Lemma mergeSessions_twice (l : list SessionInfo) (s : SessionInfo) :
  NoDup (SessionInfo.id <$> l) →
  Store.mergeSessions (Store.mergeSessions l s) s = Store.mergeSessions l s.
Proof.
  intros Hnd. apply mergeSessions_fixed.
  - apply mergeSessions_Sorted.
  - apply mergeSessions_elem_of.
  - intros y. by apply mergeSessions_only.
Qed.

(** C6, as stated, at a list that holds the same id twice: with
    [l = [a@1; a@5]] (two entries of id ["a"], updated at 1 and at 5) and
    [s = a@3], the first merge replaces the first entry and sorts, giving
    [[a@5; a@3]]; the second merge finds [a@5] first, replaces it and gives
    [[a@3; a@3]].  Folding twice differs from folding once. *)
Lemma C6_counterexample :
  Store.mergeSessions
    (Store.mergeSessions [Sample.session "a" 1; Sample.session "a" 5]
       (Sample.session "a" 3))
    (Sample.session "a" 3)
  = [Sample.session "a" 3; Sample.session "a" 3]
  ∧ Store.mergeSessions [Sample.session "a" 1; Sample.session "a" 5]
      (Sample.session "a" 3)
    = [Sample.session "a" 5; Sample.session "a" 3]
  ∧ Store.mergeSessions
      (Store.mergeSessions [Sample.session "a" 1; Sample.session "a" 5]
         (Sample.session "a" 3))
      (Sample.session "a" 3)
    ≠ Store.mergeSessions [Sample.session "a" 1; Sample.session "a" 5]
        (Sample.session "a" 3).
Proof. split_and!; [by vm_compute..|]. vm_compute. intros [=]. Qed.

(** C6 (amended): for every session list [l] whose ids are pairwise distinct
    and every session info [s], merging [s] twice gives exactly the list that
    merging it once gives, [merge (merge l s) s = merge l s]; this holds for
    [mergeSessions] of the zustand store and for [mergeOrInsert] of the
    React provider. *)
Theorem C6_merge_session_idempotent (l : list SessionInfo) (s : SessionInfo) :
  NoDup (SessionInfo.id <$> l) →
  Store.mergeSessions (Store.mergeSessions l s) s = Store.mergeSessions l s
  ∧ Provider.mergeOrInsert (Provider.mergeOrInsert l s) s
    = Provider.mergeOrInsert l s.
Proof.
  intros Hnd. split; [by apply mergeSessions_twice|].
  change (Store.mergeSessions (Store.mergeSessions l s) s
          = Store.mergeSessions l s).
  by apply mergeSessions_twice.
Qed.

Lemma C6_merge_session_idempotent_witness :
  NoDup (SessionInfo.id <$> [Sample.session "s1" 100])
  ∧ Store.mergeSessions
      (Store.mergeSessions [Sample.session "s1" 100] (Sample.session "s2" 200))
      (Sample.session "s2" 200)
    = Store.mergeSessions [Sample.session "s1" 100] (Sample.session "s2" 200).
Proof.
  assert (NoDup (SessionInfo.id <$> [Sample.session "s1" 100])) as Hnd.
  { apply NoDup_singleton. }
  split; [exact Hnd|].
  exact (proj1 (C6_merge_session_idempotent
                  [Sample.session "s1" 100] (Sample.session "s2" 200) Hnd)).
Defined.

(** The scenario of the specification: [[s1@100]] and an update for
    [s2@200] give [[s2; s1]]. *)
Example mergeSessions_scenario :
  Store.mergeSessions [Sample.session "s1" 100] (Sample.session "s2" 200)
  = [Sample.session "s2" 200; Sample.session "s1" 100].
Proof. by vm_compute. Qed.

(** The same on the store: a second [session.updated] with the same payload
    leaves the state as the first one left it. *)
Lemma mergeSession_twice (s : SessionInfo) (st : Store.OpencodeStoreState) :
  NoDup (SessionInfo.id <$> Store.sessions st) →
  Store.mergeSession s (Store.mergeSession s st) = Store.mergeSession s st.
Proof.
  intros Hnd. pose proof (mergeSessions_twice _ s Hnd) as Hidem.
  unfold Store.mergeSession. simpl. rewrite Hidem.
  unfold Store.with_activeSession, Store.with_sessions. simpl.
  by case_bool_decide.
Qed.

(** ** Merging a message into the message list of a session *)

Lemma Provider_mergeMessage_is_mergeMessageList
    (l : list MessageWithParts) (next : MessageWithParts) :
  Provider.mergeMessage l next = Store.mergeMessageList l next.
Proof. by destruct next. Qed.

Lemma mergeMessageList_ascending (l : list MessageWithParts)
    (next : MessageWithParts) :
  ascending_by_created (Store.mergeMessageList l next).
Proof.
  unfold Store.mergeMessageList.
  case_bool_decide; apply sort_by_created_ascending.
Qed.

(** The merge is an upsert: the first entry with the id of [next] is
    replaced, or, when there is none, [next] is added. *)
Lemma mergeMessageList_upsert (l : list MessageWithParts)
    (next : MessageWithParts) :
  (∃ l1 old l2,
      l = l1 ++ old :: l2
      ∧ Store.message_id old = Store.message_id next
      ∧ Forall (λ m, Store.message_id m ≠ Store.message_id next) l1
      ∧ Store.mergeMessageList l next ≡ₚ l1 ++ next :: l2)
  ∨ (Forall (λ m, Store.message_id m ≠ Store.message_id next) l
     ∧ Store.mergeMessageList l next ≡ₚ l ++ [next]).
Proof.
  unfold Store.mergeMessageList. case_bool_decide as Hi.
  - left. apply findIndex_split in Hi as (l1 & x & l2 & -> & -> & Hx & Hl1).
    exists l1, x, l2. split_and!; [done..|].
    by rewrite assign_at_middle, Array_sort_perm.
  - right. split; [|by rewrite Array_sort_perm].
    apply (findIndex_missing
             (λ item, Store.message_id item = Store.message_id next)). lia.
Qed.

Lemma mergeMessageList_elem_of (l : list MessageWithParts)
    (next : MessageWithParts) :
  next ∈ Store.mergeMessageList l next.
Proof.
  destruct (mergeMessageList_upsert l next)
    as [(l1 & old & l2 & _ & _ & _ & ->)|[_ ->]]; set_solver.
Qed.

Lemma mergeMessageList_fresh (l : list MessageWithParts)
    (next : MessageWithParts) :
  Forall (λ m, Store.message_id m ≠ Store.message_id next) l →
  Store.mergeMessageList l next ≡ₚ l ++ [next].
Proof.
  intros Hfresh.
  destruct (mergeMessageList_upsert l next)
    as [(l1 & old & l2 & -> & Hold & _ & _)|[_ ->]]; [|done].
  rewrite Forall_app, Forall_cons in Hfresh. by destruct Hfresh as (_ & [] & _).
Qed.

(** *** Folding a sequence of [message.created] events *)

Lemma fold_created_ascending (events start : list MessageWithParts) :
  ascending_by_created start ∨ events ≠ [] →
  ascending_by_created (fold_created events start).
Proof.
  revert start. induction events as [|e events IH]; intros start Hs; simpl.
  - by destruct Hs.
  - apply IH. left. apply mergeMessageList_ascending.
Qed.

Lemma fold_created_fresh (events start : list MessageWithParts) :
  NoDup (Store.message_id <$> events) →
  (∀ m e, m ∈ start → e ∈ events → Store.message_id m ≠ Store.message_id e) →
  fold_created events start ≡ₚ start ++ events.
Proof.
  revert start. induction events as [|e events IH]; intros start Hnd Hfresh.
  { simpl. by rewrite app_nil_r. }
  rewrite fmap_cons in Hnd. apply NoDup_cons in Hnd as [He Hnd].
  assert (Store.mergeMessageList start e ≡ₚ start ++ [e]) as Hstep.
  { apply mergeMessageList_fresh, Forall_forall. intros m Hm.
    apply Hfresh; [done|left]. }
  simpl. rewrite IH; [|done|].
  - rewrite Hstep. by rewrite <-app_assoc.
  - intros m e' Hm He'. rewrite Hstep in Hm.
    apply elem_of_app in Hm as [Hm| ->%list_elem_of_singleton].
    + apply Hfresh; [done|by right].
    + intros Heq. apply He. rewrite Heq. by apply list_elem_of_fmap_2.
Qed.

Lemma NoDup_fmap_eq {A B} (f : A → B) (l : list A) (x y : A) :
  NoDup (f <$> l) → x ∈ l → y ∈ l → f x = f y → x = y.
Proof.
  induction l as [|z l IH]; [by intros _ ?%elem_of_nil|].
  rewrite fmap_cons, NoDup_cons, !elem_of_cons.
  intros [Hz Hnd] [->|Hx] [->|Hy] Hf; [done| | |by apply IH].
  - destruct Hz. rewrite Hf. by apply list_elem_of_fmap_2.
  - destruct Hz. rewrite <-Hf. by apply list_elem_of_fmap_2.
Qed.

(** Two ascending arrangements of the same messages are the same list when
    no two of the messages share their [time.created]. *)
Lemma ascending_unique (l1 l2 : list MessageWithParts) :
  NoDup (created_of <$> l1) →
  ascending_by_created l1 → ascending_by_created l2 → l1 ≡ₚ l2 → l1 = l2.
Proof.
  intros Hnd H1 H2 Hperm.
  eapply StronglySorted_unique_strong; [|exact H1|exact H2|exact Hperm].
  intros x1 x2 Hx1 Hx2 Hle1 Hle2. rewrite <-Hperm in Hx2.
  apply (NoDup_fmap_eq created_of l1); [done..|]. simpl in *. lia.
Qed.

Lemma fold_created_order_free (events1 events2 : list MessageWithParts) :
  events1 ≡ₚ events2 →
  NoDup (Store.message_id <$> events1) →
  NoDup (created_of <$> events1) →
  fold_created events1 [] = fold_created events2 []
  ∧ ascending_by_created (fold_created events1 [])
  ∧ fold_created events1 [] ≡ₚ events1.
Proof.
  intros Hperm Hids Hcreated.
  assert (fold_created events1 [] ≡ₚ events1) as Hp1.
  { rewrite fold_created_fresh; [done|done|]. by intros m e ?%elem_of_nil. }
  assert (fold_created events2 [] ≡ₚ events2) as Hp2.
  { rewrite fold_created_fresh; [done| |by intros m e ?%elem_of_nil].
    by rewrite <-Hperm. }
  destruct events1 as [|e events1].
  { apply Permutation_nil in Hperm as ->. split_and!; [done|constructor|done]. }
  assert (events2 ≠ []) as Hne.
  { intros ->. by apply Permutation_nil_r in Hperm. }
  split_and!; [|by apply fold_created_ascending; right|done].
  apply ascending_unique.
  - by rewrite Hp1.
  - by apply fold_created_ascending; right.
  - by apply fold_created_ascending; right.
  - by rewrite Hp1, Hp2.
Qed.

Lemma fold_Provider_mergeMessage (events start : list MessageWithParts) :
  foldl Provider.mergeMessage start events = fold_created events start.
Proof.
  revert start. induction events as [|e events IH]; intros start; [done|].
  simpl. by rewrite Provider_mergeMessage_is_mergeMessageList, IH.
Qed.

(** C5, as stated, at two events that carry the same message id: the
    [time.created] values 1 and 2 are distinct, yet the list that results is
    [[m@2]] when [m@1] arrives first and [[m@1]] when [m@2] arrives first.
    Each result is sorted; they are not the same list. *)
Lemma C5_counterexample :
  NoDup (created_of <$> [Sample.message "m" "s" 1; Sample.message "m" "s" 2])
  ∧ [Sample.message "m" "s" 1; Sample.message "m" "s" 2]
    ≡ₚ [Sample.message "m" "s" 2; Sample.message "m" "s" 1]
  ∧ fold_created [Sample.message "m" "s" 1; Sample.message "m" "s" 2] []
    = [Sample.message "m" "s" 2]
  ∧ fold_created [Sample.message "m" "s" 2; Sample.message "m" "s" 1] []
    = [Sample.message "m" "s" 1]
  ∧ fold_created [Sample.message "m" "s" 1; Sample.message "m" "s" 2] []
    ≠ fold_created [Sample.message "m" "s" 2; Sample.message "m" "s" 1] [].
Proof.
  split_and!.
  - refine (@bool_decide_unpack _ _ _). by vm_compute.
  - apply Permutation_swap.
  - by vm_compute.
  - by vm_compute.
  - vm_compute. intros [=].
Qed.

(** C5 (amended): for every sequence of [message.created] events whose
    messages have pairwise-distinct ids and pairwise-distinct [time.created]
    values, folding the events into an empty message list gives, whatever
    the order of delivery, one and the same list: the messages of the events
    sorted ascending by [time.created].  It holds for [mergeMessageList] of
    the zustand store and for [mergeMessage] of the React provider. *)
Theorem C5_created_order (events1 events2 : list MessageWithParts) :
  events1 ≡ₚ events2 →
  NoDup (Store.message_id <$> events1) →
  NoDup (created_of <$> events1) →
  fold_created events1 [] = fold_created events2 []
  ∧ ascending_by_created (fold_created events1 [])
  ∧ fold_created events1 [] ≡ₚ events1
  ∧ foldl Provider.mergeMessage [] events1
    = foldl Provider.mergeMessage [] events2.
Proof.
  intros Hperm Hids Hcreated.
  destruct (fold_created_order_free _ _ Hperm Hids Hcreated)
    as (Heq & Hsorted & Hp).
  split_and!; [done..|]. by rewrite !fold_Provider_mergeMessage.
Qed.

Lemma C5_created_order_witness :
  ([Sample.message "m1" "s" 20; Sample.message "m2" "s" 10]
   ≡ₚ [Sample.message "m2" "s" 10; Sample.message "m1" "s" 20])
  ∧ NoDup (Store.message_id
             <$> [Sample.message "m1" "s" 20; Sample.message "m2" "s" 10])
  ∧ NoDup (created_of
             <$> [Sample.message "m1" "s" 20; Sample.message "m2" "s" 10])
  ∧ fold_created [Sample.message "m1" "s" 20; Sample.message "m2" "s" 10] []
    = fold_created [Sample.message "m2" "s" 10; Sample.message "m1" "s" 20] [].
Proof.
  assert ([Sample.message "m1" "s" 20; Sample.message "m2" "s" 10]
          ≡ₚ [Sample.message "m2" "s" 10; Sample.message "m1" "s" 20]) as Hperm
    by apply Permutation_swap.
  assert (NoDup (Store.message_id
                   <$> [Sample.message "m1" "s" 20;
                        Sample.message "m2" "s" 10])) as Hids
    by (refine (@bool_decide_unpack _ _ _); vm_compute; exact I).
  assert (NoDup (created_of
                   <$> [Sample.message "m1" "s" 20;
                        Sample.message "m2" "s" 10])) as Hcreated
    by (refine (@bool_decide_unpack _ _ _); vm_compute; exact I).
  split_and!; [exact Hperm|exact Hids|exact Hcreated|].
  exact (proj1 (C5_created_order _ _ Hperm Hids Hcreated)).
Defined.

Example fold_created_out_of_order :
  fold_created [Sample.message "m1" "s" 20; Sample.message "m2" "s" 10] []
  = [Sample.message "m2" "s" 10; Sample.message "m1" "s" 20].
Proof. by vm_compute. Qed.

(** ** [message.created] *)

(** On the zustand store the event upserts the message into the list of its
    session and leaves that list sorted; the other lists are untouched. *)
Lemma Store_message_created_upserts `{Js.Host} (info : MessageInfo)
    (parts : list MessagePart) (fetched : Js.Settled (list SessionInfo))
    (st : Store.OpencodeStoreState) :
  let message :=
    {| MessageWithParts.info := info; MessageWithParts.parts := parts |} in
  let sid := MessageInfo.sessionID info in
  let old := default [] (Store.messages st !! sid) in
  let st' :=
    Js.state_after
      (Store.onEvent (ServerEvent.message_created info parts) fetched) st in
  ∃ l',
    Store.messages st' !! sid = Some l'
    ∧ ascending_by_created l'
    ∧ message ∈ l'
    ∧ ((∃ l1 replaced l2,
           old = l1 ++ replaced :: l2
           ∧ Store.message_id replaced = MessageInfo.id info
           ∧ Forall (λ m, Store.message_id m ≠ MessageInfo.id info) l1
           ∧ l' ≡ₚ l1 ++ message :: l2)
       ∨ (Forall (λ m, Store.message_id m ≠ MessageInfo.id info) old
          ∧ l' ≡ₚ old ++ [message]))
    ∧ (∀ other, other ≠ sid →
         Store.messages st' !! other = Store.messages st !! other)
    ∧ Store.sessions st' = Store.sessions st
    ∧ Store.busySessionIDs st' = Store.busySessionIDs st.
Proof.
  intros message sid old st'.
  exists (Store.mergeMessageList old message).
  split_and!.
  - subst st'. unfold Js.state_after. simpl. apply lookup_insert_eq.
  - apply mergeMessageList_ascending.
  - apply mergeMessageList_elem_of.
  - apply (mergeMessageList_upsert old message).
  - intros other Hne. subst st'. unfold Js.state_after. simpl.
    by rewrite lookup_insert_ne.
  - done.
  - done.
Qed.

(** C1: folding a [message.created] event should upsert the message into
    the list of its session and leave the list sorted.  The zustand store
    does ([Store_message_created_upserts]); [handleEvent] of the React
    provider has no branch for [message.created]: the event leaves every
    state as it is, so the message of the event is in no list afterwards.
    Here the provider is in its initial state and receives the creation of
    message [m1] of session [s1]. *)
Theorem C1_provider_drops_message_created `{Js.Host} :
  (∀ info parts fetched (st : Provider.ProviderState),
     Provider.handleEvent (ServerEvent.message_created info parts) fetched st
     = (Js.Fulfilled tt, st))
  ∧ Provider.messages
      (Js.state_after
         (Provider.handleEvent
            (ServerEvent.message_created
               (MessageWithParts.info (Sample.message "m1" "s1" 10)) [])
            (Js.Fulfilled []))
         (Provider.initial Sample.cfg))
    !! "s1" = None.
Proof. split; [done|]. by vm_compute. Qed.

(** ** [message.part.updated] for an unknown message *)

Lemma mergeMessagePartList_unknown `{Js.Host} (l : list MessageWithParts)
    (part : MessagePart) :
  Forall (λ m, Store.message_id m ≠ MessagePart.messageID part) l →
  Store.mergeMessagePartList l part = l.
Proof.
  intros Hunknown. unfold Store.mergeMessagePartList.
  rewrite bool_decide_eq_true_2; [done|].
  by apply (findIndex_missing
              (λ item, Store.message_id item = MessagePart.messageID part)).
Qed.

(** On the zustand store the event changes nothing of the snapshot: the
    session list, the messages map (same keys, same lists), the busy set and
    the active id are those of before, and so is the whole state when
    [activeMessages] was the list of the active session. *)
Lemma Store_part_of_unknown_message `{Js.Host} (part : MessagePart)
    (fetched : Js.Settled (list SessionInfo)) (st : Store.OpencodeStoreState) :
  unknown_message (Store.messages st) (MessagePart.messageID part) →
  let st' :=
    Js.state_after
      (Store.onEvent (ServerEvent.message_part_updated part) fetched) st in
  snapshot st' = snapshot st
  ∧ dom (Store.messages st') = dom (Store.messages st)
  ∧ (Store.activeMessages st = messages_of_active st → st' = st).
Proof.
  intros Hunknown st'. subst st'. unfold Js.state_after. simpl.
  unfold Store.updateMessagePart.
  destruct (Store.messages st !! MessagePart.sessionID part)
    as [existing|] eqn:Hexisting; [|done].
  rewrite mergeMessagePartList_unknown by (by eapply Hunknown).
  unfold Store.put_messages, snapshot, messages_of_active. simpl.
  rewrite insert_id by done. split_and!; [done..|].
  intros Hview. destruct st as [? ? ? act ? am ? ? ? ?]. simpl in *.
  case_bool_decide as Hact; [|done]. subst act. simpl in Hview.
  rewrite Hexisting in Hview. simpl in Hview. by subst am.
Qed.

(** In the React provider the same event stores
    [mergeMessagePart(prev[sessionID] ?? [], part)] under the session id of
    the part whether or not the session had a list: a session without one
    gets an empty list. *)
Lemma Provider_part_of_unknown_message `{Js.Host} (part : MessagePart)
    (fetched : Js.Settled (list SessionInfo)) (st : Provider.ProviderState) :
  Provider.messages st !! MessagePart.sessionID part = None →
  Provider.messages
    (Js.state_after
       (Provider.handleEvent (ServerEvent.message_part_updated part) fetched)
       st)
  = <[MessagePart.sessionID part := []]> (Provider.messages st).
Proof.
  intros Hnone. unfold Js.state_after. simpl. by rewrite Hnone.
Qed.

(** C2: a [message.part.updated] event for a message that is in no cached
    list should leave the snapshot unchanged and create no entry.  The
    zustand store does ([Store_part_of_unknown_message]); [handleEvent] of
    the React provider does not.  In its initial state no session has a
    message list, so the
    message [m1] of the part is unknown; after the event the messages map has
    the key [s1], bound to the empty list. *)
Theorem C2_provider_creates_empty_entry :
  unknown_message (Provider.messages (Provider.initial Sample.cfg)) "m1"
  ∧ Provider.messages
      (Js.state_after
         (@Provider.handleEvent SampleHost.host
            (ServerEvent.message_part_updated (Sample.part "p1" "m1" "s1"))
            (Js.Fulfilled []))
         (Provider.initial Sample.cfg))
    = {[ "s1" := [] ]}
  ∧ dom (Provider.messages
           (Js.state_after
              (@Provider.handleEvent SampleHost.host
                 (ServerEvent.message_part_updated
                    (Sample.part "p1" "m1" "s1"))
                 (Js.Fulfilled []))
              (Provider.initial Sample.cfg)))
    ≠ dom (Provider.messages (Provider.initial Sample.cfg)).
Proof.
  split_and!.
  - intros sid l Hl. simpl in Hl. by rewrite lookup_empty in Hl.
  - by vm_compute.
  - unfold Js.state_after. simpl. rewrite lookup_empty. simpl.
    rewrite dom_insert_L, dom_empty_L. set_solver.
Qed.

(** ** [session.deleted] *)

Lemma elem_of_known_ids (sid : string) (l : list SessionInfo) :
  sid ∈ known_ids l ↔ ∃ s, s ∈ l ∧ SessionInfo.id s = sid.
Proof.
  unfold known_ids. rewrite elem_of_list_to_set, list_elem_of_fmap.
  naive_solver.
Qed.

Lemma removeSession_elem_of (l : list SessionInfo) (sid : string)
    (s : SessionInfo) :
  s ∈ Store.removeSession l sid ↔ s ∈ l ∧ SessionInfo.id s ≠ sid.
Proof. unfold Store.removeSession. rewrite list_elem_of_filter. tauto. Qed.

(** On the zustand store the event removes the session, its message list
    and its busy flag, and the busy set stays within the known ids. *)
Lemma Store_session_deleted `{Js.Host} (info : SessionInfo)
    (fetched : Js.Settled (list SessionInfo)) (st : Store.OpencodeStoreState) :
  let sid := SessionInfo.id info in
  let st' :=
    Js.state_after (Store.onEvent (ServerEvent.session_deleted info) fetched)
      st in
  (∀ s, s ∈ Store.sessions st' ↔ s ∈ Store.sessions st ∧ SessionInfo.id s ≠ sid)
  ∧ (sid ∉ known_ids (Store.sessions st'))
  ∧ Store.messages st' = delete sid (Store.messages st)
  ∧ Store.messages st' !! sid = None
  ∧ Store.busySessionIDs st' = Store.busySessionIDs st ∖ {[sid]}
  ∧ (sid ∉ Store.busySessionIDs st')
  ∧ (Store.busySessionIDs st ⊆ known_ids (Store.sessions st) →
     Store.busySessionIDs st' ⊆ known_ids (Store.sessions st')).
Proof.
  intros sid st'. subst st'. unfold Js.state_after. simpl.
  split_and!.
  - intros s. apply removeSession_elem_of.
  - rewrite elem_of_known_ids. intros (s & Hs & Hid).
    apply removeSession_elem_of in Hs as [_ Hne]. done.
  - done.
  - apply lookup_delete_eq.
  - done.
  - set_solver.
  - intros Hsub x [Hx Hne]%elem_of_difference.
    apply Hsub, elem_of_known_ids in Hx as (s & Hs & <-).
    apply elem_of_known_ids. exists s. split; [|done].
    apply removeSession_elem_of. split; [done|]. set_solver.
Qed.

(** In the React provider the event touches the sessions, the messages and
    the active id only: the busy set is the one of before. *)
Lemma Provider_session_deleted_busy `{Js.Host} (info : SessionInfo)
    (fetched : Js.Settled (list SessionInfo)) (st : Provider.ProviderState) :
  Provider.busySessionIDs
    (Js.state_after
       (Provider.handleEvent (ServerEvent.session_deleted info) fetched) st)
  = Provider.busySessionIDs st.
Proof. unfold Js.state_after. simpl. by case_bool_decide. Qed.

(** C7: folding [session.deleted] should remove the session, its message
    list and its busy flag.  The zustand store does
    ([Store_session_deleted]); [handleEvent] of the React provider leaves
    the busy set alone.  With the one session [s1], busy because a prompt is
    in flight,
    the deletion of [s1] empties the session list and keeps [s1] in the busy
    set, which is then no subset of the known ids. *)
Theorem C7_provider_keeps_busy_flag :
  let st :=
    {| Provider.config := Sample.cfg;
       Provider.sessions := [Sample.session "s1" 100];
       Provider.activeSessionID := Some "s1";
       Provider.messages := ∅;
       Provider.isLoadingSessions := false;
       Provider.isLoadingMessages := false;
       Provider.busySessionIDs := {[ "s1" ]} |} in
  let st' :=
    Js.state_after
      (@Provider.handleEvent SampleHost.host
         (ServerEvent.session_deleted (Sample.session "s1" 100))
         (Js.Fulfilled []))
      st in
  Provider.busySessionIDs st ⊆ known_ids (Provider.sessions st)
  ∧ Provider.sessions st' = []
  ∧ Provider.busySessionIDs st' = {[ "s1" ]}
  ∧ ¬ Provider.busySessionIDs st' ⊆ known_ids (Provider.sessions st').
Proof.
  intros st st'. split_and!.
  - subst st. simpl. unfold known_ids. simpl. set_solver.
  - by vm_compute.
  - done.
  - assert (Provider.sessions st' = []) as -> by (by vm_compute).
    change (Provider.busySessionIDs st') with ({[ "s1" ]} : gset string).
    unfold known_ids. simpl. set_solver.
Qed.

(** ** [refreshSessions] *)

Lemma some_active_iff (active : option string) (l : list SessionInfo) :
  Js.some (λ item, Some (SessionInfo.id item) = active) l = true
  ↔ ∃ sid, active = Some sid ∧ sid ∈ known_ids l.
Proof.
  unfold Js.some. rewrite bool_decide_eq_true, Exists_exists.
  setoid_rewrite elem_of_known_ids. naive_solver.
Qed.

(** The active session, in the sense of the code: a non-empty id. *)
Lemma truthy_Some (o : option string) :
  Js.truthy o = true ↔ ∃ sid, o = Some sid ∧ sid ≠ "".
Proof.
  destruct o as [sid|]; simpl; [|naive_solver].
  unfold Js.truthy_string. rewrite bool_decide_eq_true. naive_solver.
Qed.

(** What [refreshSessions] of the zustand store does when the request
    succeeds. *)
Lemma Store_refreshSessions_fulfilled (result : list SessionInfo)
    (st : Store.OpencodeStoreState) :
  let st' :=
    Js.state_after (Store.refreshSessions (Js.Fulfilled result)) st in
  Js.outcome_of (Store.refreshSessions (Js.Fulfilled result)) st
  = Js.Fulfilled tt
  ∧ Store.sessions st' ≡ₚ result
  ∧ descending_by_updated (Store.sessions st')
  ∧ ((Js.truthy (Store.activeSessionID st) = true
      ∧ ∃ sid, Store.activeSessionID st = Some sid ∧ sid ∈ known_ids result) →
     Store.activeSessionID st' = Store.activeSessionID st)
  ∧ (¬ (Js.truthy (Store.activeSessionID st) = true
        ∧ ∃ sid, Store.activeSessionID st = Some sid ∧ sid ∈ known_ids result) →
     Store.activeSessionID st' = SessionInfo.id <$> head (Store.sessions st'))
  ∧ Store.isLoadingSessions st' = false
  ∧ Store.messages st' = Store.messages st
  ∧ Store.lastError st' = Store.lastError st.
Proof.
  intros st'. subst st'. unfold Js.state_after, Js.outcome_of. simpl.
  assert (∀ sid, sid ∈ known_ids (Js.Array_sort Store.by_updated_desc result)
                 ↔ sid ∈ known_ids result) as Hids.
  { intros sid. rewrite !elem_of_known_ids.
    by setoid_rewrite Array_sort_elem_of. }
  split_and!.
  - done.
  - apply Array_sort_perm.
  - apply sort_by_updated_descending.
  - intros [Ht (sid & Hact & Hin)]. rewrite Ht. simpl.
    rewrite (proj2 (some_active_iff _ _)); [done|].
    exists sid. by rewrite Hids.
  - intros Hnot.
    destruct (Js.truthy (Store.activeSessionID st)) eqn:Ht; simpl; [|done].
    destruct (Js.some _ _) eqn:Hsome; [|done].
    destruct Hnot. split; [done|].
    apply some_active_iff in Hsome as (sid & Hact & Hin).
    exists sid. by rewrite <-Hids.
  - done.
  - done.
  - done.
Qed.

(** ... and when it fails. *)
Lemma Store_refreshSessions_rejected (error : Js.Thrown)
    (st : Store.OpencodeStoreState) :
  let st' := Js.state_after (Store.refreshSessions (Js.Rejected error)) st in
  Js.outcome_of (Store.refreshSessions (Js.Rejected error)) st
  = Js.Fulfilled tt
  ∧ Store.lastError st' = Some (Store.error_text error)
  ∧ Store.sessions st' = Store.sessions st
  ∧ Store.activeSessionID st' = Store.activeSessionID st
  ∧ Store.activeSession st' = Store.activeSession st
  ∧ Store.activeMessages st' = Store.activeMessages st
  ∧ Store.messages st' = Store.messages st
  ∧ Store.isLoadingSessions st' = false.
Proof. by split_and!. Qed.

(** What [refreshSessions] of the React provider does. *)
Lemma Provider_refreshSessions_fulfilled (result : list SessionInfo)
    (st : Provider.ProviderState) :
  let st' :=
    Js.state_after (Provider.refreshSessions (Js.Fulfilled result)) st in
  Provider.sessions st' = Js.Array_sort Provider.by_updated_desc result
  ∧ (Js.truthy (Provider.activeSessionID st) = true →
     Provider.activeSessionID st' = Provider.activeSessionID st)
  ∧ Provider.isLoadingSessions st' = false.
Proof.
  intros st'. subst st'. unfold Js.state_after. simpl.
  destruct (Js.truthy (Provider.activeSessionID st)); simpl; [done|].
  by case_bool_decide.
Qed.

Lemma Provider_refreshSessions_rejected (error : Js.Thrown)
    (st : Provider.ProviderState) :
  Js.state_after (Provider.refreshSessions (Js.Rejected error)) st
  = Provider.setIsLoadingSessions false st.
Proof. by destruct st. Qed.

(** C8: [refreshSessions] should keep the active session when it is still
    in the fetched list and make the newest session active otherwise, and
    record the error of a failed request.  The zustand store does
    ([Store_refreshSessions_fulfilled], [Store_refreshSessions_rejected]);
    [refreshSessions] of the React provider picks the newest session only
    when no session is active.  Session [s1] is active and the
    request returns [[s2]]: [s1] is no longer present, the newest session is
    [s2], and [s1] stays active.  When the request fails the provider only
    clears the loading flag: no error is recorded in its state. *)
Theorem C8_provider_keeps_stale_active :
  let st :=
    {| Provider.config := Sample.cfg;
       Provider.sessions := [Sample.session "s1" 100];
       Provider.activeSessionID := Some "s1";
       Provider.messages := ∅;
       Provider.isLoadingSessions := false;
       Provider.isLoadingMessages := false;
       Provider.busySessionIDs := ∅ |} in
  let st' :=
    Js.state_after
      (Provider.refreshSessions (Js.Fulfilled [Sample.session "s2" 200])) st in
  ("s1" ∉ known_ids [Sample.session "s2" 200])
  ∧ Provider.sessions st' = [Sample.session "s2" 200]
  ∧ Provider.activeSessionID st' = Some "s1"
  ∧ Provider.activeSessionID st'
    ≠ SessionInfo.id <$> head (Provider.sessions st')
  ∧ Js.state_after
      (Provider.refreshSessions (Js.Rejected (Js.ErrorObject "offline"))) st
    = st.
Proof.
  intros st st'. split_and!.
  - unfold known_ids. simpl. set_solver.
  - by vm_compute.
  - by vm_compute.
  - vm_compute. intros [=].
  - done.
Qed.

(** ** Closing a tab *)

Lemma findIndex_of_removed (path : string) (l : list string) :
  Js.findIndex (λ f, f = path) (filter (λ x, x ≠ path) l) = -1.
Proof.
  destruct (findIndex_range (λ f, f = path) (filter (λ x, x ≠ path) l))
    as [|Hi]; [done|].
  apply findIndex_nonneg_iff, Exists_exists in Hi as (x & Hx & ->).
  by apply list_elem_of_filter in Hx as [? _].
Qed.

(** [close] removes the path from the tabs and forgets its node. *)
Lemma close_removes (path : string) (store : Local.FileStore) :
  Local.opened (Local.close path store)
  = filter (λ x, x ≠ path) (Local.opened store)
  ∧ (path ∉ Local.opened (Local.close path store))
  ∧ Local.node (Local.close path store) !! path = None
  ∧ Local.must_load path (Local.close path store) = true
  ∧ (Local.active store ≠ Some path →
     Local.active (Local.close path store) = Local.active store).
Proof.
  unfold Local.close. simpl.
  assert (∀ s, Local.opened
                 (if bool_decide (Local.active store = Some path) then
                    {| Local.node := Local.node store;
                       Local.opened :=
                         filter (λ x, x ≠ path) (Local.opened store);
                       Local.active := s |}
                  else
                    {| Local.node := Local.node store;
                       Local.opened :=
                         filter (λ x, x ≠ path) (Local.opened store);
                       Local.active := Local.active store |})
               = filter (λ x, x ≠ path) (Local.opened store)) as Hopened.
  { intros s. by case_bool_decide. }
  split_and!.
  - apply Hopened.
  - rewrite Hopened, list_elem_of_filter. tauto.
  - apply lookup_delete_eq.
  - unfold Local.must_load, Local.resetNode. simpl.
    by rewrite lookup_delete_eq.
  - intros Hne. by rewrite bool_decide_eq_false_2.
Qed.

(** When the closed tab was the active one, the tab that becomes active is
    the first of the remaining tabs: the index is looked up in the list from
    which the path has already been removed, so it is [-1] and
    [Math.max(0, index - 1)] is [0]. *)
Lemma close_active_first (path : string) (store : Local.FileStore) :
  Local.active store = Some path →
  Local.active (Local.close path store)
  = head (filter (λ x, x ≠ path) (Local.opened store)).
Proof.
  intros Hactive. unfold Local.close. simpl.
  rewrite bool_decide_eq_true_2 by done. simpl.
  rewrite findIndex_of_removed. simpl.
  by destruct (filter _ _).
Qed.

(** C9: closing the active tab should activate the tab immediately to its
    left.  With the tabs [[a; b; c]] and [c] active, [close "c"] leaves
    [[a; b]] and forgets the node of [c], but the tab that becomes active
    is [a], the first one, where the specification (and the [index - 1] of
    the code) wants [b], the tab to the left of [c]. *)
Theorem C9_close_activates_first_tab :
  Local.opened (Local.close "c" Sample.tabs) = ["a"; "b"]
  ∧ Local.node (Local.close "c" Sample.tabs) !! "c" = None
  ∧ Local.active (Local.close "c" Sample.tabs) = Some "a"
  ∧ Local.active (Local.close "c" Sample.tabs) ≠ Some "b".
Proof.
  split_and!.
  - by vm_compute.
  - apply (close_removes "c" Sample.tabs).
  - rewrite close_active_first by done. by vm_compute.
  - rewrite close_active_first by done. vm_compute. intros [=].
Qed.

(** ** [readConfig] *)

Lemma readConfig_try_outcome `{Js.Host} (env : Client.Environment)
    (slot : Client.Slot) :
  Client.window env = Some slot →
  (∃ e, Client.readConfig_try env slot = Js.Throw e
        ∧ stored_string env "baseUrl" = None
        ∧ stored_string env "directory" = None)
  ∨ Client.readConfig_try env slot
    = Js.Normal
        {| OpencodeConfig.baseUrl :=
             default (Client.DEFAULT_BASE_URL env)
               (stored_string env "baseUrl");
           OpencodeConfig.directory := stored_string env "directory" |}.
Proof.
  intros Hwindow. unfold Client.readConfig_try, stored_string.
  rewrite Hwindow. simpl.
  destruct slot as [[raw|]|e]; simpl; [| by right | by left; eexists].
  unfold Js.truthy_string. case_bool_decide as Hraw; simpl; last first.
  { right. subst raw. by rewrite Js.JSON_parse_empty. }
  destruct (Js.JSON_parse raw) as [parsed|]; [|by left; eexists].
  destruct parsed as [|b|n|s|items|fields]; simpl;
    try (by left; eexists); [by right|].
  right. unfold Client.string_member. simpl.
  destruct (Js.assoc "baseUrl" fields) as [[]|];
    destruct (Js.assoc "directory" fields) as [[]|]; simpl;
    repeat case_bool_decide; done.
Qed.

(** C10: whatever the environment ([window] missing or present) and whatever
    the configuration slot holds (nothing, a text that is not JSON, JSON that
    is not an object, an object with members of any type) and whatever
    [getItem] and [JSON.parse] do, [readConfig] completes normally; the
    [baseUrl] of its result is the stored [baseUrl] when the slot holds an
    object with a string there and the default base URL otherwise, and its
    [directory] is the stored string, or undefined. *)
Theorem C10_readConfig_total `{Js.Host} (env : Client.Environment) :
  ∃ cfg,
    Client.readConfig env = Js.Normal cfg
    ∧ OpencodeConfig.baseUrl cfg
      = default (Client.DEFAULT_BASE_URL env) (stored_string env "baseUrl")
    ∧ OpencodeConfig.directory cfg = stored_string env "directory".
Proof.
  unfold Client.readConfig.
  destruct (Client.window env) as [slot|] eqn:Hwindow.
  - destruct (readConfig_try_outcome env slot Hwindow)
      as [(e & -> & -> & ->)| ->]; simpl; eauto.
  - eexists. unfold stored_string. rewrite Hwindow. by split_and!.
Qed.

Example readConfig_empty_object :
  @Client.readConfig SampleHost.host
    {| Client.window := Some (Client.item (Some "{}"));
       Client.VITE_OPENCODE_URL := None |}
  = Js.Normal
      {| OpencodeConfig.baseUrl := "http://127.0.0.1:4096";
         OpencodeConfig.directory := None |}.
Proof. by vm_compute. Qed.

Example readConfig_null :
  @Client.readConfig SampleHost.host
    {| Client.window := Some (Client.item (Some "null"));
       Client.VITE_OPENCODE_URL := Some "http://host:1" |}
  = Js.Normal
      {| OpencodeConfig.baseUrl := "http://host:1";
         OpencodeConfig.directory := None |}.
Proof. by vm_compute. Qed.

(** ** The [activeMessages] view *)

Section preserves_facts.
Context {S : Type} (I : S → Prop).

Lemma preserves_resolve {A} (a : A) : preserves I (Js.resolve a).
Proof. by intros st. Qed.

Lemma preserves_await {A} (request : Js.Settled A) :
  preserves I (Js.await request).
Proof. by intros st. Qed.

Lemma preserves_set (f : S → S) :
  (∀ st, I st → I (f st)) → preserves I (Js.set f).
Proof. intros Hf st. apply Hf. Qed.

Lemma preserves_then {A B} (m : Js.Async S A) (k : A → Js.Async S B) :
  preserves I m → (∀ a, preserves I (k a)) → preserves I (m ≫= k).
Proof.
  intros Hm Hk st Hst. specialize (Hm st Hst).
  unfold Js.state_after, mbind, Js.Async_bind, Js.then_ in *.
  destruct (m st) as [[a|e] st']; simpl in *; [|done].
  by apply Hk.
Qed.

Lemma preserves_try_catch {A} (body : Js.Async S A)
    (handler : Js.Thrown → Js.Async S A) :
  preserves I body → (∀ e, preserves I (handler e)) →
  preserves I (Js.try_catch body handler).
Proof.
  intros Hbody Hhandler st Hst. specialize (Hbody st Hst).
  unfold Js.state_after, Js.try_catch in *.
  destruct (body st) as [[a|e] st']; simpl in *; [done|].
  by apply Hhandler.
Qed.

Lemma preserves_finally {A} (body : Js.Async S A)
    (cleanup : Js.Async S unit) :
  preserves I body → preserves I cleanup →
  preserves I (Js.finally body cleanup).
Proof.
  intros Hbody Hcleanup st Hst. specialize (Hbody st Hst).
  unfold Js.state_after, Js.finally in *.
  destruct (body st) as [outcome st']; simpl in *.
  specialize (Hcleanup st' Hbody). unfold Js.state_after in Hcleanup.
  by destruct (cleanup st') as [[[]|e] st''].
Qed.
End preserves_facts.

(** The view depends on three members of the state only. *)
Lemma view_consistent_frame (st st' : Store.OpencodeStoreState) :
  Store.activeSessionID st' = Store.activeSessionID st →
  Store.messages st' = Store.messages st →
  Store.activeMessages st' = Store.activeMessages st →
  view_consistent st → view_consistent st'.
Proof.
  unfold view_consistent, messages_of_active. by intros -> -> ->.
Qed.

(** [activeMessages: nextActiveID ? messages[nextActiveID] ?? [] : []] *)
Lemma view_consistent_if_truthy (st : Store.OpencodeStoreState) :
  Store.activeMessages st
  = Js.if_truthy (Store.activeSessionID st)
      (λ nid, default [] (Store.messages st !! nid)) [] →
  view_consistent st.
Proof.
  unfold view_consistent, messages_of_active, Js.if_truthy, Js.truthy.
  destruct (Store.activeSessionID st) as [nid|]; [|by left].
  destruct (Js.truthy_string nid); [by left|by right].
Qed.

Lemma view_consistent_initial (cfg : OpencodeConfig) :
  view_consistent (Store.initial cfg).
Proof. by left. Qed.

Lemma view_consistent_selectSession (sessionID : string)
    (st : Store.OpencodeStoreState) :
  view_consistent (Store.selectSession sessionID st).
Proof. by left. Qed.

Lemma view_consistent_put_messages (sessionID : string)
    (lst : list MessageWithParts) (st : Store.OpencodeStoreState) :
  view_consistent st → view_consistent (Store.put_messages sessionID lst st).
Proof.
  unfold view_consistent, messages_of_active, Store.put_messages. simpl.
  intros Hview. case_bool_decide as Hactive.
  - left. rewrite Hactive. by rewrite lookup_insert_eq.
  - destruct Hview as [Hview|Hview]; [left|by right].
    rewrite Hview. destruct (Store.activeSessionID st) as [sid|]; [|done].
    rewrite lookup_insert_ne; [done|congruence].
Qed.

Lemma view_consistent_loadMessages_fulfilled (sessionID : string)
    (result : list MessageWithParts) (st : Store.OpencodeStoreState) :
  view_consistent st →
  view_consistent (Store.loadMessages_fulfilled sessionID result st).
Proof.
  intros Hview. unfold Store.loadMessages_fulfilled.
  eapply view_consistent_frame;
    [| | |by apply (view_consistent_put_messages sessionID result st)]; done.
Qed.

Lemma view_consistent_removeSessionState (sessionID : string)
    (st : Store.OpencodeStoreState) :
  view_consistent (Store.removeSessionState sessionID st).
Proof. by apply view_consistent_if_truthy. Qed.

Lemma view_consistent_refreshSessions_fulfilled (result : list SessionInfo)
    (st : Store.OpencodeStoreState) :
  view_consistent (Store.refreshSessions_fulfilled result st).
Proof. by apply view_consistent_if_truthy. Qed.

Lemma view_consistent_createSession_fulfilled (session : SessionInfo)
    (st : Store.OpencodeStoreState) :
  view_consistent (Store.createSession_fulfilled session st).
Proof. by left. Qed.

Lemma view_consistent_setBusy (sessionID : string) (busy : bool)
    (st : Store.OpencodeStoreState) :
  view_consistent st → view_consistent (Store.setBusy sessionID busy st).
Proof.
  unfold Store.setBusy. destruct (negb _); [done|].
  by apply view_consistent_frame.
Qed.

Lemma view_consistent_message_actions `{Js.Host}
    (st : Store.OpencodeStoreState) :
  view_consistent st →
  (∀ message, view_consistent (Store.mergeMessage message st))
  ∧ (∀ info, view_consistent (Store.updateMessageInfo info st))
  ∧ (∀ part, view_consistent (Store.updateMessagePart part st))
  ∧ (∀ sid mid pid, view_consistent (Store.removeMessagePart sid mid pid st))
  ∧ (∀ sid mid, view_consistent (Store.removeMessage sid mid st)).
Proof.
  intros Hview. split_and!; intros;
    unfold Store.mergeMessage, Store.updateMessageInfo,
      Store.updateMessagePart, Store.removeMessagePart, Store.removeMessage;
    try destruct (Store.messages st !! _); try done;
    by apply view_consistent_put_messages.
Qed.

Ltac preserve :=
  repeat first
    [ apply preserves_then; [|intros ?]
    | apply preserves_try_catch; [|intros ?]
    | apply preserves_finally
    | apply preserves_await
    | apply preserves_resolve
    | apply preserves_set; intros ? ? ].

Lemma preserves_refreshSessions fetched :
  preserves view_consistent (Store.refreshSessions fetched).
Proof.
  unfold Store.refreshSessions. preserve.
  - by apply view_consistent_frame with (st := st).
  - apply view_consistent_refreshSessions_fulfilled.
  - by apply view_consistent_frame with (st := st).
Qed.

Lemma preserves_loadMessages sessionID fetched :
  preserves view_consistent (Store.loadMessages sessionID fetched).
Proof.
  unfold Store.loadMessages. preserve.
  - by apply view_consistent_frame with (st := st).
  - by apply view_consistent_loadMessages_fulfilled.
  - by apply view_consistent_frame with (st := st).
Qed.

Lemma preserves_createSession created :
  preserves view_consistent (Store.createSession created).
Proof.
  unfold Store.createSession. preserve.
  apply view_consistent_createSession_fulfilled.
Qed.

Lemma preserves_deleteSession sessionID deleted :
  preserves view_consistent (Store.deleteSession sessionID deleted).
Proof.
  unfold Store.deleteSession. preserve.
  apply view_consistent_removeSessionState.
Qed.

Lemma preserves_prompt `{Js.Host} sessionID text sent :
  preserves view_consistent (Store.prompt sessionID text sent).
Proof.
  unfold Store.prompt. destruct (negb _); preserve.
  - by apply view_consistent_setBusy.
  - by apply view_consistent_put_messages.
  - by apply view_consistent_frame with (st := st).
  - by apply view_consistent_setBusy.
Qed.

Lemma preserves_onEvent `{Js.Host} event fetched :
  preserves view_consistent (Store.onEvent event fetched).
Proof.
  destruct event; simpl; try apply preserves_refreshSessions; preserve;
    try (by apply view_consistent_message_actions).
  - by apply view_consistent_frame with (st := st).
  - apply view_consistent_removeSessionState.
  - unfold Js.if_truthy. destruct sessionID as [sid|]; [|done].
    destruct (Js.truthy_string sid); [|done].
    by apply view_consistent_setBusy.
  - by apply view_consistent_frame with (st := st).
  - by apply view_consistent_setBusy.
Qed.

Lemma view_consistent_run `{Js.Host} (op : Operation)
    (st : Store.OpencodeStoreState) :
  view_consistent st → view_consistent (run op st).
Proof.
  destruct op; simpl.
  - intros _. apply view_consistent_selectSession.
  - apply preserves_refreshSessions.
  - apply preserves_loadMessages.
  - apply preserves_createSession.
  - apply preserves_deleteSession.
  - apply preserves_prompt.
  - apply preserves_onEvent.
Qed.

Lemma view_consistent_run_all `{Js.Host} (ops : list Operation)
    (st : Store.OpencodeStoreState) :
  view_consistent st → view_consistent (run_all ops st).
Proof.
  revert st. induction ops as [|op ops IH]; intros st Hst; [done|].
  simpl. by apply IH, view_consistent_run.
Qed.

(** The same holds update by update, so also when the updates of several
    actions interleave. *)
Lemma view_consistent_update `{Js.Host} (u : Update)
    (st : Store.OpencodeStoreState) :
  view_consistent st → view_consistent (update u st).
Proof.
  intros Hview. destruct u; simpl;
    try (by apply view_consistent_message_actions);
    try (by apply view_consistent_frame with (st := st)).
  - apply view_consistent_selectSession.
  - apply view_consistent_refreshSessions_fulfilled.
  - by apply view_consistent_loadMessages_fulfilled.
  - apply view_consistent_createSession_fulfilled.
  - apply view_consistent_removeSessionState.
  - by apply view_consistent_put_messages.
  - by apply view_consistent_setBusy.
Qed.

Lemma view_consistent_updates `{Js.Host} (us : list Update)
    (st : Store.OpencodeStoreState) :
  view_consistent st → view_consistent (foldl (λ st u, update u st) st us).
Proof.
  revert st. induction us as [|u us IH]; intros st Hst; [done|].
  simpl. by apply IH, view_consistent_update.
Qed.

(** The React provider computes the view from the cells each time. *)
Lemma Provider_activeMessages_derived (st : Provider.ProviderState) :
  Provider.activeMessages st
  = Js.if_truthy (Provider.activeSessionID st)
      (λ sid, default [] (Provider.messages st !! sid)) [].
Proof.
  unfold Provider.activeMessages, Js.if_truthy, Js.truthy.
  destruct (Provider.activeSessionID st) as [sid|]; [|done].
  by destruct (Js.truthy_string sid).
Qed.

(** C3: the store starts with a consistent view, every store operation
    ([selectSession], [refreshSessions], [loadMessages], [createSession],
    [deleteSession], [prompt] and the fold of any server event, however the
    request behind it settles) keeps it consistent, and so it is consistent
    after every sequence of operations: [activeMessages] is
    [messages[activeSessionID]] (the empty list when the session has no
    entry), or it is the empty list and [activeSessionID] is unset.  The
    same holds after every sequence of single state updates, that is, also
    when operations overlap while they await their requests. *)
Theorem C3_activeMessages_view `{Js.Host} :
  (∀ cfg, view_consistent (Store.initial cfg))
  ∧ (∀ op st, view_consistent st → view_consistent (run op st))
  ∧ (∀ cfg ops, view_consistent (run_all ops (Store.initial cfg)))
  ∧ (∀ cfg us,
       view_consistent (foldl (λ st u, update u st) (Store.initial cfg) us)).
Proof.
  split_and!.
  - apply view_consistent_initial.
  - intros op st. apply view_consistent_run.
  - intros cfg ops. apply view_consistent_run_all, view_consistent_initial.
  - intros cfg us. apply view_consistent_updates, view_consistent_initial.
Qed.

Lemma C3_activeMessages_view_witness :
  view_consistent (Store.initial Sample.cfg)
  ∧ view_consistent
      (@run SampleHost.host (op_selectSession "s1") (Store.initial Sample.cfg)).
Proof.
  assert (view_consistent (Store.initial Sample.cfg)) as Hinitial.
  { left. reflexivity. }
  split; [exact Hinitial|].
  exact (proj1 (proj2 (@C3_activeMessages_view SampleHost.host))
           (op_selectSession "s1") (Store.initial Sample.cfg) Hinitial).
Defined.

(** ** [prompt] *)

Lemma setBusy_busy (sessionID : string) (busy : bool)
    (st : Store.OpencodeStoreState) :
  Store.busySessionIDs (Store.setBusy sessionID busy st)
  = if Js.truthy_string sessionID then
      if busy then Store.busySessionIDs st ∪ {[sessionID]}
      else Store.busySessionIDs st ∖ {[sessionID]}
    else Store.busySessionIDs st.
Proof. unfold Store.setBusy. by destruct (Js.truthy_string sessionID). Qed.

Lemma setBusy_others (sessionID : string) (busy : bool)
    (st : Store.OpencodeStoreState) :
  Store.sessions (Store.setBusy sessionID busy st) = Store.sessions st
  ∧ Store.messages (Store.setBusy sessionID busy st) = Store.messages st
  ∧ Store.activeSessionID (Store.setBusy sessionID busy st)
    = Store.activeSessionID st
  ∧ Store.activeMessages (Store.setBusy sessionID busy st)
    = Store.activeMessages st
  ∧ Store.lastError (Store.setBusy sessionID busy st) = Store.lastError st.
Proof. unfold Store.setBusy. by destruct (negb _). Qed.

(** What [prompt] of the zustand store does with a non-blank text, however
    the request settles. *)
Lemma Store_prompt_settles `{Js.Host} (sessionID text : string)
    (sent : Js.Settled MessageWithParts) (st : Store.OpencodeStoreState) :
  Js.trim text ≠ "" →
  let st' := Js.state_after (Store.prompt sessionID text sent) st in
  Js.outcome_of (Store.prompt sessionID text sent) st = Js.Fulfilled tt
  ∧ Store.busySessionIDs st'
    = (if Js.truthy_string sessionID
       then Store.busySessionIDs st ∖ {[sessionID]}
       else Store.busySessionIDs st)
  ∧ (∀ error, sent = Js.Rejected error →
       Store.lastError st' = Some (Store.prompt_error_text error)
       ∧ Store.messages st' = Store.messages st
       ∧ Store.sessions st' = Store.sessions st
       ∧ Store.activeSessionID st' = Store.activeSessionID st
       ∧ Store.activeMessages st' = Store.activeMessages st).
Proof.
  intros Htext st'. subst st'.
  unfold Store.prompt.
  assert (Js.truthy_string (Js.trim text) = true) as ->
    by (by apply bool_decide_eq_true_2).
  simpl. unfold Js.state_after, Js.outcome_of.
  destruct sent as [response|error]; simpl.
  - split_and!; [done| |done].
    rewrite setBusy_busy. simpl. unfold Store.put_messages. simpl.
    rewrite setBusy_busy.
    destruct (Js.truthy_string sessionID); [set_solver|done].
  - split_and!; [done| |].
    + rewrite setBusy_busy. simpl. rewrite setBusy_busy.
      destruct (Js.truthy_string sessionID); [set_solver|done].
    + intros ? [= <-].
      destruct (setBusy_others sessionID false
                  (Store.prompt_rejected error
                     (Store.setBusy sessionID true st)))
        as (-> & -> & -> & -> & ->).
      simpl.
      by destruct (setBusy_others sessionID true st)
        as (-> & -> & -> & -> & _).
Qed.

(** [prompt] of the React provider: the rejection is caught, the busy flag
    is cleared, and nothing else of the state changes. *)
Lemma Provider_prompt_rejected `{Js.Host} (sessionID text : string)
    (error : Js.Thrown) (st : Provider.ProviderState) :
  Js.trim text ≠ "" →
  Provider.prompt sessionID text (Js.Rejected error) st
  = (Js.Fulfilled tt,
     Provider.setBusySessionIDs
       (λ prev, (prev ∪ {[sessionID]}) ∖ {[sessionID]}) st).
Proof.
  intros Htext. unfold Provider.prompt.
  assert (Js.truthy_string (Js.trim text) = true) as ->
    by (by apply bool_decide_eq_true_2).
  done.
Qed.

(** C4, as stated, at a session that is busy already (an earlier prompt of
    the same session is still in flight): the failing prompt ends without
    an exception and records the message of the error, but the busy set,
    [{s1}] before the call, is empty after it. *)
Lemma C4_counterexample :
  let st :=
    Store.with_busySessionIDs {[ "s1" ]} (Store.initial Sample.cfg) in
  let call :=
    @Store.prompt SampleHost.host "s1" "hi"
      (Js.Rejected (Js.ErrorObject "Request failed (500): down")) in
  Js.outcome_of call st = Js.Fulfilled tt
  ∧ Store.lastError (Js.state_after call st)
    = Some "Request failed (500): down"
  ∧ Store.busySessionIDs st = {[ "s1" ]}
  ∧ Store.busySessionIDs (Js.state_after call st) = ∅
  ∧ Store.busySessionIDs (Js.state_after call st) ≠ Store.busySessionIDs st.
Proof.
  intros st call.
  assert (Store.busySessionIDs (Js.state_after call st) = ∅) as Hafter.
  { subst call st. unfold Js.state_after. simpl. set_solver. }
  split_and!; [by vm_compute|by vm_compute|done|done|].
  rewrite Hafter. simpl. set_solver.
Qed.

(** C4 (amended): for every sessionID and non-blank text, if the
    send-prompt request fails then [prompt] does not propagate the error to
    its caller and the zustand store records a human-readable error string;
    the busy set after the call is the busy set before the call without
    sessionID (for a non-empty sessionID; an empty one is never marked), so
    it equals the set of before exactly when the session was not busy
    already: the sessionID added when the prompt started is removed in the
    [finally] step, whether the request succeeded or failed. *)
Theorem C4_prompt_failure `{Js.Host} (sessionID text : string)
    (error : Js.Thrown) (sent : Js.Settled MessageWithParts)
    (st : Store.OpencodeStoreState) :
  Js.trim text ≠ "" →
  Js.outcome_of (Store.prompt sessionID text (Js.Rejected error)) st
  = Js.Fulfilled tt
  ∧ Store.lastError
      (Js.state_after (Store.prompt sessionID text (Js.Rejected error)) st)
    = Some (Store.prompt_error_text error)
  ∧ Store.busySessionIDs (Js.state_after (Store.prompt sessionID text sent) st)
    = (if Js.truthy_string sessionID
       then Store.busySessionIDs st ∖ {[sessionID]}
       else Store.busySessionIDs st)
  ∧ (sessionID ∉ Store.busySessionIDs st →
     Store.busySessionIDs
       (Js.state_after (Store.prompt sessionID text sent) st)
     = Store.busySessionIDs st).
Proof.
  intros Htext.
  destruct (Store_prompt_settles sessionID text (Js.Rejected error) st Htext)
    as (Hout & _ & Hrejected).
  destruct (Hrejected error eq_refl) as (Herror & _).
  destruct (Store_prompt_settles sessionID text sent st Htext)
    as (_ & Hbusy & _).
  split_and!; [done..|].
  intros Hfree. rewrite Hbusy.
  destruct (Js.truthy_string sessionID); [set_solver|done].
Qed.

Lemma C4_prompt_failure_witness :
  @Js.trim SampleHost.host "hi" ≠ ""
  ∧ Js.outcome_of
      (@Store.prompt SampleHost.host "s1" "hi"
         (Js.Rejected (Js.ThrownString "offline")))
      (Store.initial Sample.cfg)
    = Js.Fulfilled tt.
Proof.
  assert (@Js.trim SampleHost.host "hi" ≠ "") as Htext.
  { vm_compute. discriminate. }
  split; [exact Htext|].
  exact (proj1 (@C4_prompt_failure SampleHost.host "s1" "hi"
                  (Js.ThrownString "offline")
                  (Js.Rejected (Js.ThrownString "offline"))
                  (Store.initial Sample.cfg) Htext)).
Defined.

(** ** The scenarios of the specification, run on the zustand store *)

(** Session [s1] has message [m1] with the tool part [p1], running; the
    update of [p1] to completed leaves exactly one part [p1], completed. *)
Example scenario_part_completed :
  let p1 state :=
    {| MessagePart.id := "p1"; MessagePart.messageID := "m1";
       MessagePart.sessionID := "s1";
       MessagePart.body := MessagePart.tool "call1" "bash" state |} in
  let m1 :=
    {| MessageWithParts.info := MessageWithParts.info (Sample.message "m1" "s1" 10);
       MessageWithParts.parts := [p1 (MessagePart.running "ls")] |} in
  let st := Store.put_messages "s1" [m1] (Store.initial Sample.cfg) in
  Store.messages
    (@Store.updateMessagePart SampleHost.host
       (p1 (MessagePart.completed "ls" "x" "list")) st)
  !! "s1"
  = Some [ {| MessageWithParts.info :=
                MessageWithParts.info (Sample.message "m1" "s1" 10);
              MessageWithParts.parts :=
                [p1 (MessagePart.completed "ls" "x" "list")] |} ].
Proof. by vm_compute. Qed.

(** [deleteSession("s1")] while [s1] is active and is the only session:
    no session is active afterwards and [activeMessages] is empty. *)
Example scenario_delete_only_session :
  let st :=
    Store.put_messages "s1" [Sample.message "m1" "s1" 10]
      (Store.createSession_fulfilled (Sample.session "s1" 100)
         (Store.initial Sample.cfg)) in
  Store.activeSessionID st = Some "s1"
  ∧ Store.activeMessages st = [Sample.message "m1" "s1" 10]
  ∧ Js.outcome_of (Store.deleteSession "s1" (Js.Fulfilled tt)) st
    = Js.Fulfilled tt
  ∧ Store.activeSessionID
      (Js.state_after (Store.deleteSession "s1" (Js.Fulfilled tt)) st) = None
  ∧ Store.activeMessages
      (Js.state_after (Store.deleteSession "s1" (Js.Fulfilled tt)) st) = []
  ∧ Store.sessions
      (Js.state_after (Store.deleteSession "s1" (Js.Fulfilled tt)) st) = [].
Proof. by vm_compute. Qed.

(** On the zustand store, when the id of the active session is the empty
    string, which the code takes for no session, [activeMessages] is empty
    after [refreshSessions] even if a list is cached under that id. *)
Example view_of_empty_id :
  let st :=
    Store.mergeMessage (Sample.message "m" "" 1) (Store.initial Sample.cfg) in
  let st' :=
    Js.state_after
      (Store.refreshSessions (Js.Fulfilled [Sample.session "" 1])) st in
  Store.activeSessionID st' = Some ""
  ∧ Store.activeMessages st' = []
  ∧ Store.messages st' !! "" = Some [Sample.message "m" "" 1].
Proof. by vm_compute. Qed.

(** * More of the stores *)

(** ** Re-delivery of an event to the zustand store *)

Lemma state_ext (st1 st2 : Store.OpencodeStoreState) :
  Store.config st1 = Store.config st2 →
  Store.sessions st1 = Store.sessions st2 →
  Store.messages st1 = Store.messages st2 →
  Store.activeSessionID st1 = Store.activeSessionID st2 →
  Store.activeSession st1 = Store.activeSession st2 →
  Store.activeMessages st1 = Store.activeMessages st2 →
  Store.isLoadingSessions st1 = Store.isLoadingSessions st2 →
  Store.isLoadingMessages st1 = Store.isLoadingMessages st2 →
  Store.busySessionIDs st1 = Store.busySessionIDs st2 →
  Store.lastError st1 = Store.lastError st2 →
  st1 = st2.
Proof. destruct st1, st2. simpl. by intros -> -> -> -> -> -> -> -> -> ->. Qed.

Lemma findIndex_first {A} (P : A → Prop) `{∀ x, Decision (P x)}
    (l1 l2 : list A) (x : A) :
  Forall (λ y, ¬ P y) l1 → P x →
  Js.findIndex P (l1 ++ x :: l2) = Z.of_nat (length l1).
Proof.
  intros Hl1 Hx. unfold Js.findIndex.
  assert (list_find P (l1 ++ x :: l2) = Some (length l1, x)) as ->; [|done].
  apply list_find_Some. split_and!.
  - by rewrite list_lookup_middle.
  - done.
  - intros j y Hj Hlt. rewrite lookup_app_l in Hj by done.
    rewrite Forall_forall in Hl1. apply Hl1. by eapply list_elem_of_lookup_2.
Qed.

Lemma at_index_middle {A} (l1 l2 : list A) (x : A) :
  Js.at_index (l1 ++ x :: l2) (Z.of_nat (length l1)) = Some x.
Proof.
  unfold Js.at_index. rewrite bool_decide_eq_true_2 by lia.
  by rewrite Nat2Z.id, list_lookup_middle.
Qed.

Lemma put_messages_twice (sid : string) (l1 l2 : list MessageWithParts)
    (st : Store.OpencodeStoreState) :
  Store.put_messages sid l2 (Store.put_messages sid l1 st)
  = Store.put_messages sid l2 st.
Proof.
  apply state_ext; simpl; try done.
  - by rewrite insert_insert_eq.
  - by case_bool_decide.
Qed.

Lemma put_messages_lookup (sid : string) (l : list MessageWithParts)
    (st : Store.OpencodeStoreState) :
  Store.messages (Store.put_messages sid l st) !! sid = Some l.
Proof. simpl. apply lookup_insert_eq. Qed.

(** What [mergeMessageInfoList] returns. *)
Lemma mergeMessageInfoList_cases (l : list MessageWithParts)
    (info : MessageInfo) :
  (∃ l1 old l2,
      l = l1 ++ old :: l2
      ∧ Store.message_id old = MessageInfo.id info
      ∧ Forall (λ m, Store.message_id m ≠ MessageInfo.id info) l1
      ∧ Store.mergeMessageInfoList l info
        = l1 ++ {| MessageWithParts.info := info;
                   MessageWithParts.parts := MessageWithParts.parts old |}
             :: l2)
  ∨ (Forall (λ m, Store.message_id m ≠ MessageInfo.id info) l
     ∧ Store.mergeMessageInfoList l info = l).
Proof.
  unfold Store.mergeMessageInfoList. case_bool_decide as Hi.
  - left. apply findIndex_split in Hi as (l1 & old & l2 & -> & -> & Hold & Hl1).
    exists l1, old, l2. rewrite at_index_middle. simpl.
    by rewrite assign_at_middle.
  - right. split; [|done].
    apply (findIndex_missing
             (λ item, Store.message_id item = MessageInfo.id info)). lia.
Qed.

Lemma mergeMessageInfoList_twice (l : list MessageWithParts)
    (info : MessageInfo) :
  Store.mergeMessageInfoList (Store.mergeMessageInfoList l info) info
  = Store.mergeMessageInfoList l info.
Proof.
  destruct (mergeMessageInfoList_cases l info)
    as [(l1 & old & l2 & -> & Hold & Hl1 & ->)|[Hl ->]].
  - unfold Store.mergeMessageInfoList.
    rewrite (findIndex_first _ l1 l2) by done.
    rewrite bool_decide_eq_true_2 by lia.
    rewrite at_index_middle. simpl. by rewrite assign_at_middle.
  - unfold Store.mergeMessageInfoList.
    rewrite bool_decide_eq_false_2; [done|].
    assert (Js.findIndex
              (λ item, Store.message_id item = MessageInfo.id info) l < 0);
      [|lia].
    by apply (findIndex_missing
                (λ item, Store.message_id item = MessageInfo.id info)).
Qed.

Lemma filter_twice {A} (P : A → Prop) `{∀ x, Decision (P x)} (l : list A) :
  filter P (filter P l) = filter P l.
Proof.
  induction l as [|x l IH]; [done|].
  rewrite filter_cons. case_decide as Hx; [|done].
  rewrite filter_cons, decide_True by done. by rewrite IH.
Qed.

Lemma removeMessageFromList_twice (l : list MessageWithParts)
    (messageID : string) :
  Store.removeMessageFromList (Store.removeMessageFromList l messageID)
    messageID
  = Store.removeMessageFromList l messageID.
Proof. unfold Store.removeMessageFromList. apply filter_twice. Qed.

(** What [removeMessagePartFromList] returns. *)
Lemma removeMessagePartFromList_cases (l : list MessageWithParts)
    (messageID partID : string) :
  (∃ l1 target l2,
      l = l1 ++ target :: l2
      ∧ Store.message_id target = messageID
      ∧ Forall (λ m, Store.message_id m ≠ messageID) l1
      ∧ Store.removeMessagePartFromList l messageID partID
        = l1 ++ {| MessageWithParts.info := MessageWithParts.info target;
                   MessageWithParts.parts :=
                     filter (λ item, MessagePart.id item ≠ partID)
                       (MessageWithParts.parts target) |}
             :: l2)
  ∨ (Forall (λ m, Store.message_id m ≠ messageID) l
     ∧ Store.removeMessagePartFromList l messageID partID = l).
Proof.
  unfold Store.removeMessagePartFromList. case_bool_decide as Hi.
  - right. split; [|done].
    by apply (findIndex_missing (λ item, Store.message_id item = messageID)).
  - left.
    assert (0 ≤ Js.findIndex (λ item, Store.message_id item = messageID) l)
      as Hfound by lia.
    apply findIndex_split in Hfound
      as (l1 & target & l2 & -> & -> & Htarget & Hl1).
    exists l1, target, l2. rewrite at_index_middle. simpl.
    by rewrite assign_at_middle.
Qed.

Lemma removeMessagePartFromList_twice (l : list MessageWithParts)
    (messageID partID : string) :
  Store.removeMessagePartFromList
    (Store.removeMessagePartFromList l messageID partID) messageID partID
  = Store.removeMessagePartFromList l messageID partID.
Proof.
  destruct (removeMessagePartFromList_cases l messageID partID)
    as [(l1 & target & l2 & -> & Htarget & Hl1 & ->)|[Hl ->]].
  - unfold Store.removeMessagePartFromList.
    rewrite (findIndex_first _ l1 l2) by done.
    rewrite bool_decide_eq_false_2 by lia.
    rewrite at_index_middle. simpl. rewrite assign_at_middle.
    by rewrite filter_twice.
  - unfold Store.removeMessagePartFromList.
    rewrite bool_decide_eq_true_2; [done|].
    by apply (findIndex_missing (λ item, Store.message_id item = messageID)).
Qed.

(** What [mergeMessagePartList] returns: the first message with the id
    gets the part, in the place of the first part with the same id, or,
    when there is none, added and sorted in. *)
Lemma mergeMessagePartList_cases `{Js.Host} (l : list MessageWithParts)
    (part : MessagePart) :
  (∃ l1 target l2 parts',
      l = l1 ++ target :: l2
      ∧ Store.message_id target = MessagePart.messageID part
      ∧ Forall (λ m, Store.message_id m ≠ MessagePart.messageID part) l1
      ∧ Store.mergeMessagePartList l part
        = l1 ++ {| MessageWithParts.info := MessageWithParts.info target;
                   MessageWithParts.parts := parts' |} :: l2
      ∧ ((∃ p1 old p2,
             MessageWithParts.parts target = p1 ++ old :: p2
             ∧ MessagePart.id old = MessagePart.id part
             ∧ Forall (λ q, MessagePart.id q ≠ MessagePart.id part) p1
             ∧ parts' = p1 ++ part :: p2)
         ∨ (Forall (λ q, MessagePart.id q ≠ MessagePart.id part)
              (MessageWithParts.parts target)
            ∧ parts'
              = Js.Array_sort
                  (λ a b, Js.localeCompare (MessagePart.id a) (MessagePart.id b))
                  (MessageWithParts.parts target ++ [part]))))
  ∨ (Forall (λ m, Store.message_id m ≠ MessagePart.messageID part) l
     ∧ Store.mergeMessagePartList l part = l).
Proof.
  unfold Store.mergeMessagePartList. case_bool_decide as Hi.
  - right. split; [|done].
    by apply (findIndex_missing
                (λ item, Store.message_id item = MessagePart.messageID part)).
  - left.
    assert (0 ≤ Js.findIndex
                  (λ item, Store.message_id item = MessagePart.messageID part)
                  l) as Hfound by lia.
    apply findIndex_split in Hfound
      as (l1 & target & l2 & -> & -> & Htarget & Hl1).
    rewrite at_index_middle. simpl. rewrite assign_at_middle.
    eexists l1, target, l2, _. split_and!; [done..|].
    case_bool_decide as Hp.
    + left.
      apply findIndex_split in Hp as (p1 & old & p2 & Hparts & -> & Hold & Hp1).
      exists p1, old, p2. rewrite Hparts at 2. by rewrite assign_at_middle.
    + right. split; [|done].
      apply (findIndex_missing
               (λ item, MessagePart.id item = MessagePart.id part)). lia.
Qed.

Lemma mergeMessagePartList_twice `{Js.Host} (l : list MessageWithParts)
    (part : MessagePart) :
  Store.mergeMessagePartList (Store.mergeMessagePartList l part) part
  = Store.mergeMessagePartList l part.
Proof.
  destruct (mergeMessagePartList_cases l part)
    as [(l1 & target & l2 & parts' & -> & Htarget & Hl1 & -> & Hparts)
       |[Hl ->]]; last first.
  { by apply mergeMessagePartList_unknown. }
  unfold Store.mergeMessagePartList.
  rewrite (findIndex_first _ l1 l2) by done.
  rewrite bool_decide_eq_false_2 by lia.
  rewrite at_index_middle. simpl. rewrite assign_at_middle.
  do 3 f_equal.
  set (P := λ item, MessagePart.id item = MessagePart.id part).
  destruct Hparts as [(p1 & old & p2 & _ & Hold & Hp1 & ->)|[Hfresh ->]].
  - rewrite (findIndex_first P p1 p2) by done.
    rewrite bool_decide_eq_true_2 by lia.
    by rewrite assign_at_middle.
  - set (sorted := Js.Array_sort _ _).
    assert (part ∈ sorted) as Hin.
    { apply Array_sort_elem_of. set_solver. }
    assert (∀ x, x ∈ sorted → P x → x = part) as Honly.
    { intros x Hx HPx. apply Array_sort_elem_of in Hx.
      apply elem_of_app in Hx as [Hx|Hx%list_elem_of_singleton]; [|done].
      rewrite Forall_forall in Hfresh. by destruct (Hfresh x Hx). }
    assert (0 ≤ Js.findIndex P sorted) as Hfound.
    { apply findIndex_nonneg_iff, Exists_exists. by exists part. }
    rewrite bool_decide_eq_true_2 by done.
    apply findIndex_found in Hfound as (i & x & -> & Hx & HPx & _).
    assert (x = part) as ->.
    { apply Honly; [by eapply list_elem_of_lookup_2|done]. }
    unfold Js.assign_at. by rewrite Nat2Z.id, list_insert_id.
Qed.

Lemma removeSessionState_twice (sessionID : string)
    (st : Store.OpencodeStoreState) :
  Store.removeSessionState sessionID (Store.removeSessionState sessionID st)
  = Store.removeSessionState sessionID st.
Proof.
  assert (Store.removeSession
            (Store.removeSession (Store.sessions st) sessionID) sessionID
          = Store.removeSession (Store.sessions st) sessionID) as Hsessions.
  { unfold Store.removeSession. apply filter_twice. }
  assert ((if bool_decide (Store.activeSessionID st = Some sessionID)
           then SessionInfo.id
                  <$> head (Store.removeSession (Store.sessions st) sessionID)
           else Store.activeSessionID st) ≠ Some sessionID) as Hactive.
  { case_bool_decide as Hact; [|done].
    destruct (head (Store.removeSession (Store.sessions st) sessionID))
      as [s|] eqn:Hhead; simpl; [|done].
    intros [= Hid]. apply head_Some in Hhead as [rest Hrest].
    assert (s ∈ Store.removeSession (Store.sessions st) sessionID) as Hs
      by (rewrite Hrest; left).
    by apply removeSession_elem_of in Hs as [_ ?]. }
  unfold Store.removeSessionState at 1. simpl.
  rewrite Hsessions, delete_delete_eq.
  rewrite (bool_decide_eq_false_2 _ Hactive).
  apply state_ext; simpl; try done.
  set_solver.
Qed.

Lemma message_action_twice (sid : string)
    (f : list MessageWithParts → list MessageWithParts)
    (st : Store.OpencodeStoreState) :
  (∀ l, f (f l) = f l) →
  let action st :=
    match Store.messages st !! sid with
    | None => st
    | Some existing => Store.put_messages sid (f existing) st
    end in
  action (action st) = action st.
Proof.
  intros Hf action. subst action. simpl.
  destruct (Store.messages st !! sid) as [existing|] eqn:Hsid.
  - rewrite put_messages_lookup. by rewrite Hf, put_messages_twice.
  - by rewrite Hsid.
Qed.

Lemma setBusy_twice (sid : string) (busy : bool)
    (st : Store.OpencodeStoreState) :
  Store.setBusy sid busy (Store.setBusy sid busy st) = Store.setBusy sid busy st.
Proof.
  unfold Store.setBusy. destruct (negb (Js.truthy_string sid)); [done|].
  apply state_ext; simpl; try done. destruct busy; set_solver.
Qed.

Lemma refreshSessions_fulfilled_twice (result : list SessionInfo)
    (st : Store.OpencodeStoreState) :
  Store.refreshSessions_fulfilled result
    (Store.refreshSessions_fulfilled result st)
  = Store.refreshSessions_fulfilled result st.
Proof.
  set (sorted := Js.Array_sort Store.by_updated_desc result).
  assert (Store.activeSessionID (Store.refreshSessions_fulfilled result st)
          = Store.activeSessionID
              (Store.refreshSessions_fulfilled result
                 (Store.refreshSessions_fulfilled result st))) as Hactive.
  { simpl. fold sorted.
    set (next := if Js.truthy (Store.activeSessionID st)
                    && Js.some
                         (λ item, Some (SessionInfo.id item)
                                  = Store.activeSessionID st) sorted
                 then Store.activeSessionID st
                 else SessionInfo.id <$> head sorted).
    destruct (Js.truthy next && Js.some (λ item, Some (SessionInfo.id item) = next)
                sorted) eqn:Hnext; [done|].
    subst next.
    destruct (Js.truthy (Store.activeSessionID st)
              && Js.some (λ item, Some (SessionInfo.id item)
                                  = Store.activeSessionID st) sorted)
      eqn:Hfirst; [|done].
    by rewrite Hfirst in Hnext. }
  apply state_ext; try done.
  - change (Store.activeSession
              (Store.refreshSessions_fulfilled result
                 (Store.refreshSessions_fulfilled result st)))
      with (Js.if_truthy
              (Store.activeSessionID
                 (Store.refreshSessions_fulfilled result
                    (Store.refreshSessions_fulfilled result st)))
              (λ nid, Js.find (λ item, SessionInfo.id item = nid) sorted) None).
    by rewrite <-Hactive.
  - change (Store.activeMessages
              (Store.refreshSessions_fulfilled result
                 (Store.refreshSessions_fulfilled result st)))
      with (Js.if_truthy
              (Store.activeSessionID
                 (Store.refreshSessions_fulfilled result
                    (Store.refreshSessions_fulfilled result st)))
              (λ nid, default [] (Store.messages st !! nid)) []).
    by rewrite <-Hactive.
Qed.

(** X1: every server event except [message.created] and [session.updated]
    can be delivered twice in a row to the zustand store without a second
    effect, whatever the state and the ids in the event: the state after the
    second fold is the state after the first.  ([server.connected] is
    folded with the same outcome of the session request both times.) *)
Theorem event_redelivery_is_noop `{Js.Host}
    (fetched : Js.Settled (list SessionInfo)) (st : Store.OpencodeStoreState) :
  redelivery_is_noop ServerEvent.server_connected fetched st
  ∧ (∀ info, redelivery_is_noop (ServerEvent.session_deleted info) fetched st)
  ∧ (∀ sid, redelivery_is_noop (ServerEvent.session_idle sid) fetched st)
  ∧ (∀ sid raw,
       redelivery_is_noop (ServerEvent.session_error sid raw) fetched st)
  ∧ (∀ info, redelivery_is_noop (ServerEvent.message_updated info) fetched st)
  ∧ (∀ sid mid,
       redelivery_is_noop (ServerEvent.message_removed sid mid) fetched st)
  ∧ (∀ part,
       redelivery_is_noop (ServerEvent.message_part_updated part) fetched st)
  ∧ (∀ sid mid pid,
       redelivery_is_noop (ServerEvent.message_part_removed sid mid pid)
         fetched st).
Proof.
  unfold redelivery_is_noop, Js.state_after. split_and!; simpl.
  - destruct fetched as [result|error]; simpl.
    + change (Store.refreshSessions_fulfilled result
                (Store.with_isLoadingSessions true
                   (Store.refreshSessions_fulfilled result
                      (Store.with_isLoadingSessions true st)))
              = Store.refreshSessions_fulfilled result
                  (Store.with_isLoadingSessions true st)).
      rewrite <-(refreshSessions_fulfilled_twice result
                   (Store.with_isLoadingSessions true st)) at 2.
      by apply state_ext.
    + by apply state_ext.
  - intros info. apply removeSessionState_twice.
  - intros sid. apply setBusy_twice.
  - intros [sid|] raw; simpl; [|done].
    destruct (Js.truthy_string sid) eqn:Hsid; [|done].
    unfold Store.setLastError, Store.setBusy. rewrite Hsid. simpl.
    apply state_ext; simpl; try done. set_solver.
  - intros info.
    apply (message_action_twice (MessageInfo.sessionID info)
             (λ l, Store.mergeMessageInfoList l info)).
    intros l. apply mergeMessageInfoList_twice.
  - intros sid mid.
    apply (message_action_twice sid (λ l, Store.removeMessageFromList l mid)).
    intros l. apply removeMessageFromList_twice.
  - intros part.
    apply (message_action_twice (MessagePart.sessionID part)
             (λ l, Store.mergeMessagePartList l part)).
    intros l. apply mergeMessagePartList_twice.
  - intros sid mid pid.
    apply (message_action_twice sid
             (λ l, Store.removeMessagePartFromList l mid pid)).
    intros l. apply removeMessagePartFromList_twice.
Qed.

(** ** What the events do and never do *)

Lemma put_messages_frame (sid : string) (l : list MessageWithParts)
    (st : Store.OpencodeStoreState) :
  Store.sessions (Store.put_messages sid l st) = Store.sessions st
  ∧ Store.busySessionIDs (Store.put_messages sid l st)
    = Store.busySessionIDs st
  ∧ Store.activeSessionID (Store.put_messages sid l st)
    = Store.activeSessionID st
  ∧ Store.lastError (Store.put_messages sid l st) = Store.lastError st.
Proof. done. Qed.

(** X2: no server event ever marks a session busy: whatever the event, the
    state and the outcome of the session request, the busy set after the
    fold is a subset of the busy set before.  Only [prompt] adds to it. *)
Theorem events_never_mark_busy `{Js.Host} (event : ServerEvent)
    (fetched : Js.Settled (list SessionInfo)) (st : Store.OpencodeStoreState) :
  Store.busySessionIDs (Js.state_after (Store.onEvent event fetched) st)
  ⊆ Store.busySessionIDs st.
Proof.
  unfold Js.state_after.
  destruct event as [|info parts|info|sid mid|part|sid mid pid|info|info
                     |sid raw|sid]; simpl.
  - by destruct fetched.
  - done.
  - unfold Store.updateMessageInfo. by destruct (_ !! _).
  - unfold Store.removeMessage. by destruct (_ !! _).
  - unfold Store.updateMessagePart. by destruct (_ !! _).
  - unfold Store.removeMessagePart. by destruct (_ !! _).
  - done.
  - set_solver.
  - destruct sid as [sid|]; simpl; [|done].
    destruct (Js.truthy_string sid) eqn:Hsid; [|done].
    rewrite setBusy_busy, Hsid. set_solver.
  - rewrite setBusy_busy. destruct (Js.truthy_string sid); set_solver.
Qed.

(** X3: [message.updated] replaces the info of the first message with that
    id and nothing else: in every session the list keeps its length, the
    parts of every message and the place of every message (no re-sort), and
    no list is created; the session list, the busy set and the active id
    are untouched. *)
Theorem message_updated_keeps_shape `{Js.Host} (info : MessageInfo)
    (fetched : Js.Settled (list SessionInfo)) (st : Store.OpencodeStoreState) :
  let st' :=
    Js.state_after (Store.onEvent (ServerEvent.message_updated info) fetched)
      st in
  dom (Store.messages st') = dom (Store.messages st)
  ∧ (∀ sid,
       fmap (M := list) MessageWithParts.parts <$> Store.messages st' !! sid
       = fmap (M := list) MessageWithParts.parts <$> Store.messages st !! sid)
  ∧ (∀ sid,
       fmap (M := list) Store.message_id <$> Store.messages st' !! sid
       = fmap (M := list) Store.message_id <$> Store.messages st !! sid)
  ∧ (∀ sid l l' i m,
       Store.messages st !! sid = Some l →
       Store.messages st' !! sid = Some l' →
       l !! i = Some m →
       l' !! i = Some m
       ∨ l' !! i = Some {| MessageWithParts.info := info;
                           MessageWithParts.parts := MessageWithParts.parts m |})
  ∧ snapshot st'
    = (Store.sessions st, Store.messages st', Store.busySessionIDs st,
       Store.activeSessionID st).
Proof.
  intros st'. subst st'. unfold Js.state_after. simpl.
  unfold Store.updateMessageInfo.
  destruct (Store.messages st !! MessageInfo.sessionID info)
    as [existing|] eqn:Hexisting; [|naive_solver].
  set (sid0 := MessageInfo.sessionID info) in *.
  assert (∀ sid, sid ≠ sid0 →
            Store.messages
              (Store.put_messages sid0
                 (Store.mergeMessageInfoList existing info) st) !! sid
            = Store.messages st !! sid) as Hother.
  { intros sid Hne. simpl. by rewrite lookup_insert_ne. }
  pose proof (put_messages_lookup sid0
                (Store.mergeMessageInfoList existing info) st) as Hsid0.
  destruct (mergeMessageInfoList_cases existing info)
    as [(l1 & old & l2 & Hl & Hold & Hl1 & Hmerge)|[_ Hmerge]];
    rewrite Hmerge in *; clear Hmerge.
  - split_and!.
    + simpl. rewrite dom_insert_L.
      assert (sid0 ∈ dom (Store.messages st)) by (by apply elem_of_dom).
      set_solver.
    + intros sid. destruct (decide (sid = sid0)) as [->|Hne].
      * rewrite Hsid0, Hexisting, Hl. simpl.
        by rewrite !fmap_app, !fmap_cons.
      * by rewrite Hother.
    + intros sid. destruct (decide (sid = sid0)) as [->|Hne].
      * rewrite Hsid0, Hexisting, Hl. simpl.
        rewrite !fmap_app, !fmap_cons. unfold Store.message_id at 2 4.
        simpl. by rewrite <-Hold.
      * by rewrite Hother.
    + intros sid l l' i m Hsid Hsid' Hi.
      destruct (decide (sid = sid0)) as [->|Hne].
      * rewrite Hsid0 in Hsid'. rewrite Hexisting in Hsid.
        injection Hsid' as <-. injection Hsid as <-. subst existing.
        destruct (decide (i = length l1)) as [->|Hi'].
        -- right. rewrite list_lookup_middle in Hi by done.
           injection Hi as <-. by rewrite list_lookup_middle.
        -- left. rewrite <-Hi.
           destruct (decide (i < length l1)%nat).
           ++ by rewrite !lookup_app_l.
           ++ rewrite !lookup_app_r by lia.
              destruct (i - length l1)%nat as [|k] eqn:Hk; [lia|done].
      * left. rewrite Hother in Hsid' by done. congruence.
    + done.
  - assert (Store.messages (Store.put_messages sid0 existing st)
            = Store.messages st) as Hsame.
    { simpl. by apply insert_id. }
    split_and!; try (by rewrite ?Hsame); try done.
    intros sid l l' i m Hsid Hsid' Hi. left. rewrite Hsame in Hsid'.
    congruence.
Qed.

(** X4: what [mergeMessagePartList] does to a list that holds the owning
    message: the infos of all messages and their order are kept, every
    message with another id is left as it is, and the first message with
    the id of the part's message holds the part afterwards. *)
Theorem part_update_reaches_owner `{Js.Host} (l : list MessageWithParts)
    (part : MessagePart) :
  Exists (λ m, Store.message_id m = MessagePart.messageID part) l →
  let l' := Store.mergeMessagePartList l part in
  MessageWithParts.info <$> l' = MessageWithParts.info <$> l
  ∧ (∀ i m, l !! i = Some m →
            Store.message_id m ≠ MessagePart.messageID part →
            l' !! i = Some m)
  ∧ (∃ i m',
       l' !! i = Some m'
       ∧ Store.message_id m' = MessagePart.messageID part
       ∧ part ∈ MessageWithParts.parts m'
       ∧ ∀ j m, l' !! j = Some m → (j < i)%nat →
                Store.message_id m ≠ MessagePart.messageID part).
Proof.
  intros Hknown l'. subst l'.
  destruct (mergeMessagePartList_cases l part)
    as [(l1 & target & l2 & parts' & -> & Htarget & Hl1 & -> & Hparts)
       |[Hl _]]; last first.
  { apply Exists_exists in Hknown as (m & Hm & Hid).
    rewrite Forall_forall in Hl. by destruct (Hl m Hm). }
  split_and!.
  - by rewrite !fmap_app, !fmap_cons.
  - intros i m Hi Hne.
    destruct (decide (i = length l1)) as [->|Hi'].
    { rewrite list_lookup_middle in Hi by done. by injection Hi as <-. }
    rewrite <-Hi. destruct (decide (i < length l1)%nat).
    + by rewrite !lookup_app_l.
    + rewrite !lookup_app_r by lia.
      destruct (i - length l1)%nat as [|k] eqn:Hk; [lia|done].
  - eexists (length l1), _. split_and!.
    + by rewrite list_lookup_middle.
    + done.
    + simpl. destruct Hparts as [(p1 & old & p2 & _ & _ & _ & ->)|[_ ->]].
      * set_solver.
      * apply Array_sort_elem_of. set_solver.
    + intros j m Hj Hlt. rewrite lookup_app_l in Hj by done.
      rewrite Forall_forall in Hl1. apply Hl1. by eapply list_elem_of_lookup_2.
Qed.

Lemma part_update_reaches_owner_witness :
  Exists (λ m, Store.message_id m = MessagePart.messageID (Sample.part "p1" "m1" "s1"))
    [Sample.message "m1" "s1" 10]
  ∧ MessageWithParts.info
      <$> @Store.mergeMessagePartList SampleHost.host
            [Sample.message "m1" "s1" 10] (Sample.part "p1" "m1" "s1")
    = MessageWithParts.info <$> [Sample.message "m1" "s1" 10].
Proof.
  assert (Exists (λ m, Store.message_id m
                       = MessagePart.messageID (Sample.part "p1" "m1" "s1"))
            [Sample.message "m1" "s1" 10]) as Hknown.
  { apply Exists_cons_hd. reflexivity. }
  split; [exact Hknown|].
  exact (proj1 (@part_update_reaches_owner SampleHost.host
                  [Sample.message "m1" "s1" 10] (Sample.part "p1" "m1" "s1")
                  Hknown)).
Defined.

Lemma StronglySorted_sublist {A} (R : relation A) (l1 l2 : list A) :
  l1 `sublist_of` l2 → StronglySorted R l2 → StronglySorted R l1.
Proof.
  induction 1 as [|x l1 l2 Hsub IH|x l1 l2 Hsub IH]; intros Hsorted.
  - constructor.
  - apply StronglySorted_cons in Hsorted as [Hx Hl2].
    constructor; [by apply IH|].
    rewrite Forall_forall in *. intros y Hy. apply Hx.
    by eapply elem_of_sublist.
  - apply StronglySorted_cons in Hsorted as [_ Hl2]. by apply IH.
Qed.

(** X5: [message.removed] takes every message with that id out of the list
    of the session and keeps the others in their order, so a list sorted by
    [time.created] stays sorted; the lists of the other sessions are not
    touched, and for a session without a list the state is unchanged. *)
Theorem message_removed_filters `{Js.Host} (sessionID messageID : string)
    (fetched : Js.Settled (list SessionInfo)) (st : Store.OpencodeStoreState) :
  let st' :=
    Js.state_after
      (Store.onEvent (ServerEvent.message_removed sessionID messageID) fetched)
      st in
  (Store.messages st !! sessionID = None → st' = st)
  ∧ (∀ l, Store.messages st !! sessionID = Some l →
       ∃ l', Store.messages st' !! sessionID = Some l'
             ∧ l' `sublist_of` l
             ∧ (∀ m, m ∈ l' ↔ m ∈ l ∧ Store.message_id m ≠ messageID)
             ∧ (ascending_by_created l → ascending_by_created l'))
  ∧ (∀ other, other ≠ sessionID →
       Store.messages st' !! other = Store.messages st !! other).
Proof.
  intros st'. subst st'. unfold Js.state_after. simpl.
  unfold Store.removeMessage.
  destruct (Store.messages st !! sessionID) as [existing|] eqn:Hexisting.
  - split_and!; [done| |].
    + intros l [= <-]. eexists. split_and!.
      * apply put_messages_lookup.
      * apply sublist_filter.
      * intros m. unfold Store.removeMessageFromList.
        rewrite list_elem_of_filter. tauto.
      * apply StronglySorted_sublist, sublist_filter.
    + intros other Hne. simpl. by rewrite lookup_insert_ne.
  - by split_and!.
Qed.

(** X6: [loadMessages] replaces the list of its session wholesale and
    touches no other list; when the session it was asked for is not the
    active one (the user has switched in the meantime) the [activeMessages]
    view is left alone, and when it is the active one the view is the new
    list.  The loading flag is cleared in both cases. *)
Theorem loadMessages_guards_active_view (sessionID : string)
    (result : list MessageWithParts) (st : Store.OpencodeStoreState) :
  let st' :=
    Js.state_after (Store.loadMessages sessionID (Js.Fulfilled result)) st in
  Store.messages st' !! sessionID = Some result
  ∧ (∀ other, other ≠ sessionID →
       Store.messages st' !! other = Store.messages st !! other)
  ∧ (Store.activeSessionID st ≠ Some sessionID →
     Store.activeMessages st' = Store.activeMessages st)
  ∧ (Store.activeSessionID st = Some sessionID →
     Store.activeMessages st' = result)
  ∧ Store.activeSessionID st' = Store.activeSessionID st
  ∧ Store.isLoadingMessages st' = false.
Proof.
  intros st'. subst st'. unfold Js.state_after. simpl. split_and!.
  - apply lookup_insert_eq.
  - intros other Hne. by rewrite lookup_insert_ne.
  - intros Hne. by rewrite bool_decide_eq_false_2.
  - intros Heq. by rewrite bool_decide_eq_true_2.
  - done.
  - done.
Qed.

Lemma loadMessages_guards_active_view_witness :
  Store.activeSessionID (Store.selectSession "B" (Store.initial Sample.cfg))
  ≠ Some "A"
  ∧ Store.activeMessages
      (Js.state_after
         (Store.loadMessages "A" (Js.Fulfilled [Sample.message "m" "A" 1]))
         (Store.selectSession "B" (Store.initial Sample.cfg)))
    = Store.activeMessages (Store.selectSession "B" (Store.initial Sample.cfg)).
Proof.
  assert (Store.activeSessionID
            (Store.selectSession "B" (Store.initial Sample.cfg)) ≠ Some "A")
    as Hother.
  { simpl. discriminate. }
  split; [exact Hother|].
  exact (proj1 (proj2 (proj2
           (loadMessages_guards_active_view "A" [Sample.message "m" "A" 1]
              (Store.selectSession "B" (Store.initial Sample.cfg))))) Hother).
Defined.

(** X7: the four asynchronous actions differ in how a failed request ends.
    [createSession] and [deleteSession] have no [catch]: they end rejected
    with the error of the request and leave the state exactly as it was.
    [refreshSessions] and [loadMessages] end fulfilled, record the text of
    the error and clear their loading flag, and leave the sessions, the
    messages and the active session as they were. *)
Theorem failed_requests (error : Js.Thrown) (sessionID : string)
    (st : Store.OpencodeStoreState) :
  Store.createSession (Js.Rejected error) st = (Js.Rejected error, st)
  ∧ Store.deleteSession sessionID (Js.Rejected error) st
    = (Js.Rejected error, st)
  ∧ Store.refreshSessions (Js.Rejected error) st
    = (Js.Fulfilled tt,
       Store.with_lastError (Some (Store.error_text error))
         (Store.with_isLoadingSessions false st))
  ∧ Store.loadMessages sessionID (Js.Rejected error) st
    = (Js.Fulfilled tt,
       Store.with_lastError (Some (Store.error_text error))
         (Store.with_isLoadingMessages false st)).
Proof. by split_and!. Qed.

(** X8: a successful [createSession] returns the created session, puts it
    into the session list (which is sorted descending by [time.updated]
    afterwards and has grown by at most one entry), makes it the active
    session and shows the messages cached for it. *)
Theorem createSession_activates (session : SessionInfo)
    (st : Store.OpencodeStoreState) :
  let st' :=
    Js.state_after (Store.createSession (Js.Fulfilled session)) st in
  Js.outcome_of (Store.createSession (Js.Fulfilled session)) st
  = Js.Fulfilled session
  ∧ session ∈ Store.sessions st'
  ∧ descending_by_updated (Store.sessions st')
  ∧ (length (Store.sessions st) ≤ length (Store.sessions st')
     ≤ S (length (Store.sessions st)))%nat
  ∧ Store.activeSessionID st' = Some (SessionInfo.id session)
  ∧ Store.activeSession st' = Some session
  ∧ Store.activeMessages st'
    = default [] (Store.messages st !! SessionInfo.id session)
  ∧ Store.messages st' = Store.messages st.
Proof.
  intros st'. subst st'. unfold Js.state_after, Js.outcome_of. simpl.
  split_and!; try done.
  - apply mergeSessions_elem_of.
  - apply mergeSessions_descending.
  - unfold Store.mergeSessions. case_bool_decide.
    + rewrite Array_sort_length. unfold Js.assign_at.
      rewrite length_insert. lia.
    + rewrite Array_sort_length, length_app. simpl. lia.
  - unfold Store.mergeSessions. case_bool_decide.
    + rewrite Array_sort_length. unfold Js.assign_at.
      rewrite length_insert. lia.
    + rewrite Array_sort_length, length_app. simpl. lia.
Qed.

(** X9: after a session is removed (by [deleteSession] or by
    [session.deleted]) it is never the active session: if it was active,
    the first of the remaining sessions becomes active, or none when no
    session remains; if another session was active, that one stays.  The
    view shows the messages cached for the new active session. *)
Theorem removed_session_is_not_active (sessionID : string)
    (st : Store.OpencodeStoreState) :
  let st' :=
    Js.state_after (Store.deleteSession sessionID (Js.Fulfilled tt)) st in
  Js.outcome_of (Store.deleteSession sessionID (Js.Fulfilled tt)) st
  = Js.Fulfilled tt
  ∧ Store.activeSessionID st' ≠ Some sessionID
  ∧ (Store.activeSessionID st = Some sessionID →
     Store.activeSessionID st'
     = SessionInfo.id
         <$> head (filter (λ s, SessionInfo.id s ≠ sessionID)
                     (Store.sessions st)))
  ∧ (Store.activeSessionID st ≠ Some sessionID →
     Store.activeSessionID st' = Store.activeSessionID st)
  ∧ view_consistent st'
  ∧ (∀ (H : Js.Host) info fetched,
       Js.state_after
         (Store.onEvent (ServerEvent.session_deleted info) fetched) st
       = Js.state_after
           (Store.deleteSession (SessionInfo.id info) (Js.Fulfilled tt)) st).
Proof.
  intros st'. subst st'. unfold Js.state_after, Js.outcome_of. simpl.
  split_and!; try done.
  - case_bool_decide as Hact; [|done].
    destruct (head (Store.removeSession (Store.sessions st) sessionID))
      as [s|] eqn:Hhead; simpl; [|done].
    intros [= Hid]. apply head_Some in Hhead as [rest Hrest].
    assert (s ∈ Store.removeSession (Store.sessions st) sessionID) as Hs
      by (rewrite Hrest; left).
    by apply removeSession_elem_of in Hs as [_ ?].
  - intros Hact. by rewrite bool_decide_eq_true_2.
  - intros Hact. by rewrite bool_decide_eq_false_2.
  - apply view_consistent_removeSessionState.
Qed.

(** * The layout, the recent models and the agents *)

Lemma restore_members_in_range (v : Js.Json) (store : Layout.LayoutStore) :
  widths_in_range store → widths_in_range (Layout.restore_members v store).
Proof.
  unfold widths_in_range, Layout.restore_members. intros Hr.
  repeat (case_match; simpl); lia.
Qed.

Lemma act_in_range (a : Layout.Action) (store : Layout.LayoutStore) :
  widths_in_range store → widths_in_range (Layout.act a store).
Proof.
  unfold widths_in_range. intros Hr. destruct a; simpl; lia.
Qed.

Lemma layout_after_in_range (actions : list Layout.Action)
    (store : Layout.LayoutStore) :
  widths_in_range store → widths_in_range (layout_after actions store).
Proof.
  revert store. induction actions as [|a actions IH]; intros store Hr.
  - done.
  - apply IH. by apply act_in_range.
Qed.

(** X10 ([layout], [setLeftWidth], [setRightWidth]).  Whatever text is
    stored under ["layout"], once the store has been created from it, and
    after any series of actions on it, the left width lies in 150 .. 400
    and the right width in 200 .. 500.  The only way the creation fails is
    a stored text that is not empty and not JSON: [JSON.parse] is not
    guarded there. *)
Theorem layout_widths_stay_in_range `{Js.Host} (stored : option string)
    (actions : list Layout.Action) :
  match Layout.restore stored Layout.initial with
  | Js.Normal restored => widths_in_range (layout_after actions restored)
  | Js.Throw e =>
      e = Js.ErrorObject "SyntaxError"
      ∧ ∃ raw, stored = Some raw ∧ raw ≠ "" ∧ Js.JSON_parse raw = None
  end.
Proof.
  assert (Hi : widths_in_range Layout.initial)
    by (unfold widths_in_range; simpl; lia).
  unfold Layout.restore. destruct stored as [raw|].
  - unfold Js.truthy_string. case_bool_decide as Hraw.
    + destruct (Js.JSON_parse raw) as [v|] eqn:Hp.
      * by apply layout_after_in_range, restore_members_in_range.
      * split; [done|]. by exists raw.
    + by apply layout_after_in_range.
  - by apply layout_after_in_range.
Qed.

Lemma uniqueBy_from_sublist {A} (f : A → string) (seen : list string)
    (l : list A) :
  Model.uniqueBy_from f seen l `sublist_of` l.
Proof.
  revert seen. induction l as [|x l IH]; intros seen; simpl.
  - done.
  - case_bool_decide.
    + by apply sublist_cons.
    + by apply sublist_skip.
Qed.

Lemma uniqueBy_from_fresh {A} (f : A → string) (seen : list string)
    (l : list A) (x : A) :
  x ∈ Model.uniqueBy_from f seen l → f x ∉ seen.
Proof.
  revert seen. induction l as [|y l IH]; intros seen; simpl.
  - by intros ?%elem_of_nil.
  - case_bool_decide as Hy.
    + apply IH.
    + intros [->|Hx]%elem_of_cons; [done|].
      apply IH in Hx. set_solver.
Qed.

Lemma uniqueBy_from_NoDup {A} (f : A → string) (seen : list string)
    (l : list A) :
  NoDup (f <$> Model.uniqueBy_from f seen l).
Proof.
  revert seen. induction l as [|x l IH]; intros seen; simpl.
  - constructor.
  - case_bool_decide as Hx; [apply IH|].
    rewrite fmap_cons. constructor; [|apply IH].
    intros (y & Hy & Hin)%list_elem_of_fmap.
    apply uniqueBy_from_fresh in Hin. set_solver.
Qed.

Lemma uniqueBy_from_complete {A} (f : A → string) (seen : list string)
    (l : list A) (x : A) :
  x ∈ l → f x ∈ seen ∨ f x ∈ f <$> Model.uniqueBy_from f seen l.
Proof.
  revert seen. induction l as [|y l IH]; intros seen; simpl.
  - by intros ?%elem_of_nil.
  - intros [->|Hx]%elem_of_cons.
    + case_bool_decide; [by left|]. right. rewrite fmap_cons. set_solver.
    + case_bool_decide as Hy.
      * by apply IH.
      * destruct (IH (f y :: seen) Hx) as [Hs|Hr].
        -- apply elem_of_cons in Hs as [->|Hs]; [|by left].
           right. rewrite fmap_cons. set_solver.
        -- right. rewrite fmap_cons. set_solver.
Qed.

Lemma removelast_sublist {A} (l : list A) : removelast l `sublist_of` l.
Proof.
  induction l as [|x [|y l] IH]; simpl.
  - done.
  - by apply sublist_cons.
  - by apply sublist_skip.
Qed.

Lemma removelast_length' {A} (l : list A) :
  length (removelast l) = pred (length l).
Proof.
  induction l as [|x [|y l] IH]; simpl in *; [done..|]. by rewrite IH.
Qed.

Lemma removelast_head {A} (l : list A) :
  (2 ≤ length l)%nat → head (removelast l) = head l.
Proof. destruct l as [|x [|y l]]; simpl; [lia..|done]. Qed.

(** X11 ([model.set], the list of recent models).  The chosen model comes
    first; no two entries share a key; the others follow in their old
    order; the list grows to five entries and no further, and when nothing
    had to be dropped every old entry is still represented by its key. *)
Theorem recent_models_list (model : Model.ModelKey)
    (recent : list Model.ModelKey) :
  let next := Model.push_recent model recent in
  head next = Some model
  ∧ NoDup (Model.key <$> next)
  ∧ next `sublist_of` model :: recent
  ∧ (length next ≤ Nat.max 5 (length recent))%nat
  ∧ ((length (Model.uniqueBy Model.key (model :: recent)) ≤ 5)%nat →
     ∀ x, x ∈ recent → Model.key x ∈ Model.key <$> next).
Proof.
  unfold Model.push_recent.
  set (uniq := Model.uniqueBy Model.key (model :: recent)).
  assert (Hhead : head uniq = Some model) by done.
  assert (Hnd : NoDup (Model.key <$> uniq))
    by apply uniqueBy_from_NoDup.
  assert (Hsub : uniq `sublist_of` model :: recent)
    by apply uniqueBy_from_sublist.
  assert (Hlen : (length uniq ≤ S (length recent))%nat)
    by (apply sublist_length in Hsub;
        change (length (model :: recent)) with (S (length recent)) in Hsub;
        lia).
  cbv zeta. case_bool_decide as Hbig.
  - split_and!.
    + rewrite removelast_head; [done|lia].
    + eapply sublist_NoDup; [exact Hnd|].
      apply fmap_sublist, removelast_sublist.
    + etrans; [apply removelast_sublist|done].
    + rewrite removelast_length'. lia.
    + lia.
  - split_and!; [done..| lia |].
    intros _ x Hx.
    destruct (uniqueBy_from_complete Model.key [] (model :: recent) x)
      as [Hs|Hr]; [set_solver| by apply elem_of_nil in Hs | done].
Qed.

(** X12 ([model.set], the key [providerID + modelID]).  Two models count
    as the same entry as soon as their two identifiers concatenate to the
    same text, also when the models differ: choosing one of them removes
    the other from the list of recent models. *)
Theorem recent_models_key_collision (model other : Model.ModelKey)
    (recent : list Model.ModelKey) :
  Model.key model = Model.key other →
  model ≠ other →
  other ∉ Model.push_recent model recent.
Proof.
  intros Hkey Hne Hmem.
  assert (Hu : other ∈ Model.uniqueBy Model.key (model :: recent)).
  { unfold Model.push_recent in Hmem. case_bool_decide; [|done].
    eapply elem_of_sublist; [done|apply removelast_sublist]. }
  unfold Model.uniqueBy in Hu. simpl in Hu.
  apply elem_of_cons in Hu as [Heq|Hu]; [done|].
  apply uniqueBy_from_fresh in Hu. set_solver.
Qed.

Lemma recent_models_key_collision_witness :
  {| Model.providerID := "ab"; Model.modelID := "c" |}
  ∉ Model.push_recent {| Model.providerID := "a"; Model.modelID := "bc" |}
      [{| Model.providerID := "ab"; Model.modelID := "c" |}].
Proof.
  apply recent_models_key_collision.
  - reflexivity.
  - discriminate.
Defined.

Lemma findIndex_below_length {A} (P : A → Prop) `{∀ x, Decision (P x)}
    (l : list A) :
  Js.findIndex P l < Z.of_nat (length l).
Proof.
  destruct (findIndex_range P l) as [->|Hi]; [lia|].
  apply findIndex_found in Hi as (i & x & -> & Hi & _).
  apply lookup_lt_Some in Hi. lia.
Qed.

Lemma at_index_in_range {A} (l : list A) (index : Z) :
  0 ≤ index < Z.of_nat (length l) →
  ∃ x, Js.at_index l index = Some x ∧ l !! Z.to_nat index = Some x.
Proof.
  intros Hr. unfold Js.at_index. rewrite bool_decide_eq_true_2 by lia.
  destruct (lookup_lt_is_Some_2 l (Z.to_nat index)) as [x Hx]; [lia|].
  by exists x.
Qed.

Lemma next_index_in_range (lst : list Agent.AgentInfo) (current : string)
    (direction : Z) :
  lst ≠ [] →
  0 ≤ Agent.next_index lst current direction < Z.of_nat (length lst).
Proof.
  intros Hne. assert (0 < length lst)%nat by (destruct lst; simpl; [done|lia]).
  unfold Agent.next_index. repeat case_bool_decide; lia.
Qed.

(** X13 ([agent.move]).  With at least one agent in the list, moving in
    either direction, from whatever the current name is, makes an agent of
    the list the current one, and writes the model of no other agent; with
    an empty list the call throws. *)
Theorem agent_move_stays_in_list (lst : list Agent.AgentInfo) (direction : Z)
    (store : Agent.AgentStore) :
  match Agent.move lst direction store with
  | Js.Normal store' =>
      lst ≠ []
      ∧ ∃ value,
          value ∈ lst
          ∧ Agent.current store' = Agent.name value
          ∧ Agent.models store' !! Agent.name value
            = match Agent.model value with
              | Some m => Some m
              | None => Agent.models store !! Agent.name value
              end
          ∧ ∀ other, other ≠ Agent.name value →
              Agent.models store' !! other = Agent.models store !! other
  | Js.Throw e => lst = [] ∧ e = Js.ErrorObject "TypeError"
  end.
Proof.
  unfold Agent.move. destruct lst as [|a lst].
  - unfold Js.at_index. case_bool_decide; by rewrite ?lookup_nil.
  - destruct (at_index_in_range (a :: lst)
                (Agent.next_index (a :: lst) (Agent.current store) direction))
      as (value & -> & Hv); [by apply next_index_in_range|].
    split; [done|]. exists value. split_and!.
    + by eapply list_elem_of_lookup_2.
    + done.
    + simpl. destruct (Agent.model value) as [[p m]|]; [|done].
      by rewrite lookup_insert_eq.
    + intros other Hother. simpl.
      destruct (Agent.model value); [|done].
      by rewrite lookup_insert_ne.
Qed.

Lemma findIndex_of_name (lst : list Agent.AgentInfo) (i : nat)
    (a : Agent.AgentInfo) :
  NoDup (Agent.name <$> lst) → lst !! i = Some a →
  Js.findIndex (λ x, Agent.name x = Agent.name a) lst = Z.of_nat i.
Proof.
  intros Hnd Hi.
  rewrite <-(take_drop_middle lst i a Hi) in Hnd |- *.
  assert (length (take i lst) = i) as Hlen.
  { apply lookup_lt_Some in Hi. rewrite length_take. lia. }
  rewrite <-Hlen at 3. apply (findIndex_first (λ x, Agent.name x = Agent.name a)).
  - rewrite fmap_app, fmap_cons in Hnd.
    apply NoDup_app in Hnd as (_ & Hdis & _).
    apply Forall_forall. intros y Hy Heq.
    apply (Hdis (Agent.name y)).
    + by apply list_elem_of_fmap_2.
    + rewrite Heq. apply elem_of_cons. by left.
  - done.
Qed.

Lemma move_from (lst : list Agent.AgentInfo) (i j : nat)
    (a b : Agent.AgentInfo) (direction : Z) (store : Agent.AgentStore) :
  NoDup (Agent.name <$> lst) →
  lst !! i = Some a → lst !! j = Some b →
  Agent.current store = Agent.name a →
  Agent.next_index lst (Agent.name a) direction = Z.of_nat j →
  ∃ store', Agent.move lst direction store = Js.Normal store'
            ∧ Agent.current store' = Agent.name b.
Proof.
  intros Hnd Hi Hj Hcur Hnext. unfold Agent.move.
  rewrite Hcur, Hnext. unfold Js.at_index.
  rewrite bool_decide_eq_true_2 by lia. rewrite Nat2Z.id, Hj.
  by eexists.
Qed.

(** X14 ([agent.move]).  When the agents have distinct names and the
    current name is one of them, a step in one direction followed by a step
    in the other brings the current agent back, also across the ends of the
    list. *)
Theorem agent_move_there_and_back (lst : list Agent.AgentInfo)
    (direction : Z) (store : Agent.AgentStore) :
  NoDup (Agent.name <$> lst) →
  Agent.current store ∈ Agent.name <$> lst →
  direction = 1 ∨ direction = -1 →
  ∃ store1 store2,
    Agent.move lst direction store = Js.Normal store1
    ∧ Agent.move lst (- direction) store1 = Js.Normal store2
    ∧ Agent.current store2 = Agent.current store.
Proof.
  intros Hnd (a & Hcur & Ha)%list_elem_of_fmap Hdir.
  apply list_elem_of_lookup in Ha as [i Hi].
  pose proof (lookup_lt_Some _ _ _ Hi) as Hlt.
  pose proof (findIndex_of_name lst i a Hnd Hi) as Hfi.
  set (j := match direction with
            | 1 => if bool_decide (S i = length lst) then O else S i
            | _ => if bool_decide (i = O) then pred (length lst) else pred i
            end).
  assert (Hjlt : (j < length lst)%nat).
  { subst j. destruct Hdir as [-> | ->]; case_bool_decide; lia. }
  destruct (lookup_lt_is_Some_2 lst j Hjlt) as [b Hj].
  pose proof (findIndex_of_name lst j b Hnd Hj) as Hfj.
  destruct (move_from lst i j a b direction store Hnd Hi Hj Hcur)
    as (store1 & Hm1 & Hc1).
  { unfold Agent.next_index. rewrite Hfi. subst j.
    destruct Hdir as [-> | ->]; repeat case_bool_decide; lia. }
  destruct (move_from lst j i b a (- direction) store1 Hnd Hj Hi Hc1)
    as (store2 & Hm2 & Hc2).
  { unfold Agent.next_index. rewrite Hfj. subst j.
    destruct Hdir as [-> | ->]; repeat case_bool_decide; lia. }
  exists store1, store2. by rewrite Hc2, Hcur.
Qed.

Lemma agent_move_there_and_back_witness :
  ∃ store1 store2,
    Agent.move SampleLocal.agents 1 SampleLocal.on_review = Js.Normal store1
    ∧ Agent.move SampleLocal.agents (- 1) store1 = Js.Normal store2
    ∧ Agent.current store2 = Agent.current SampleLocal.on_review.
Proof.
  apply agent_move_there_and_back.
  - refine (@bool_decide_unpack _ _ _). vm_compute. exact I.
  - refine (@bool_decide_unpack _ _ _). vm_compute. exact I.
  - left. reflexivity.
Defined.

(** * The tabs and the folds of the file store *)

Lemma update_node_known (path : string)
    (f : Local.LocalFile → Local.LocalFile) (n : Local.LocalFile)
    (store : Local.FileStore) :
  Local.node store !! path = Some n →
  File.update_node path f store
  = (Js.Fulfilled tt,
     {| Local.node := <[path := f n]> (Local.node store);
        Local.opened := Local.opened store;
        Local.active := Local.active store |}).
Proof. intros Hn. unfold File.update_node. by rewrite Hn. Qed.

Lemma folded_after_update (path : string)
    (g : list string → list string) (n : Local.LocalFile)
    (store : Local.FileStore) :
  Local.node store !! path = Some n →
  File.folded path
    (Js.state_after
       (File.update_node path
          (λ n, File.with_folded (Some (g (default [] (Local.folded n)))) n))
       store)
  = g (File.folded path store).
Proof.
  intros Hn. unfold Js.state_after, File.folded.
  rewrite (update_node_known _ _ n) by done. simpl.
  by rewrite lookup_insert_eq, Hn.
Qed.

Lemma folded_unfold (path key : string) (n : Local.LocalFile)
    (store : Local.FileStore) :
  Local.node store !! path = Some n →
  File.folded path (Js.state_after (File.unfold path key) store)
  = if bool_decide (key ∈ File.folded path store) then File.folded path store
    else File.folded path store ++ [key].
Proof.
  intros Hn. unfold Js.state_after, File.folded, File.unfold.
  rewrite (update_node_known _ _ n) by done. simpl.
  by rewrite lookup_insert_eq, Hn.
Qed.

Lemma folded_fold (path key : string) (n : Local.LocalFile)
    (store : Local.FileStore) :
  Local.node store !! path = Some n →
  File.folded path (Js.state_after (File.fold path key) store)
  = filter (λ k, k ≠ key) (File.folded path store).
Proof.
  intros Hn.
  apply (folded_after_update path (filter (λ k, k ≠ key)) n store Hn).
Qed.

Lemma update_node_keeps_known (path : string)
    (f : Local.LocalFile → Local.LocalFile) (n : Local.LocalFile)
    (store : Local.FileStore) :
  Local.node store !! path = Some n →
  Local.node (Js.state_after (File.update_node path f) store) !! path
  = Some (f n).
Proof.
  intros Hn. unfold Js.state_after.
  rewrite (update_node_known _ _ n) by done. simpl.
  by rewrite lookup_insert_eq.
Qed.

Lemma filter_absent (key : string) (l : list string) :
  key ∉ l → filter (λ k, k ≠ key) l = l.
Proof.
  induction l as [|x l IH]; [done|]. intros Hx.
  apply not_elem_of_cons in Hx as [Hne Hl].
  rewrite filter_cons_True by done. by rewrite IH.
Qed.

(** X15 ([unfold], [fold], [folded]).  On a known node: after [unfold] the
    key is among the folded ones, and a list without repetition stays so;
    after [fold] it is not; unfolding a key that was not there and folding
    it again gives the old list back; and a second [unfold] of the same key
    changes nothing. *)
Theorem unfold_then_fold (path key : string) (n : Local.LocalFile)
    (store : Local.FileStore) :
  Local.node store !! path = Some n →
  let unfolded := Js.state_after (File.unfold path key) store in
  key ∈ File.folded path unfolded
  ∧ (NoDup (File.folded path store) → NoDup (File.folded path unfolded))
  ∧ (key ∉ File.folded path (Js.state_after (File.fold path key) store))
  ∧ (key ∉ File.folded path store →
     File.folded path (Js.state_after (File.fold path key) unfolded)
     = File.folded path store)
  ∧ File.folded path (Js.state_after (File.unfold path key) unfolded)
    = File.folded path unfolded.
Proof.
  intros Hn unfolded.
  pose proof (folded_unfold path key n store Hn) as Hu.
  fold unfolded in Hu.
  assert (Hin : key ∈ File.folded path unfolded).
  { rewrite Hu. case_bool_decide; [done|]. set_solver. }
  assert (∃ n', Local.node unfolded !! path = Some n') as [n' Hn'].
  { subst unfolded. unfold File.unfold. eexists.
    by apply update_node_keeps_known. }
  split_and!.
  - done.
  - intros Hnd. rewrite Hu. case_bool_decide as Hk; [done|].
    apply NoDup_app. split_and!; [done| |apply NoDup_singleton].
    intros x Hx ->%list_elem_of_singleton. done.
  - rewrite (folded_fold path key n store Hn).
    intros [Hk _]%list_elem_of_filter. by apply Hk.
  - intros Hk. rewrite (folded_fold path key _ unfolded Hn'), Hu.
    rewrite bool_decide_eq_false_2 by done.
    rewrite filter_app, filter_absent by done.
    rewrite filter_cons_False, filter_nil by (intros Hne; by apply Hne).
    by rewrite app_nil_r.
  - rewrite (folded_unfold path key _ unfolded Hn').
    by rewrite bool_decide_eq_true_2.
Qed.

Lemma unfold_then_fold_witness :
  let unfolded := Js.state_after (File.unfold "a" "k") Sample.tabs in
  "k" ∈ File.folded "a" unfolded
  ∧ (NoDup (File.folded "a" Sample.tabs) → NoDup (File.folded "a" unfolded))
  ∧ ("k" ∉ File.folded "a" (Js.state_after (File.fold "a" "k") Sample.tabs))
  ∧ ("k" ∉ File.folded "a" Sample.tabs →
     File.folded "a" (Js.state_after (File.fold "a" "k") unfolded)
     = File.folded "a" Sample.tabs)
  ∧ File.folded "a" (Js.state_after (File.unfold "a" "k") unfolded)
    = File.folded "a" unfolded.
Proof.
  apply (unfold_then_fold "a" "k" (Sample.file "a")).
  vm_compute. reflexivity.
Defined.

Lemma splice_move_middle (l1 l2 : list string) (x : string) (to : Z) :
  let start :=
    Z.to_nat (File.splice_start (Z.of_nat (length (l1 ++ l2))) to) in
  File.splice_move (Z.of_nat (length l1)) to (l1 ++ x :: l2)
  = take start (l1 ++ l2) ++ x :: drop start (l1 ++ l2).
Proof.
  unfold File.splice_move. rewrite at_index_middle.
  rewrite Nat2Z.id. by rewrite delete_middle.
Qed.

Lemma splice_start_range (len start : Z) :
  0 ≤ len → 0 ≤ File.splice_start len start ≤ len.
Proof. unfold File.splice_start. case_bool_decide; lia. Qed.

Lemma splice_move_perm (index to : Z) (opened : list string) :
  File.splice_move index to opened ≡ₚ opened.
Proof.
  unfold File.splice_move, Js.at_index.
  case_bool_decide as Hi; [|done].
  destruct (opened !! Z.to_nat index) as [moved|] eqn:Hm; [|done].
  rewrite <-Permutation_middle, take_drop.
  symmetry. by apply delete_Permutation.
Qed.

Lemma move_opened (path : string) (to : Z) (store : Local.FileStore) :
  Local.opened (Js.state_after (File.move path to) store)
  = if bool_decide (Js.findIndex (λ f, f = path) (Local.opened store) = -1)
    then Local.opened store
    else File.splice_move (Js.findIndex (λ f, f = path) (Local.opened store))
           to (Local.opened store).
Proof.
  unfold Js.state_after, File.move. case_bool_decide; [done|].
  unfold mbind, Js.Async_bind, Js.then_, Js.set, File.update_node. simpl.
  by destruct (Local.node store !! path).
Qed.

Lemma move_active (path : string) (to : Z) (store : Local.FileStore) :
  Local.active (Js.state_after (File.move path to) store)
  = Local.active store.
Proof.
  unfold Js.state_after, File.move. case_bool_decide; [done|].
  unfold mbind, Js.Async_bind, Js.then_, Js.set, File.update_node. simpl.
  by destruct (Local.node store !! path).
Qed.

Lemma move_node (path : string) (to : Z) (store : Local.FileStore) :
  Local.node (Js.state_after (File.move path to) store)
  = match Local.node store !! path with
    | Some n =>
        if bool_decide
             (Js.findIndex (λ f, f = path) (Local.opened store) = -1)
        then Local.node store
        else <[path := File.with_pinned (Some true) n]> (Local.node store)
    | None => Local.node store
    end.
Proof.
  unfold Js.state_after, File.move. case_bool_decide.
  - by destruct (Local.node store !! path).
  - unfold mbind, Js.Async_bind, Js.then_, Js.set, File.update_node. simpl.
    by destruct (Local.node store !! path).
Qed.

Lemma findIndex_absent (path : string) (l : list string) :
  Js.findIndex (λ f, f = path) l = -1 ↔ path ∉ l.
Proof.
  split.
  - intros Hi Hin.
    assert (0 ≤ Js.findIndex (λ f, f = path) l); [|lia].
    apply findIndex_nonneg_iff, Exists_exists. by exists path.
  - intros Hnot.
    destruct (findIndex_range (λ f, f = path) l) as [|Hi]; [done|].
    apply findIndex_nonneg_iff, Exists_exists in Hi as (x & Hx & ->). done.
Qed.

(** X16 ([move] of a tab).  [move] reorders the tabs and nothing else:
    the tabs after it are a permutation of the tabs before, the other tabs
    keep their order, and the active tab is the same.  The moved tab lands
    where [splice] starts, which for a target inside the list is the
    target; its node gets pinned.  A path that is not open changes
    nothing. *)
Theorem move_reorders_tabs (path : string) (to : Z)
    (store : Local.FileStore) :
  let store' := Js.state_after (File.move path to) store in
  let length := Z.of_nat (length (Local.opened store)) in
  Local.opened store' ≡ₚ Local.opened store
  ∧ filter (λ x, x ≠ path) (Local.opened store')
    = filter (λ x, x ≠ path) (Local.opened store)
  ∧ Local.active store' = Local.active store
  ∧ (path ∉ Local.opened store → store' = store)
  ∧ (path ∈ Local.opened store →
     Local.opened store' !! Z.to_nat (File.splice_start (length - 1) to)
     = Some path
     ∧ (0 ≤ to < length → Local.opened store' !! Z.to_nat to = Some path)
     ∧ ∀ n, Local.node store !! path = Some n →
         Local.node store' !! path = Some (File.with_pinned (Some true) n)).
Proof.
  intros store' len.
  pose proof (move_opened path to store) as Ho. fold store' in Ho.
  pose proof (move_node path to store) as Hnode. fold store' in Hnode.
  split_and!.
  - rewrite Ho. case_bool_decide; [done|]. apply splice_move_perm.
  - rewrite Ho. case_bool_decide as Hi; [done|].
    destruct (findIndex_split (λ f, f = path) (Local.opened store))
      as (l1 & x & l2 & Hl & Hidx & -> & Hl1).
    { destruct (findIndex_range (λ f, f = path) (Local.opened store)); lia. }
    rewrite Hidx, Hl, splice_move_middle. cbv zeta.
    rewrite filter_app, (filter_cons_False _ path)
      by (intros Hne; by apply Hne).
    rewrite <-filter_app, take_drop.
    rewrite !filter_app. f_equal.
    by rewrite filter_cons_False by (intros Hne; by apply Hne).
  - apply move_active.
  - intros Hnot%findIndex_absent. subst store'.
    unfold Js.state_after, File.move.
    by rewrite bool_decide_eq_true_2.
  - intros Hin.
    assert (Hi : Js.findIndex (λ f, f = path) (Local.opened store) ≠ -1).
    { intros Hi%findIndex_absent. done. }
    destruct (findIndex_split (λ f, f = path) (Local.opened store))
      as (l1 & x & l2 & Hl & Hidx & -> & Hl1).
    { destruct (findIndex_range (λ f, f = path) (Local.opened store)); lia. }
    assert (Hlen : len - 1 = Z.of_nat (length (l1 ++ l2))).
    { subst len. rewrite Hl, !length_app. simpl. lia. }
    assert (Hland :
      Local.opened store' !! Z.to_nat (File.splice_start (len - 1) to)
      = Some path).
    { rewrite Ho, bool_decide_eq_false_2 by done.
      rewrite Hidx, Hl, splice_move_middle. cbv zeta. rewrite Hlen.
      pose proof (splice_start_range (Z.of_nat (length (l1 ++ l2))) to
                    ltac:(lia)) as Hr.
      set (start := Z.to_nat
                      (File.splice_start (Z.of_nat (length (l1 ++ l2))) to))
        in *.
      assert (length (take start (l1 ++ l2)) = start) as Htake
        by (rewrite length_take; lia).
      rewrite <-Htake at 1. apply list_lookup_middle. done. }
    split_and!.
    + done.
    + intros Hto. rewrite <-Hland. f_equal. f_equal.
      unfold File.splice_start. rewrite bool_decide_eq_false_2 by lia. lia.
    + intros n Hn. rewrite Hnode, Hn, bool_decide_eq_false_2 by done.
      by rewrite lookup_insert_eq.
Qed.

Lemma opened_nodes_paths (store : Local.FileStore)
    (nodes : list Local.LocalFile) :
  map_Forall (λ k n, Local.path n = k) (Local.node store) →
  File.opened_nodes store = Some nodes →
  Local.path <$> nodes = Local.opened store
  ∧ Forall2 (λ x n, Local.node store !! x = Some n) (Local.opened store)
      nodes.
Proof.
  intros Hkeyed Hnodes. apply mapM_Some in Hnodes. split; [|done].
  induction Hnodes as [|x n l k Hx _ IH]; [done|].
  rewrite fmap_cons, IH. f_equal. by apply (Hkeyed x n).
Qed.

Lemma pinned_paths (store : Local.FileStore) (opened : list string)
    (nodes : list Local.LocalFile) :
  Forall2 (λ x n, Local.node store !! x = Some n ∧ Local.path n = x) opened
    nodes →
  Local.path <$> filter (λ x, Local.pinned x = Some true) nodes
  = filter (pinned_tab store) opened.
Proof.
  induction 1 as [|x n l k [Hx Hp] _ IH]; [done|].
  destruct (decide (Local.pinned n = Some true)) as [Hpin|Hpin].
  - rewrite filter_cons_True by done.
    rewrite (filter_cons_True (pinned_tab store))
      by (unfold pinned_tab; by rewrite Hx).
    by rewrite fmap_cons, IH, Hp.
  - rewrite filter_cons_False by done.
    by rewrite (filter_cons_False (pinned_tab store))
      by (unfold pinned_tab; by rewrite Hx).
Qed.

Lemma opened_nodes_missing (store : Local.FileStore) :
  File.opened_nodes store = None →
  ∃ x, x ∈ Local.opened store ∧ Local.node store !! x = None.
Proof.
  unfold File.opened_nodes. intros Hnone%mapM_None_1.
  by apply Exists_exists in Hnone.
Qed.

(** X17 ([open], its two updates of the tabs).  Opening a path that is
    already a tab only activates it.  Opening a new path keeps the pinned
    tabs, in their order, drops every tab that is not pinned, and puts the
    new path last and active; no node is touched, so the dropped tabs keep
    theirs.  The update throws, before it has written anything, exactly
    when the path is new and some tab has no node. *)
Theorem open_tab_drops_unpinned (relativePath : string)
    (store : Local.FileStore) :
  map_Forall (λ k n, Local.path n = k) (Local.node store) →
  match File.open_tab relativePath store with
  | (Js.Fulfilled _, store') =>
      Local.active store' = Some relativePath
      ∧ Local.node store' = Local.node store
      ∧ Local.opened store'
        = if bool_decide (relativePath ∈ Local.opened store)
          then Local.opened store
          else filter (pinned_tab store) (Local.opened store)
               ++ [relativePath]
  | (Js.Rejected e, store') =>
      store' = store
      ∧ (relativePath ∉ Local.opened store)
      ∧ ∃ x, x ∈ Local.opened store ∧ Local.node store !! x = None
  end.
Proof.
  intros Hkeyed. unfold File.open_tab. case_bool_decide as Hin; [done|].
  destruct (File.opened_nodes store) as [nodes|] eqn:Hnodes.
  - split_and!; [done..|]. simpl. f_equal.
    destruct (opened_nodes_paths store nodes Hkeyed Hnodes) as [_ HF].
    apply pinned_paths.
    eapply Forall2_impl; [exact HF|]. intros x n Hx. split; [done|].
    by apply (Hkeyed x n).
  - split_and!; [done..|]. by apply opened_nodes_missing.
Qed.

Lemma open_tab_drops_unpinned_witness :
  match File.open_tab "d" Sample.tabs with
  | (Js.Fulfilled _, store') =>
      Local.active store' = Some "d"
      ∧ Local.node store' = Local.node Sample.tabs
      ∧ Local.opened store'
        = if bool_decide ("d" ∈ Local.opened Sample.tabs)
          then Local.opened Sample.tabs
          else filter (pinned_tab Sample.tabs) (Local.opened Sample.tabs)
               ++ ["d"]
  | (Js.Rejected e, store') =>
      store' = Sample.tabs
      ∧ ("d" ∉ Local.opened Sample.tabs)
      ∧ ∃ x, x ∈ Local.opened Sample.tabs
             ∧ Local.node Sample.tabs !! x = None
  end.
Proof.
  apply (open_tab_drops_unpinned "d" Sample.tabs).
  refine (@bool_decide_unpack _ _ _). vm_compute. exact I.
Defined.

Lemma tabs_ok_update_node (path : string)
    (f : Local.LocalFile → Local.LocalFile) (store : Local.FileStore) :
  (∀ n, Local.path (f n) = Local.path n) →
  tabs_ok store → tabs_ok (Js.state_after (File.update_node path f) store).
Proof.
  intros Hf (Hnd & Hact & Hkeyed).
  unfold Js.state_after, File.update_node.
  destruct (Local.node store !! path) as [n|] eqn:Hn; [|done].
  split_and!; [done..|]. simpl.
  apply map_Forall_insert_2; [|done].
  rewrite Hf. by apply (Hkeyed path n).
Qed.

Lemma tabs_ok_close (path : string) (store : Local.FileStore) :
  tabs_ok store → tabs_ok (Local.close path store).
Proof.
  intros (Hnd & Hact & Hkeyed).
  destruct (close_removes path store) as (Ho & _ & _ & _ & Hother).
  split_and!.
  - rewrite Ho. by apply NoDup_filter.
  - rewrite Ho.
    destruct (decide (Local.active store = Some path)) as [Ha|Ha].
    + rewrite (close_active_first path store Ha).
      destruct (filter _ _) as [|x l] eqn:Hl; [done|]. simpl.
      apply elem_of_cons; by left.
    + rewrite (Hother Ha).
      destruct (Local.active store) as [a|]; [|done]. simpl in *.
      apply list_elem_of_filter. split; [congruence|done].
  - unfold Local.close, Local.resetNode. simpl.
    apply map_Forall_delete.
    by destruct (bool_decide _).
Qed.

Lemma tabs_ok_move (path : string) (to : Z) (store : Local.FileStore) :
  tabs_ok store → tabs_ok (Js.state_after (File.move path to) store).
Proof.
  intros (Hnd & Hact & Hkeyed).
  pose proof (move_opened path to store) as Ho.
  assert (Hperm : Local.opened (Js.state_after (File.move path to) store)
                  ≡ₚ Local.opened store).
  { rewrite Ho. case_bool_decide; [done|]. apply splice_move_perm. }
  split_and!.
  - by rewrite Hperm.
  - rewrite move_active.
    destruct (Local.active store) as [a|]; [|done]. simpl in *.
    by rewrite Hperm.
  - rewrite move_node.
    destruct (Local.node store !! path) as [n|] eqn:Hn; [|done].
    case_bool_decide; [done|].
    apply map_Forall_insert_2; [|done]. by apply (Hkeyed path n).
Qed.

Lemma tabs_ok_open_tab (relativePath : string) (store : Local.FileStore) :
  tabs_ok store →
  tabs_ok (Js.state_after (File.open_tab relativePath) store).
Proof.
  intros (Hnd & Hact & Hkeyed).
  pose proof (open_tab_drops_unpinned relativePath store Hkeyed) as Hopen.
  unfold Js.state_after.
  destruct (File.open_tab relativePath store) as [[[]|e] store'].
  - destruct Hopen as (Ha & Hn & Ho). simpl.
    unfold tabs_ok. rewrite Ha, Hn, Ho. simpl.
    case_bool_decide as Hin; [done|].
    split_and!; [|set_solver|done].
    apply NoDup_app. split_and!.
    + by apply NoDup_filter.
    + intros x [_ Hx]%list_elem_of_filter ->%list_elem_of_singleton. done.
    + apply NoDup_singleton.
  - destruct Hopen as (-> & _). done.
Qed.

Lemma tabs_ok_act (a : FileAction) (store : Local.FileStore) :
  tabs_ok store → tabs_ok (Js.state_after (file_act a) store).
Proof.
  destruct a; simpl.
  - apply tabs_ok_close.
  - apply tabs_ok_open_tab.
  - apply tabs_ok_move.
  - by apply tabs_ok_update_node.
  - by apply tabs_ok_update_node.
Qed.

(** X18 (the tabs of the file store).  Through any series of [close],
    [open], [move], [unfold] and [fold] calls, also ones that throw half
    way, no path is open twice, the active path is one of the open ones
    (or there is none), and every node is stored under its own path. *)
Theorem tabs_stay_consistent (actions : list FileAction)
    (store : Local.FileStore) :
  tabs_ok store → tabs_ok (file_after actions store).
Proof.
  revert store. induction actions as [|a actions IH]; intros store Hok.
  - done.
  - apply IH. by apply tabs_ok_act.
Qed.

Lemma tabs_stay_consistent_witness :
  tabs_ok
    (file_after
       [do_move "c" 0; do_open_tab "d"; do_close "c"; do_unfold "zz" "k"]
       Sample.tabs).
Proof.
  apply tabs_stay_consistent.
  refine (@bool_decide_unpack _ _ _). vm_compute. exact I.
Defined.

Lemma close_noop (path : string) (store : Local.FileStore) :
  path ∉ Local.opened store →
  Local.node store !! path = None →
  Local.active store ≠ Some path →
  Local.close path store = store.
Proof.
  intros Hnot Hnode Hact. unfold Local.close. simpl.
  rewrite bool_decide_eq_false_2 by done.
  unfold Local.resetNode. simpl.
  rewrite filter_absent, delete_id by done.
  by destruct store.
Qed.

(** X19 ([close]).  After [close] the path is no tab, has no node and is
    not the active one; if it was the active one, the first of the
    remaining tabs is active now, whatever the position of the closed tab
    was; and closing the same path once more changes nothing. *)
Theorem close_is_thorough (path : string) (store : Local.FileStore) :
  let closed := Local.close path store in
  (path ∉ Local.opened closed)
  ∧ Local.node closed !! path = None
  ∧ Local.active closed ≠ Some path
  ∧ Local.active closed
    = (if bool_decide (Local.active store = Some path)
       then head (filter (λ x, x ≠ path) (Local.opened store))
       else Local.active store)
  ∧ Local.close path closed = closed.
Proof.
  intros closed.
  destruct (close_removes path store) as (Ho & Hnot & Hnode & _ & Hother).
  fold closed in Ho, Hnot, Hnode, Hother.
  assert (Hact : Local.active closed
                 = if bool_decide (Local.active store = Some path)
                   then head (filter (λ x, x ≠ path) (Local.opened store))
                   else Local.active store).
  { case_bool_decide as Ha.
    - by apply close_active_first.
    - by apply Hother. }
  assert (Hne : Local.active closed ≠ Some path).
  { rewrite Hact. case_bool_decide as Ha; [|done].
    intros Hh%head_Some_elem_of.
    by apply list_elem_of_filter in Hh as [Hh _]. }
  split_and!; [done..|]. by apply close_noop.
Qed.

(** * Paths *)

Lemma append_assoc (a b c : string) : (a +:+ b) +:+ c = a +:+ b +:+ c.
Proof.
  induction a as [|x a IH]; [done|].
  change (String x ((a +:+ b) +:+ c) = String x (a +:+ b +:+ c)).
  by rewrite IH.
Qed.

Lemma startsWith_spec (s p : string) :
  File.startsWith s p = true ↔ ∃ r, s = p +:+ r.
Proof.
  revert s. induction p as [|c p IH]; intros s.
  - split; [|by destruct s]. intros _. by exists s.
  - destruct s as [|d s]; simpl.
    + split; [done|]. by intros [r [=]].
    + rewrite andb_true_iff, bool_decide_eq_true, IH. split.
      * intros [-> [r ->]]. by exists r.
      * intros [r [= -> ->]]. split; [done|]. by exists r.
Qed.

Lemma remove_first_unfold (pattern s : string) :
  File.remove_first pattern s
  = if File.startsWith s pattern then
      String.substring (String.length pattern)
        (String.length s - String.length pattern) s
    else
      match s with
      | EmptyString => EmptyString
      | String c r => String c (File.remove_first pattern r)
      end.
Proof. by destruct s. Qed.

Lemma substring_all (s : string) :
  String.substring 0 (String.length s) s = s.
Proof. induction s as [|c s IH]; simpl; [done|]. by rewrite IH. Qed.

Lemma substring_after (p r : string) :
  String.substring (String.length p)
    (String.length (p +:+ r) - String.length p) (p +:+ r) = r.
Proof.
  induction p as [|c p IH]; simpl.
  - rewrite Nat.sub_0_r. apply substring_all.
  - apply IH.
Qed.

(** X20 ([relative]).  A path below the directory of the project loses
    that directory and the slash after it, and only that; a path in which
    the directory followed by a slash does not occur is returned as it
    is. *)
Theorem relative_strips_directory (directory path : string) :
  (∀ rest, path = directory +:+ "/" +:+ rest →
     File.relative directory path = rest)
  ∧ ((∀ before rest, path ≠ before +:+ (directory +:+ "/") +:+ rest) →
     File.relative directory path = path).
Proof.
  unfold File.relative. split.
  - intros rest ->. rewrite remove_first_unfold.
    rewrite <-append_assoc.
    rewrite (proj2 (startsWith_spec _ _)) by (by eexists).
    apply substring_after.
  - generalize (directory +:+ "/"). intros pattern.
    induction path as [|c path IH]; intros Hno.
    + rewrite remove_first_unfold.
      destruct (File.startsWith "" pattern) eqn:Hs; [|done].
      apply startsWith_spec in Hs as [r Hr].
      destruct (Hno "" r). done.
    + rewrite remove_first_unfold.
      destruct (File.startsWith (String c path) pattern) eqn:Hs.
      * apply startsWith_spec in Hs as [r Hr].
        destruct (Hno "" r). done.
      * f_equal. apply IH. intros before rest ->.
        by destruct (Hno (String c before) rest).
Qed.

(** X21 ([changed]).  A path counts as changed exactly when its node has a
    status, or it is one of the changed paths, or one of the changed paths
    lies below it; the empty path counts as changed as soon as anything
    has changed at all. *)
Theorem changed_iff (changes : list string) (path : string)
    (store : Local.FileStore) :
  File.changed changes path store = true
  ↔ is_Some (Local.node store !! path ≫= Local.status)
    ∨ path ∈ changes
    ∨ (path = "" ∧ changes ≠ [])
    ∨ (path ≠ "" ∧ ∃ rest, path +:+ "/" +:+ rest ∈ changes).
Proof.
  assert (Happ : ∀ rest, (path +:+ "/") +:+ rest = path +:+ "/" +:+ rest).
  { intros rest. apply append_assoc. }
  unfold File.changed.
  destruct (Local.node store !! path ≫= Local.status) as [s|].
  - split; [|done]. intros _. left. by eexists.
  - rewrite orb_true_iff, !bool_decide_eq_true, Exists_exists.
    unfold Js.truthy_string. split.
    + intros [Hin|(p & Hp & Hs)]; [by right; left|].
      right. right. case_bool_decide as Hpath.
      * right. split; [done|].
        apply startsWith_spec in Hs as [rest ->].
        exists rest. by rewrite <-Happ.
      * left. split; [done|]. by intros ->; apply elem_of_nil in Hp.
    + intros [[s [=]]|[Hin|[[-> Hne]|[Hpath (rest & Hin)]]]].
      * by left.
      * right. destruct changes as [|p l]; [done|].
        exists p. split; [apply elem_of_cons; by left|].
        rewrite bool_decide_eq_false_2 by (intros Hn; by apply Hn).
        by destruct p.
      * right. exists (path +:+ "/" +:+ rest). split; [done|].
        rewrite bool_decide_eq_true_2 by done.
        apply startsWith_spec. exists rest. by rewrite Happ.
Qed.

(** * The stored configuration *)

Lemma readConfig_of_text `{Js.Host} (env : Client.Environment)
    (cfg : OpencodeConfig) (text : string) :
  Js.JSON_parse text = Some (ConfigStore.config_json cfg) →
  Client.window env = Some (Client.item (Some text)) →
  Client.readConfig env = Js.Normal cfg.
Proof.
  intros Hparse Hwin. unfold Client.readConfig. rewrite Hwin.
  unfold Client.readConfig_try. simpl.
  assert (text ≠ "") as Hne.
  { intros ->. rewrite Js.JSON_parse_empty in Hparse. done. }
  unfold Js.truthy_string. rewrite bool_decide_eq_true_2 by done. simpl.
  rewrite Hparse. destruct cfg as [baseUrl [directory|]]; done.
Qed.

Lemma readConfig_written `{Js.Host} `{ConfigStore.Serializer}
    (next : OpencodeConfig) (b : ConfigStore.Browser) :
  round_trips next →
  Client.readConfig (ConfigStore.env_of (ConfigStore.writeConfig next b))
  = Js.Normal
      (if ConfigStore.has_window b then next
       else Client.default_config (ConfigStore.env_of b)).
Proof.
  intros Hrt. unfold ConfigStore.writeConfig.
  destruct (ConfigStore.has_window b) eqn:Hw; simpl.
  - eapply readConfig_of_text; [exact Hrt|].
    unfold ConfigStore.env_of. simpl. done.
  - unfold Client.readConfig, ConfigStore.env_of. by rewrite Hw.
Qed.

Lemma current_config_written `{Js.Host} `{ConfigStore.Serializer}
    (next : OpencodeConfig) (b : ConfigStore.Browser) :
  ConfigStore.has_window b = true → round_trips next →
  ConfigStore.current_config (ConfigStore.writeConfig next b) = next.
Proof.
  intros Hw Hrt. unfold ConfigStore.current_config.
  rewrite (readConfig_written next b Hrt). by rewrite Hw.
Qed.

Lemma writeConfig_twice `{ConfigStore.Serializer}
    (next1 next2 : OpencodeConfig) (b : ConfigStore.Browser) :
  ConfigStore.writeConfig next2 (ConfigStore.writeConfig next1 b)
  = ConfigStore.writeConfig next2 b.
Proof.
  unfold ConfigStore.writeConfig.
  by destruct (ConfigStore.has_window b) eqn:Hw; simpl; rewrite ?Hw.
Qed.

(** X22 ([writeConfig], [readConfig]).  In a browser, a configuration that
    survives [JSON.stringify] and [JSON.parse] is read back as it was
    written, with an empty base URL or directory kept as such, whatever
    was stored before; where there is no [window], writing does nothing
    and reading gives the default. *)
Theorem config_round_trip `{Js.Host} `{ConfigStore.Serializer}
    (next : OpencodeConfig) (b : ConfigStore.Browser) :
  round_trips next →
  if ConfigStore.has_window b then
    Client.readConfig (ConfigStore.env_of (ConfigStore.writeConfig next b))
    = Js.Normal next
  else
    ConfigStore.writeConfig next b = b
    ∧ Client.readConfig (ConfigStore.env_of b)
      = Js.Normal (Client.default_config (ConfigStore.env_of b)).
Proof.
  intros Hrt. pose proof (readConfig_written next b Hrt) as Hr.
  unfold ConfigStore.writeConfig in *.
  destruct (ConfigStore.has_window b) eqn:Hw; simpl in *; [done|].
  by split.
Qed.

Lemma config_round_trip_witness :
  Client.readConfig (H := SampleCodec.host)
    (ConfigStore.env_of
       (ConfigStore.writeConfig (H := SampleCodec.serializer)
          (SampleCodec.config "http://host:1" (Some "/w"))
          SampleCodec.browser))
  = Js.Normal (SampleCodec.config "http://host:1" (Some "/w")).
Proof.
  apply (config_round_trip (H := SampleCodec.host)
           (H0 := SampleCodec.serializer)
           (SampleCodec.config "http://host:1" (Some "/w"))
           SampleCodec.browser).
  vm_compute. reflexivity.
Defined.

(** X23 ([updateBaseUrl], [updateDirectory]).  In a browser, and for
    configurations that survive [JSON.stringify] and [JSON.parse], each of
    the two updates changes its own member of the configuration and keeps
    the other one as [readConfig] saw it (the default base URL included,
    when the store held none), and the two updates commute.  Where there
    is no [window] neither does anything. *)
Theorem config_updates `{Js.Host} `{ConfigStore.Serializer}
    (baseUrl : string) (directory : option string)
    (b : ConfigStore.Browser) :
  let current := ConfigStore.current_config b in
  let with_url :=
    {| OpencodeConfig.baseUrl := baseUrl;
       OpencodeConfig.directory := OpencodeConfig.directory current |} in
  let with_directory :=
    {| OpencodeConfig.baseUrl := OpencodeConfig.baseUrl current;
       OpencodeConfig.directory := directory |} in
  round_trips with_url →
  round_trips with_directory →
  if ConfigStore.has_window b then
    ConfigStore.current_config (ConfigStore.updateBaseUrl baseUrl b)
    = with_url
    ∧ ConfigStore.current_config (ConfigStore.updateDirectory directory b)
      = with_directory
    ∧ ConfigStore.updateBaseUrl baseUrl
        (ConfigStore.updateDirectory directory b)
      = ConfigStore.updateDirectory directory
          (ConfigStore.updateBaseUrl baseUrl b)
  else
    ConfigStore.updateBaseUrl baseUrl b = b
    ∧ ConfigStore.updateDirectory directory b = b.
Proof.
  intros current with_url with_directory Hurl Hdir.
  destruct (ConfigStore.has_window b) eqn:Hw.
  - assert (H1 : ConfigStore.current_config
                   (ConfigStore.updateBaseUrl baseUrl b) = with_url)
      by (by apply current_config_written).
    assert (H2 : ConfigStore.current_config
                   (ConfigStore.updateDirectory directory b)
                 = with_directory)
      by (by apply current_config_written).
    split_and!; [done..|].
    assert (E1 : ∀ b',
      ConfigStore.updateBaseUrl baseUrl b'
      = ConfigStore.writeConfig
          {| OpencodeConfig.baseUrl := baseUrl;
             OpencodeConfig.directory :=
               OpencodeConfig.directory (ConfigStore.current_config b') |}
          b') by done.
    assert (E2 : ∀ b',
      ConfigStore.updateDirectory directory b'
      = ConfigStore.writeConfig
          {| OpencodeConfig.baseUrl :=
               OpencodeConfig.baseUrl (ConfigStore.current_config b');
             OpencodeConfig.directory := directory |}
          b') by done.
    rewrite (E1 (ConfigStore.updateDirectory directory b)), H2.
    rewrite (E2 (ConfigStore.updateBaseUrl baseUrl b)), H1.
    rewrite (E1 b), (E2 b), !writeConfig_twice. done.
  - unfold ConfigStore.updateBaseUrl, ConfigStore.updateDirectory,
      ConfigStore.writeConfig.
    by rewrite Hw.
Qed.

Lemma config_updates_witness :
  ConfigStore.current_config (H := SampleCodec.host)
    (ConfigStore.updateBaseUrl (H := SampleCodec.host)
       (H0 := SampleCodec.serializer) "http://host:1" SampleCodec.browser)
  = SampleCodec.config "http://host:1" None
  ∧ ConfigStore.current_config (H := SampleCodec.host)
      (ConfigStore.updateDirectory (H := SampleCodec.host)
         (H0 := SampleCodec.serializer) (Some "/w") SampleCodec.browser)
    = SampleCodec.config "http://127.0.0.1:4096" (Some "/w")
  ∧ ConfigStore.updateBaseUrl (H := SampleCodec.host)
      (H0 := SampleCodec.serializer) "http://host:1"
      (ConfigStore.updateDirectory (H := SampleCodec.host)
         (H0 := SampleCodec.serializer) (Some "/w") SampleCodec.browser)
    = ConfigStore.updateDirectory (H := SampleCodec.host)
        (H0 := SampleCodec.serializer) (Some "/w")
        (ConfigStore.updateBaseUrl (H := SampleCodec.host)
           (H0 := SampleCodec.serializer) "http://host:1"
           SampleCodec.browser).
Proof.
  apply (config_updates (H := SampleCodec.host)
           (H0 := SampleCodec.serializer) "http://host:1" (Some "/w")
           SampleCodec.browser).
  - vm_compute. reflexivity.
  - vm_compute. reflexivity.
Defined.

(** * The components and the event source *)

(** X24 ([ChatComposer], [handleSubmit]).  When the request of [prompt]
    fails, the store records the error and stores no message, and still the
    text box is emptied: [prompt] catches the error itself, so the
    [setValue("")] after it runs all the same.  The submission does not
    reject and leaves [sending] off. *)
Theorem composer_clears_text_of_failed_send `{Js.Host} (id : string)
    (error : Js.Thrown) (pg : Composer.Page) :
  Store.activeSessionID (Composer.store pg) = Some id →
  id ≠ "" →
  Js.trim (Composer.value (Composer.composer pg)) ≠ "" →
  Js.trim (Js.trim (Composer.value (Composer.composer pg))) ≠ "" →
  let pg' :=
    Js.state_after (Composer.handleSubmit (Js.Rejected error)) pg in
  Js.outcome_of (Composer.handleSubmit (Js.Rejected error)) pg
  = Js.Fulfilled tt
  ∧ Composer.value (Composer.composer pg') = ""
  ∧ Composer.sending (Composer.composer pg') = false
  ∧ Store.lastError (Composer.store pg')
    = Some (Store.prompt_error_text error)
  ∧ Store.messages (Composer.store pg') = Store.messages (Composer.store pg).
Proof.
  intros Hactive Hid Htext Htext2 pg'. subst pg'.
  unfold Js.state_after, Js.outcome_of, Composer.handleSubmit.
  rewrite Hactive. unfold Js.truthy_string.
  rewrite !bool_decide_eq_true_2 by done. simpl.
  destruct (Store_prompt_settles id
              (Js.trim (Composer.value (Composer.composer pg)))
              (Js.Rejected error) (Composer.store pg) Htext2)
    as (Hout & _ & Hrej).
  destruct (Hrej error eq_refl) as (Herr & Hmsg & _).
  unfold Js.state_after, Js.outcome_of in *.
  unfold mbind, Js.Async_bind, Js.then_, Js.set, Js.finally, Js.try_catch,
    Composer.in_store. simpl.
  destruct (Store.prompt id _ (Js.Rejected error) (Composer.store pg))
    as [outcome st] eqn:Hp.
  simpl in *. subst outcome. simpl. done.
Qed.

Lemma composer_clears_text_of_failed_send_witness :
  let pg' :=
    Js.state_after
      (Composer.handleSubmit (H := SampleHost.host)
         (Js.Rejected (Js.ErrorObject "offline")))
      SamplePage.page in
  Js.outcome_of
    (Composer.handleSubmit (H := SampleHost.host)
       (Js.Rejected (Js.ErrorObject "offline")))
    SamplePage.page
  = Js.Fulfilled tt
  ∧ Composer.value (Composer.composer pg') = ""
  ∧ Composer.sending (Composer.composer pg') = false
  ∧ Store.lastError (Composer.store pg')
    = Some (Store.prompt_error_text (Js.ErrorObject "offline"))
  ∧ Store.messages (Composer.store pg')
    = Store.messages (Composer.store SamplePage.page).
Proof.
  apply (composer_clears_text_of_failed_send (H := SampleHost.host) "s").
  - reflexivity.
  - discriminate.
  - vm_compute. discriminate.
  - vm_compute. discriminate.
Defined.

(** X25 ([updateConfig], [handleSave]).  In a browser, and for a
    configuration that survives [JSON.stringify] and [JSON.parse], the
    configuration of the store and the one [readConfig] finds in
    [localStorage] are the same after [updateConfig], and nothing else of
    the store is touched.  In the settings dialog a blank base URL keeps
    the old one and a blank directory removes the directory. *)
Theorem saved_settings_agree `{Js.Host} `{ConfigStore.Serializer}
    (input : Settings.ConfigInput) (baseUrl directory : string)
    (st : Store.OpencodeStoreState) (b : ConfigStore.Browser) :
  ConfigStore.has_window b = true →
  round_trips (Settings.spread (Store.config st) input) →
  let page := Settings.updateConfig input (st, b) in
  Client.readConfig (ConfigStore.env_of page.2)
  = Js.Normal (Store.config page.1)
  ∧ Store.with_config (Store.config st) page.1 = st
  ∧ (input = Settings.handleSave_input baseUrl directory (Store.config st) →
     OpencodeConfig.baseUrl (Store.config page.1)
     = (if bool_decide (Js.trim baseUrl = "")
        then OpencodeConfig.baseUrl (Store.config st) else Js.trim baseUrl)
     ∧ OpencodeConfig.directory (Store.config page.1)
       = (if bool_decide (Js.trim directory = "") then None
          else Some (Js.trim directory))).
Proof.
  intros Hw Hrt page. subst page. unfold Settings.updateConfig. simpl.
  split_and!.
  - rewrite (readConfig_written _ b Hrt). by rewrite Hw.
  - by destruct st.
  - intros ->. unfold Settings.spread, Settings.handleSave_input,
      Js.truthy_string. simpl.
    split; repeat case_bool_decide; done.
Qed.

Lemma saved_settings_agree_witness :
  let input :=
    Settings.handleSave_input (H := SampleCodec.host) "  " " /w "
      Sample.cfg in
  let page :=
    Settings.updateConfig (H := SampleCodec.serializer) input
      (Store.initial Sample.cfg, SampleCodec.browser) in
  Client.readConfig (H := SampleCodec.host) (ConfigStore.env_of page.2)
  = Js.Normal (Store.config page.1)
  ∧ Store.with_config Sample.cfg page.1 = Store.initial Sample.cfg
  ∧ (input
     = Settings.handleSave_input (H := SampleCodec.host) "  " " /w "
         Sample.cfg →
     OpencodeConfig.baseUrl (Store.config page.1)
     = (if bool_decide (Js.trim (Host := SampleCodec.host) "  " = "")
        then OpencodeConfig.baseUrl Sample.cfg
        else Js.trim (Host := SampleCodec.host) "  ")
     ∧ OpencodeConfig.directory (Store.config page.1)
       = (if bool_decide (Js.trim (Host := SampleCodec.host) " /w " = "")
          then None
          else Some (Js.trim (Host := SampleCodec.host) " /w "))).
Proof.
  apply (saved_settings_agree (H := SampleCodec.host)
           (H0 := SampleCodec.serializer)
           (Settings.handleSave_input (H := SampleCodec.host) "  " " /w "
              Sample.cfg)
           "  " " /w " (Store.initial Sample.cfg) SampleCodec.browser).
  - reflexivity.
  - vm_compute. reflexivity.
Defined.

(** X26 ([subscribeEvents], [onmessage]).  Whatever the frame holds and
    whatever the handler does, [onmessage] does not throw.  The handler is
    reached only with a parsed object whose [type] is truthy; any other
    frame leaves the state alone. *)
Theorem onmessage_is_guarded `{Js.Host} {S : Type}
    (onEvent : Js.Json → S → Js.Completion unit * S) (data : string)
    (st : S) :
  (Events.onmessage onEvent data st).1 = Js.Normal tt
  ∧ ((Events.onmessage onEvent data st).2 = st
     ∨ ∃ fields kind,
         Js.JSON_parse data = Some (Js.JObject fields)
         ∧ Js.assoc "type" fields = Some kind
         ∧ Events.json_truthy kind = true
         ∧ (Events.onmessage onEvent data st).2
           = (onEvent (Js.JObject fields) st).2).
Proof.
  unfold Events.onmessage.
  destruct (Js.JSON_parse data) as [parsed|]; [|by split; [|left]].
  unfold Events.has_type, Js.member.
  destruct parsed as [| | | | |fields]; try (by split; [|left]).
  destruct (Js.assoc "type" fields) as [kind|] eqn:Hk;
    [|by split; [|left]].
  destruct (Events.json_truthy kind) eqn:Ht; simpl; [|by split; [|left]].
  destruct (onEvent (Js.JObject fields) st) as [[[]|e] st'] eqn:He.
  - split; [done|]. right. exists fields, kind. by rewrite He.
  - split; [done|]. right. exists fields, kind. by rewrite He.
Qed.
